(** * Block-device back end of the device model: [devicemodel/hw/block_if.c]

    A shallow embedding of the request queue, the alignment (bounce buffer)
    engine, the discard path, request submission and cancellation, the
    worker of the thread pool, the io_uring back end and the C/H/S helper,
    together with the properties established for them.

    C integers are modelled as [Z] with the wrap-around of their type written
    out ([to_off_t], [to_int], [to_uint32], ...).  C's [/] and [%] on signed
    operands truncate towards zero: they are [Z.quot] and [Z.rem].  Slots of
    a queue live in the fixed array [reqs]; the three TAILQs are lists of
    indices into that array, head first. *)

From Stdlib Require Import ZArith Lia List Bool.
From stdpp Require Import base list.

#[local] Open Scope Z_scope.

(** ** Machine integers *)

Definition wrap_unsigned (w z : Z) : Z := z mod 2 ^ w.
Definition wrap_signed (w z : Z) : Z := (z + 2 ^ (w - 1)) mod 2 ^ w - 2 ^ (w - 1).

Definition to_uint8 : Z -> Z := wrap_unsigned 8.
Definition to_uint16 : Z -> Z := wrap_unsigned 16.
Definition to_uint32 : Z -> Z := wrap_unsigned 32.
Definition to_uint64 : Z -> Z := wrap_unsigned 64.
Definition to_int : Z -> Z := wrap_signed 32.
Definition to_off_t : Z -> Z := wrap_signed 64.

(** [sizeof(off_t)] on the LP64 hosts the device model is built for. *)
Definition sizeof_off_t : Z := 8.
Definition OFF_MAX : Z := 2 ^ 63 - 1.
Definition INT_MAX : Z := 2 ^ 31 - 1.
Definition UINT32_MAX : Z := 2 ^ 32 - 1.

(** C truth value of a comparison. *)
Definition c_bool (b : bool) : Z := if b then 1 else 0.

(** ** Constants of the file and of the host headers *)

Definition BLOCKIF_NUMTHR : nat := 8.
Definition BLOCKIF_MAXREQ : nat := 64 + BLOCKIF_NUMTHR.
Definition MAX_DISCARD_SEGMENT : Z := 256.
Definition AIO_MODE_THREAD_POOL : Z := 0.
Definition AIO_MODE_IO_URING : Z := 1.
Definition DEV_BSIZE : Z := 512.

Definition ENOENT : Z := 2.
Definition EIO : Z := 5.
Definition E2BIG : Z := 7.
Definition ENOMEM : Z := 12.
Definition EBUSY : Z := 16.
Definition EINVAL : Z := 22.
Definition EROFS : Z := 30.
Definition EOPNOTSUPP : Z := 95.

(** ** Data model *)

Inductive blockop := BOP_READ | BOP_WRITE | BOP_FLUSH | BOP_DISCARD.

Inductive blockstat := BST_FREE | BST_BLOCK | BST_PEND | BST_BUSY | BST_DONE.

#[global] Instance blockop_eq_dec : EqDecision blockop.
Proof. solve_decision. Defined.

#[global] Instance blockstat_eq_dec : EqDecision blockstat.
Proof. solve_decision. Defined.

(** [struct iovec]: the base is an address. *)
Record iovec := mk_iovec { iov_base : Z; iov_len : Z }.

(** [struct br_align_info] of block_if.h, the scratch area of a request.
    The header is not part of the file; the field types are those the file
    uses them at ([uint32_t] for the sizes, [off_t] for the two offsets). *)
Record br_align_info := mk_align_info {
  info_alignment : Z;
  info_is_iov_base_aligned : bool;
  info_is_iov_len_aligned : bool;
  info_is_offset_aligned : bool;
  info_need_conversion : bool;
  info_head : Z;
  info_tail : Z;
  info_org_size : Z;
  info_bounced_size : Z;
  info_aligned_dn_start : Z;
  info_aligned_dn_end : Z;
  info_bounce_iov : iovec
}.

(** [struct blockif_req], owned by the caller.  [br_addr] is the address of
    the structure: the file compares requests by pointer.  [br_iov] holds the
    first [iovcnt] segments. *)
Record blockif_req := mk_req {
  br_addr : Z;
  br_iov : list iovec;
  br_offset : Z;
  br_resid : Z;
  br_qidx : Z;
  br_align : br_align_info
}.

Definition br_iovcnt (br : blockif_req) : Z := Z.of_nat (length (br_iov br)).

(** [struct blockif_elem] without its TAILQ link. *)
Record blockif_elem := mk_elem {
  be_req : option blockif_req;
  be_op : blockop;
  be_status : blockstat;
  be_tid : Z;
  be_block : Z
}.

(** A slot as [calloc] leaves it. *)
Definition elem_zero : blockif_elem :=
  {| be_req := None; be_op := BOP_READ; be_status := BST_FREE; be_tid := 0; be_block := 0 |}.

(** [struct blockif_queue]: the lists hold indices into [bq_reqs]. *)
Record blockif_queue := mk_queue {
  bq_closing : Z;
  bq_freeq : list nat;
  bq_pendq : list nat;
  bq_busyq : list nat;
  bq_reqs : list blockif_elem;
  bq_in_flight : Z
}.

(** ** The host: memory, backing store and system calls

    Memory and the backing store map addresses (offsets) to byte values.
    Every call into the host is appended to [h_trace].  What the host
    answers (whether an allocation succeeds and where, how many bytes a
    read returns, whether a deallocation succeeds, whether the worker has
    finished by the time the canceller looks again) is not decided by the
    file: it is given by [host_env], as a function of the trace so far and
    of the arguments of the call. *)

Inductive event :=
| EvMemalign (align size rc ptr : Z)
| EvFree (ptr : Z)
| EvPreadv (base len off ret : Z)
| EvBlkdiscard (start len : Z)
| EvPunchHole (start len : Z)
| EvFdatasync
| EvCondSignal
| EvKill (tid : Z)
| EvCallback (addr err : Z).

Record host := mk_host {
  h_mem : Z -> Z;
  h_disk : Z -> Z;
  h_trace : list event
}.

Record host_env := mk_env {
  (** [posix_memalign], given alignment and size: return code (0 or a
      positive errno) and pointer. *)
  env_memalign : list event -> Z -> Z -> Z * Z;
  (** [preadv], given the segment and the file offset: return value (byte
      count or -1) and [errno]. *)
  env_preadv : list event -> iovec -> Z -> Z * Z;
  (** return value of [ioctl(BLKDISCARD)] and of [fallocate], given start
      and length, and of [fdatasync]. *)
  env_blkdiscard : list event -> Z -> Z -> Z;
  env_fallocate : list event -> Z -> Z -> Z;
  env_fdatasync : list event -> Z;
  (** has the worker thread reached [be->status = BST_DONE]? *)
  env_worker_done : list event -> bool
}.

Definition emit (ev : event) (h : host) : host :=
  {| h_mem := h_mem h; h_disk := h_disk h; h_trace := h_trace h ++ [ev] |}.

Definition set_mem (m : Z -> Z) (h : host) : host :=
  {| h_mem := m; h_disk := h_disk h; h_trace := h_trace h |}.

(** [struct blockif_ops], the hook the modelled functions call. *)
Record blockif_ops := mk_ops {
  ops_aio_mode : Z;
  ops_request : blockif_queue -> host -> blockif_queue * host
}.

(** [struct blockif_ctxt], the fields the modelled functions read. *)
Record blockif_ctxt := mk_ctxt {
  bc_isblk : Z;
  bc_candiscard : Z;
  bc_rdonly : Z;
  bc_size : Z;
  bc_sub_file_start_lba : Z;
  bc_sectsz : Z;
  bc_max_discard_sectors : Z;
  bc_max_discard_seg : Z;
  bc_discard_sector_alignment : Z;
  bc_bqs : list blockif_queue;
  bc_bq_num : Z;
  bc_aio_mode : Z;
  bc_ops : blockif_ops;
  bc_wce : Z;
  bc_bypass_host_cache : Z;
  bc_bst_block : Z
}.

(** [struct discard_range], the record virtio-blk passes in [iov[0]]. *)
Record discard_range := mk_range {
  dr_sector : Z;
  dr_num_sectors : Z;
  dr_flags : Z
}.

Definition sizeof_discard_range : Z := 16.

(** ** The request queue *)

Definition elem_at (bq : blockif_queue) (i : nat) : blockif_elem :=
  default elem_zero (bq_reqs bq !! i).

Definition set_reqs (bq : blockif_queue) (reqs : list blockif_elem) : blockif_queue :=
  {| bq_closing := bq_closing bq; bq_freeq := bq_freeq bq; bq_pendq := bq_pendq bq;
     bq_busyq := bq_busyq bq; bq_reqs := reqs; bq_in_flight := bq_in_flight bq |}.

Definition set_status (s : blockstat) (e : blockif_elem) : blockif_elem :=
  {| be_req := be_req e; be_op := be_op e; be_status := s; be_tid := be_tid e;
     be_block := be_block e |}.

Definition set_block (b : Z) (e : blockif_elem) : blockif_elem :=
  {| be_req := be_req e; be_op := be_op e; be_status := be_status e; be_tid := be_tid e;
     be_block := b |}.

(** [TAILQ_REMOVE]: unlink the element from the list it is on. *)
Fixpoint tailq_remove (be : nat) (q : list nat) : list nat :=
  match q with
  | [] => []
  | x :: q' => if Nat.eqb x be then q' else x :: tailq_remove be q'
  end.

(** The key stored in [be->block] when the interlock is on: the running sum
    is an [off_t] to which each [size_t] length is added. *)
Definition block_key (breq : blockif_req) (op : blockop) : Z :=
  match op with
  | BOP_READ | BOP_WRITE | BOP_DISCARD =>
      fold_left (fun off v => to_off_t (off + iov_len v)) (br_iov breq) (br_offset breq)
  | BOP_FLUSH => Z.shiftl 1 (sizeof_off_t - 1)
  end.

(** [TAILQ_FOREACH ... if (tbe->block == breq->offset) break;] *)
Definition find_block (reqs : list blockif_elem) (off : Z) (q : list nat) : option nat :=
  find (fun i => be_block (default elem_zero (reqs !! i)) =? off) q.

Definition blockif_enqueue (bc : blockif_ctxt) (bq : blockif_queue)
    (breq : blockif_req) (op : blockop) : blockif_queue * Z :=
  match bq_freeq bq with
  | [] => (bq, 0)
  | be :: freeq' =>
      if bool_decide (be_status (elem_at bq be) = BST_FREE) then
        let e1 := {| be_req := Some breq; be_op := op; be_status := BST_PEND;
                     be_tid := be_tid (elem_at bq be);
                     be_block := be_block (elem_at bq be) |} in
        let e2 :=
          if bc_bst_block bc =? 1 then
            let e := set_block (block_key breq op) e1 in
            let reqs1 := <[be := e]> (bq_reqs bq) in
            let tbe :=
              match find_block reqs1 (br_offset breq) (bq_pendq bq) with
              | Some t => Some t
              | None => find_block reqs1 (br_offset breq) (bq_busyq bq)
              end in
            match tbe with
            | Some _ => set_status BST_BLOCK e
            | None => e
            end
          else e1 in
        ({| bq_closing := bq_closing bq; bq_freeq := freeq';
            bq_pendq := bq_pendq bq ++ [be]; bq_busyq := bq_busyq bq;
            bq_reqs := <[be := e2]> (bq_reqs bq); bq_in_flight := bq_in_flight bq |},
         c_bool (bool_decide (be_status e2 = BST_PEND)))
      else (bq, 0)
  end.

(** Returns the new queue, the C return value and the slot stored in [*bep]. *)
Definition blockif_dequeue (bq : blockif_queue) (t : Z) : blockif_queue * Z * option nat :=
  match find (fun i => bool_decide (be_status (elem_at bq i) = BST_PEND)) (bq_pendq bq) with
  | None => (bq, 0, None)
  | Some be =>
      let e := elem_at bq be in
      ({| bq_closing := bq_closing bq; bq_freeq := bq_freeq bq;
          bq_pendq := tailq_remove be (bq_pendq bq); bq_busyq := bq_busyq bq ++ [be];
          bq_reqs := <[be := {| be_req := be_req e; be_op := be_op e; be_status := BST_BUSY;
                                be_tid := t; be_block := be_block e |}]> (bq_reqs bq);
          bq_in_flight := bq_in_flight bq |}, 1, Some be)
  end.

(** The walk of [blockif_complete] over pendq: a slot whose request starts
    at the completed slot's key becomes PEND.  Every slot on pendq carries a
    request (see [queue_inv]); the [None] branch stands for the NULL
    dereference that the code never reaches. *)
Definition unblock (key : Z) (reqs : list blockif_elem) (tbe : nat) : list blockif_elem :=
  let e := default elem_zero (reqs !! tbe) in
  match be_req e with
  | Some r => if br_offset r =? key then <[tbe := set_status BST_PEND e]> reqs else reqs
  | None => reqs
  end.

Definition blockif_complete (bc : blockif_ctxt) (bq : blockif_queue) (be : nat) : blockif_queue :=
  let e := elem_at bq be in
  let busy := bool_decide (be_status e = BST_DONE) || bool_decide (be_status e = BST_BUSY) in
  let busyq1 := if busy then tailq_remove be (bq_busyq bq) else bq_busyq bq in
  let pendq1 := if busy then bq_pendq bq else tailq_remove be (bq_pendq bq) in
  let reqs1 :=
    if bc_bst_block bc =? 1 then fold_left (unblock (be_block e)) pendq1 (bq_reqs bq)
    else bq_reqs bq in
  let e1 := default elem_zero (reqs1 !! be) in
  {| bq_closing := bq_closing bq; bq_freeq := bq_freeq bq ++ [be];
     bq_pendq := pendq1; bq_busyq := busyq1;
     bq_reqs := <[be := {| be_req := None; be_op := be_op e1; be_status := BST_FREE;
                           be_tid := 0; be_block := be_block e1 |}]> reqs1;
     bq_in_flight := bq_in_flight bq |}.

(** The only write [blockif_proc] (and the ring paths) make to the queue
    before the callback: [be->status = BST_DONE]. *)
Definition blockif_proc_done (bq : blockif_queue) (be : nat) : blockif_queue :=
  set_reqs bq (<[be := set_status BST_DONE (elem_at bq be)]> (bq_reqs bq)).

(** Queue set-up in [blockif_open]: three empty lists, then every slot of
    the zeroed array is marked FREE and inserted at the head of freeq. *)
Definition queue_open_step (bq : blockif_queue) (i : nat) : blockif_queue :=
  {| bq_closing := bq_closing bq; bq_freeq := i :: bq_freeq bq;
     bq_pendq := bq_pendq bq; bq_busyq := bq_busyq bq;
     bq_reqs := <[i := set_status BST_FREE (elem_at bq i)]> (bq_reqs bq);
     bq_in_flight := bq_in_flight bq |}.

Definition queue_zero : blockif_queue :=
  {| bq_closing := 0; bq_freeq := []; bq_pendq := []; bq_busyq := [];
     bq_reqs := replicate BLOCKIF_MAXREQ elem_zero; bq_in_flight := 0 |}.

Definition queue_open : blockif_queue :=
  fold_left queue_open_step (seq 0 BLOCKIF_MAXREQ) queue_zero.

(** ** Discard *)

Definition discard_range_validate (bc : blockif_ctxt) (start size : Z) : Z :=
  let start_sector := Z.quot start DEV_BSIZE in
  let size_sector := Z.quot size DEV_BSIZE in
  if (size =? 0)
     || (to_off_t (bc_size bc + bc_sub_file_start_lba bc) <? to_off_t (start + size)) then -1
  else if (bc_max_discard_sectors bc <? size_sector)
          || (negb (bc_discard_sector_alignment bc =? 0)
              && negb (Z.rem start_sector (bc_discard_sector_alignment bc) =? 0))
  then -1
  else 0.

(** The row [arg[i]] computed from a record: [range[i].num_sectors *
    DEV_BSIZE] is a 32-bit unsigned product, [range[i].sector * DEV_BSIZE +
    sub_file_start_lba] a 64-bit one stored in an [off_t].

    [discard_collect] is the first loop of [blockif_process_discard]
    (virtio-blk convention): [range] is the array [iov[0].iov_base] points
    to.  Each round stores the row [arg[i]] before it tests [segment];
    [arg] has [MAX_DISCARD_SEGMENT] rows, and [None] stands for a store
    past its end.  Otherwise the loop yields the error, or the rows filled
    and the final [segment]. *)
Definition discard_arg (bc : blockif_ctxt) (r : discard_range) : Z * Z :=
  (to_off_t (dr_sector r * DEV_BSIZE + bc_sub_file_start_lba bc),
   to_uint32 (dr_num_sectors r * DEV_BSIZE)).

Fixpoint discard_collect (bc : blockif_ctxt) (range : nat -> discard_range)
    (n : nat) (i : nat) (segment : Z) (arg : list (Z * Z))
    : option (Z + list (Z * Z) * Z) :=
  match n with
  | O => Some (inr (arg, segment))
  | S n' =>
      if MAX_DISCARD_SEGMENT <=? Z.of_nat i then None
      else
        let a := discard_arg bc (range i) in
        let segment := to_int (segment + 1) in
        if bc_max_discard_seg bc <? segment then Some (inl EINVAL)
        else if negb (discard_range_validate bc (fst a) (snd a) =? 0) then Some (inl EINVAL)
        else discard_collect bc range n' (S i) segment (arg ++ [a])
  end.

(** One deallocation: the kernel ioctl on a block device, else a hole punch
    followed by a data sync. *)
Definition discard_one (env : host_env) (bc : blockif_ctxt) (a : Z * Z) (h : host) : Z * host :=
  if negb (bc_isblk bc =? 0) then
    let err := env_blkdiscard env (h_trace h) (fst a) (snd a) in
    (err, emit (EvBlkdiscard (fst a) (snd a)) h)
  else
    let err := env_fallocate env (h_trace h) (fst a) (snd a) in
    let h1 := emit (EvPunchHole (fst a) (snd a)) h in
    if err =? 0 then (env_fdatasync env (h_trace h1), emit EvFdatasync h1)
    else (err, h1).

(** The second loop: run the first [segment] entries of [arg], stop at the
    first failure. *)
Fixpoint discard_exec (env : host_env) (bc : blockif_ctxt) (arg : list (Z * Z)) (h : host)
    : Z * host :=
  match arg with
  | [] => (0, h)
  | a :: arg' =>
      let '(err, h1) := discard_one env bc a h in
      if negb (err =? 0) then (err, h1) else discard_exec env bc arg' h1
  end.

Definition set_resid (r : Z) (br : blockif_req) : blockif_req :=
  {| br_addr := br_addr br; br_iov := br_iov br; br_offset := br_offset br;
     br_resid := r; br_qidx := br_qidx br; br_align := br_align br |}.

(** [None]: the first loop stored a row past the end of [arg]. *)
Definition blockif_process_discard (env : host_env) (bc : blockif_ctxt)
    (range : nat -> discard_range) (br : blockif_req) (h : host)
    : option (Z * blockif_req * host) :=
  if bc_candiscard bc =? 0 then Some (EOPNOTSUPP, br, h)
  else if negb (bc_rdonly bc =? 0) then Some (EROFS, br, h)
  else
    let collected :=
      if br_iovcnt br =? 1 then
        let n_range :=
          to_int (Z.quot (iov_len (nth 0 (br_iov br) (mk_iovec 0 0))) sizeof_discard_range) in
        discard_collect bc range (Z.to_nat n_range) 0 0 []
      else
        Some (inr ([(to_off_t (br_offset br + bc_sub_file_start_lba bc), br_resid br)], 1)) in
    match collected with
    | None => None
    | Some (inl err) => Some (err, br, h)
    | Some (inr (arg, segment)) =>
        let '(err, h1) := discard_exec env bc (firstn (Z.to_nat segment) arg) h in
        if negb (err =? 0) then Some (err, br, h1) else Some (0, set_resid 0 br, h1)
    end.

(** ** Alignment information *)

Definition set_align (info : br_align_info) (br : blockif_req) : blockif_req :=
  {| br_addr := br_addr br; br_iov := br_iov br; br_offset := br_offset br;
     br_resid := br_resid br; br_qidx := br_qidx br; br_align := info |}.

(** State of the loop of [blockif_init_iov_align_info]: the [int] running
    size and the two flags. *)
Definition iov_align_step (alignment : Z) (st : Z * bool * bool) (v : iovec) : Z * bool * bool :=
  let '(size, base_ok, len_ok) := st in
  (to_int (size + iov_len v),
   if negb (Z.rem (to_uint64 (iov_base v)) alignment =? 0) then false else base_ok,
   if negb (Z.rem (iov_len v) alignment =? 0) then false else len_ok).

Definition blockif_init_iov_align_info (br : blockif_req) : blockif_req :=
  let info := br_align br in
  let '(size, base_ok, len_ok) :=
    fold_left (iov_align_step (info_alignment info)) (br_iov br) (0, true, true) in
  set_align
    {| info_alignment := info_alignment info;
       info_is_iov_base_aligned := base_ok;
       info_is_iov_len_aligned := len_ok;
       info_is_offset_aligned := info_is_offset_aligned info;
       info_need_conversion := info_need_conversion info;
       info_head := info_head info; info_tail := info_tail info;
       info_org_size := to_uint32 size;
       info_bounced_size := info_bounced_size info;
       info_aligned_dn_start := info_aligned_dn_start info;
       info_aligned_dn_end := info_aligned_dn_end info;
       info_bounce_iov := info_bounce_iov info |} br.

Definition set_need_conversion (b : bool) (info : br_align_info) : br_align_info :=
  {| info_alignment := info_alignment info;
     info_is_iov_base_aligned := info_is_iov_base_aligned info;
     info_is_iov_len_aligned := info_is_iov_len_aligned info;
     info_is_offset_aligned := info_is_offset_aligned info;
     info_need_conversion := b;
     info_head := info_head info; info_tail := info_tail info;
     info_org_size := info_org_size info;
     info_bounced_size := info_bounced_size info;
     info_aligned_dn_start := info_aligned_dn_start info;
     info_aligned_dn_end := info_aligned_dn_end info;
     info_bounce_iov := info_bounce_iov info |}.

Definition blockif_init_alignment_info (bc : blockif_ctxt) (br : blockif_req) : blockif_req :=
  let alignment := to_uint32 (bc_sectsz bc) in
  if bc_bypass_host_cache bc =? 0 then
    set_align (set_need_conversion false (br_align br)) br
  else
    let start := to_off_t (br_offset br + bc_sub_file_start_lba bc) in
    let info0 := br_align br in
    let br1 := blockif_init_iov_align_info
      (set_align
         {| info_alignment := alignment;
            info_is_iov_base_aligned := info_is_iov_base_aligned info0;
            info_is_iov_len_aligned := info_is_iov_len_aligned info0;
            info_is_offset_aligned := Z.rem start alignment =? 0;
            info_need_conversion := info_need_conversion info0;
            info_head := info_head info0; info_tail := info_tail info0;
            info_org_size := info_org_size info0;
            info_bounced_size := info_bounced_size info0;
            info_aligned_dn_start := info_aligned_dn_start info0;
            info_aligned_dn_end := info_aligned_dn_end info0;
            info_bounce_iov := info_bounce_iov info0 |} br) in
    let info := br_align br1 in
    let all_aligned :=
      info_is_offset_aligned info && info_is_iov_base_aligned info
      && info_is_iov_len_aligned info in
    if all_aligned then set_align (set_need_conversion false info) br1
    else
      let head := to_uint32 (Z.rem start alignment) in
      let aligned_dn_start := to_off_t (start - head) in
      let end_ := to_off_t (start + info_org_size info) in
      let end_rmd := to_uint32 (Z.rem end_ alignment) in
      let tail := if end_rmd =? 0 then 0 else to_uint32 (alignment - end_rmd) in
      set_align
        {| info_alignment := info_alignment info;
           info_is_iov_base_aligned := info_is_iov_base_aligned info;
           info_is_iov_len_aligned := info_is_iov_len_aligned info;
           info_is_offset_aligned := info_is_offset_aligned info;
           info_need_conversion := true;
           info_head := head; info_tail := tail;
           info_org_size := info_org_size info;
           info_bounced_size := to_uint32 (head + info_org_size info + tail);
           info_aligned_dn_start := aligned_dn_start;
           info_aligned_dn_end := to_off_t (end_ - end_rmd);
           info_bounce_iov := info_bounce_iov info |} br1.

(** ** Virtual C/H/S *)

(** Returns [( *c, *h, *s )].  [sectors] and [hcyl] are [off_t], [secpt] a
    [uint16_t], [heads] a [uint8_t]; the two comparisons against [UL]
    constants are unsigned. *)
Definition blockif_chs (bc : blockif_ctxt) : Z * Z * Z :=
  let sectors0 := Z.quot (bc_size bc) (bc_sectsz bc) in
  let sectors :=
    if 65535 * 16 * 255 <? to_uint64 sectors0 then 65535 * 16 * 255 else sectors0 in
  let '(secpt, heads, hcyl) :=
    if 65536 * 16 * 63 <=? to_uint64 sectors then (255, 16, Z.quot sectors 255)
    else
      let secpt := 17 in
      let hcyl := Z.quot sectors secpt in
      let heads := to_uint8 (Z.quot (hcyl + 1023) 1024) in
      let heads := if heads <? 4 then 4 else heads in
      let '(secpt, heads, hcyl) :=
        if (heads * 1024 <=? hcyl) || (16 <? heads) then (31, 16, Z.quot sectors 31)
        else (secpt, heads, hcyl) in
      if heads * 1024 <=? hcyl then (63, 16, Z.quot sectors 63)
      else (secpt, heads, hcyl) in
  (to_uint16 (Z.quot hcyl heads), heads, secpt).

(** ** Bounce buffer *)

Definition memcpy (dst src n : Z) (m : Z -> Z) : Z -> Z :=
  fun a => if (dst <=? a) && (a <? dst + n) then m (src + (a - dst)) else m a.

Definition posix_memalign (env : host_env) (alignment size : Z) (h : host) : Z * Z * host :=
  let '(rc, ptr) := env_memalign env (h_trace h) alignment size in
  (rc, ptr, emit (EvMemalign alignment size rc ptr) h).

(** [preadv] with a single segment: on success the bytes read replace the
    start of the segment's buffer. *)
Definition preadv1 (env : host_env) (b_iov : iovec) (offset : Z) (h : host) : Z * Z * host :=
  let '(ret, errno) := env_preadv env (h_trace h) b_iov offset in
  let h1 := emit (EvPreadv (iov_base b_iov) (iov_len b_iov) offset ret) h in
  if ret <? 0 then (ret, errno, h1)
  else
    (ret, errno,
     set_mem (fun a =>
                if (iov_base b_iov <=? a) && (a <? iov_base b_iov + Z.min ret (iov_len b_iov))
                then h_disk h (offset + (a - iov_base b_iov))
                else h_mem h a) h1).

Definition set_bounce_iov (v : iovec) (info : br_align_info) : br_align_info :=
  {| info_alignment := info_alignment info;
     info_is_iov_base_aligned := info_is_iov_base_aligned info;
     info_is_iov_len_aligned := info_is_iov_len_aligned info;
     info_is_offset_aligned := info_is_offset_aligned info;
     info_need_conversion := info_need_conversion info;
     info_head := info_head info; info_tail := info_tail info;
     info_org_size := info_org_size info;
     info_bounced_size := info_bounced_size info;
     info_aligned_dn_start := info_aligned_dn_start info;
     info_aligned_dn_end := info_aligned_dn_end info;
     info_bounce_iov := v |}.

Definition blockif_init_bounce_iov (env : host_env) (br : blockif_req) (h : host)
    : Z * blockif_req * host :=
  let info := br_align br in
  let '(ret, bounce_buf, h1) :=
    posix_memalign env (info_alignment info) (info_bounced_size info) h in
  if negb (ret =? 0) then (ret, br, h1)
  else (ret, set_align (set_bounce_iov (mk_iovec bounce_buf (info_bounced_size info)) info) br, h1).

(** Returns [ret], the segment left in [*b_iov] and the host. *)
Definition blockif_read_head_or_tail_area (env : host_env) (b_iov : iovec)
    (offset alignment : Z) (h : host) : Z * iovec * host :=
  let '(ret, area, h1) := posix_memalign env alignment alignment h in
  if negb (ret =? 0) then (ret, b_iov, h1)
  else
    let b := mk_iovec area alignment in
    let '(bytes_read, errno, h2) := preadv1 env b offset h1 in
    (if to_int bytes_read <? 0 then errno else ret, b, h2).

Definition free_iov (v : iovec) (h : host) : host :=
  if negb (iov_base v =? 0) then emit (EvFree (iov_base v)) h else h.

(** The host once [blockif_read_head_or_tail_area] has allocated the area
    [p] of [a] bytes and read [n] bytes into it from the file offset
    [off]. *)
Definition area_read (a off p n : Z) (h : host) : host :=
  {| h_mem := fun x =>
       if (p <=? x) && (x <? p + Z.min n a) then h_disk h (off + (x - p)) else h_mem h x;
     h_disk := h_disk h;
     h_trace := h_trace h ++ [EvMemalign a a 0 p; EvPreadv p a off n] |}.

(** The code after the label [end] of [blockif_init_bounced_write]. *)
Definition bounced_write_end (head_iov tail_iov : iovec) (ret : Z) (h : host) : Z * host :=
  (ret, free_iov tail_iov (free_iov head_iov h)).

(** Copy of the caller's segments, [done] being an [int]. *)
Definition bounced_write_body (bounce_base : Z) (st : Z * (Z -> Z)) (v : iovec)
    : Z * (Z -> Z) :=
  let '(done, m) := st in
  (to_int (done + iov_len v), memcpy (bounce_base + done) (iov_base v) (iov_len v) m).

Definition blockif_init_bounced_write (env : host_env) (bc : blockif_ctxt)
    (br : blockif_req) (h : host) : Z * host :=
  let info := br_align br in
  let alignment := info_alignment info in
  let head := info_head info in
  let tail := info_tail info in
  let bounce_base := iov_base (info_bounce_iov info) in
  let iov_null := mk_iovec 0 0 in
  if bounce_base =? 0 then (-1, h)
  else
    let '(ret1, head_iov, h1) :=
      if negb (head =? 0)
      then blockif_read_head_or_tail_area env iov_null (info_aligned_dn_start info) alignment h
      else (0, iov_null, h) in
    if negb (head =? 0) && (ret1 <? 0) then bounced_write_end head_iov iov_null ret1 h1
    else
      let '(ret2, tail_iov, h2) :=
        if negb (tail =? 0)
        then blockif_read_head_or_tail_area env iov_null (info_aligned_dn_end info) alignment h1
        else (ret1, iov_null, h1) in
      if negb (tail =? 0) && (ret2 <? 0) then bounced_write_end head_iov tail_iov ret2 h2
      else
        let st0 :=
          if negb (iov_base head_iov =? 0)
          then (to_int (0 + head), memcpy bounce_base (iov_base head_iov) head (h_mem h2))
          else (0, h_mem h2) in
        let '(done, m) := fold_left (bounced_write_body bounce_base) (br_iov br) st0 in
        let m' :=
          if negb (iov_base tail_iov =? 0)
          then memcpy (bounce_base + done) (iov_base tail_iov + alignment - tail) tail m
          else m in
        bounced_write_end head_iov tail_iov ret2 (set_mem m' h2).

(** ** Submission and cancellation *)

(** What a call does: it returns, or it leaves the behaviour the C standard
    defines (a queue pointer outside [bqs]), or the model's loop bound was
    reached first. *)
Inductive outcome (A : Type) :=
| Returns (a : A)
| Undefined
| OutOfFuel.

Arguments Returns {A} a.
Arguments Undefined {A}.
Arguments OutOfFuel {A}.

(** [bc->bqs + qidx]. *)
Definition queue_at (bc : blockif_ctxt) (qidx : Z) : option blockif_queue :=
  if qidx <? 0 then None else bc_bqs bc !! Z.to_nat qidx.

Definition set_queue (bc : blockif_ctxt) (qidx : Z) (bq : blockif_queue) : blockif_ctxt :=
  {| bc_isblk := bc_isblk bc; bc_candiscard := bc_candiscard bc; bc_rdonly := bc_rdonly bc;
     bc_size := bc_size bc; bc_sub_file_start_lba := bc_sub_file_start_lba bc;
     bc_sectsz := bc_sectsz bc; bc_max_discard_sectors := bc_max_discard_sectors bc;
     bc_max_discard_seg := bc_max_discard_seg bc;
     bc_discard_sector_alignment := bc_discard_sector_alignment bc;
     bc_bqs := <[Z.to_nat qidx := bq]> (bc_bqs bc);
     bc_bq_num := bc_bq_num bc; bc_aio_mode := bc_aio_mode bc; bc_ops := bc_ops bc;
     bc_wce := bc_wce bc; bc_bypass_host_cache := bc_bypass_host_cache bc;
     bc_bst_block := bc_bst_block bc |}.

(** [thread_pool_request]: wake one worker. *)
Definition thread_pool_request (bq : blockif_queue) (h : host) : blockif_queue * host :=
  (bq, emit EvCondSignal h).

Definition blockif_ops_thread_pool : blockif_ops :=
  {| ops_aio_mode := AIO_MODE_THREAD_POOL; ops_request := thread_pool_request |}.

Definition is_rw (op : blockop) : bool :=
  bool_decide (op = BOP_READ) || bool_decide (op = BOP_WRITE).

(** The part of [blockif_request] under the queue mutex. *)
Definition blockif_request_locked (bc : blockif_ctxt) (bq : blockif_queue)
    (breq : blockif_req) (op : blockop) (err : Z) (h : host) : Z * blockif_ctxt * host :=
  match bq_freeq bq with
  | _ :: _ =>
      let '(bq1, pendable) := blockif_enqueue bc bq breq op in
      let '(bq2, h1) :=
        if negb (pendable =? 0) then ops_request (bc_ops bc) bq1 h else (bq1, h) in
      (err, set_queue bc (br_qidx breq) bq2, h1)
  | [] => (E2BIG, bc, h)
  end.

(** Returns the error code, the descriptor, the request as the call leaves
    it (its [align_info] is written) and the host. *)
Definition blockif_request (env : host_env) (bc : blockif_ctxt) (breq : blockif_req)
    (op : blockop) (h : host) : outcome (Z * blockif_ctxt * blockif_req * host) :=
  if bc_bq_num bc <=? br_qidx breq then Returns (ENOENT, bc, breq, h)
  else
    match queue_at bc (br_qidx breq) with
    | None => Undefined
    | Some bq =>
        let breq1 := blockif_init_alignment_info bc breq in
        let locked br err h :=
          let '(err', bc', h') := blockif_request_locked bc bq br op err h in
          Returns (err', bc', br, h') in
        if is_rw op && info_need_conversion (br_align breq1) then
          let '(err, breq2, h1) := blockif_init_bounce_iov env breq1 h in
          if err <? 0 then Returns (err, bc, breq2, h1)
          else if bool_decide (op = BOP_WRITE) then
            let '(err', h2) := blockif_init_bounced_write env bc breq2 h1 in
            if err' <? 0 then Returns (err', bc, breq2, h2)
            else locked breq2 err' h2
          else locked breq2 err h1
        else locked breq1 0 h
    end.

(** [be->req == breq] *)
Definition holds_req (bq : blockif_queue) (breq : blockif_req) (i : nat) : bool :=
  match be_req (elem_at bq i) with
  | Some r => br_addr r =? br_addr breq
  | None => false
  end.

(** The loop [while (be->status == BST_BUSY)] of [blockif_cancel]: send
    SIGCONT to the worker and sleep until the handler has run.  The caller
    holds the queue mutex, so all the worker can do to the queue meanwhile
    is to mark the slot DONE. *)
Fixpoint cancel_wait (env : host_env) (fuel : nat) (bq : blockif_queue) (be : nat) (h : host)
    : option (blockif_queue * host) :=
  if bool_decide (be_status (elem_at bq be) = BST_BUSY) then
    match fuel with
    | O => None
    | S fuel' =>
        let h1 := emit (EvKill (be_tid (elem_at bq be))) h in
        let bq1 := if env_worker_done env (h_trace h1) then blockif_proc_done bq be else bq in
        cancel_wait env fuel' bq1 be h1
    end
  else Some (bq, h).

Definition blockif_cancel (env : host_env) (fuel : nat) (bc : blockif_ctxt)
    (breq : blockif_req) (h : host) : outcome (Z * blockif_ctxt * host) :=
  if bc_bq_num bc <=? br_qidx breq then Returns (ENOENT, bc, h)
  else
    match queue_at bc (br_qidx breq) with
    | None => Undefined
    | Some bq =>
        match find (holds_req bq breq) (bq_pendq bq) with
        | Some be =>
            Returns (0, set_queue bc (br_qidx breq) (blockif_complete bc bq be), h)
        | None =>
            match find (holds_req bq breq) (bq_busyq bq) with
            | None => Returns (-1, bc, h)
            | Some be =>
                match cancel_wait env fuel bq be h with
                | None => OutOfFuel
                | Some (bq1, h1) => Returns (- EBUSY, set_queue bc (br_qidx breq) bq1, h1)
                end
            end
        end
    end.

(** ** Queue invariant and reachable queue states *)

Inductive queue_id := FREEQ | PENDQ | BUSYQ.

Definition status_class (s : blockstat) : queue_id :=
  match s with
  | BST_FREE => FREEQ
  | BST_BLOCK | BST_PEND => PENDQ
  | BST_BUSY | BST_DONE => BUSYQ
  end.

Definition queue_list (bq : blockif_queue) (q : queue_id) : list nat :=
  match q with
  | FREEQ => bq_freeq bq
  | PENDQ => bq_pendq bq
  | BUSYQ => bq_busyq bq
  end.

Record queue_inv (bq : blockif_queue) : Prop := mk_queue_inv {
  inv_len : length (bq_reqs bq) = BLOCKIF_MAXREQ;
  inv_perm : bq_freeq bq ++ bq_pendq bq ++ bq_busyq bq ≡ₚ seq 0 BLOCKIF_MAXREQ;
  inv_free : ∀ i, i ∈ bq_freeq bq → be_status (elem_at bq i) = BST_FREE;
  inv_pend : ∀ i, i ∈ bq_pendq bq →
    (be_status (elem_at bq i) = BST_PEND ∨ be_status (elem_at bq i) = BST_BLOCK)
    ∧ be_req (elem_at bq i) ≠ None;
  inv_busy : ∀ i, i ∈ bq_busyq bq →
    be_status (elem_at bq i) = BST_BUSY ∨ be_status (elem_at bq i) = BST_DONE
}.

Inductive reachable (bc : blockif_ctxt) : blockif_queue → Prop :=
| reach_open : reachable bc queue_open
| reach_enqueue bq breq op :
    reachable bc bq → reachable bc (blockif_enqueue bc bq breq op).1
| reach_dequeue bq t :
    reachable bc bq → reachable bc (blockif_dequeue bq t).1.1
| reach_proc bq be :
    reachable bc bq → be ∈ bq_busyq bq → reachable bc (blockif_proc_done bq be)
| reach_complete bq be :
    reachable bc bq → be ∈ bq_pendq bq ∨ be ∈ bq_busyq bq →
    reachable bc (blockif_complete bc bq be).

(** Total length of the caller's segments. *)
Definition sum_iov_len (iov : list iovec) : Z :=
  fold_right (fun v s => iov_len v + s) 0 iov.

(** Values of the C types of [struct iovec]: a pointer and a [size_t]. *)
Definition iovec_wf (v : iovec) : Prop :=
  0 <= iov_base v < 2 ^ 64 ∧ 0 <= iov_len v < 2 ^ 64.


(** The C/H/S computation in the words of the specification, over
    unbounded integers with flooring division: (cylinders, heads, sectors
    per track) for a device of [sectors0] sectors. *)
Definition vhd_chs (sectors0 : Z) : Z * Z * Z :=
  let sectors := Z.min sectors0 (65535 * 16 * 255) in
  if 65536 * 16 * 63 <=? sectors then (sectors / 255 / 16, 16, 255)
  else
    let heads := Z.max 4 ((sectors / 17 + 1023) / 1024) in
    if (sectors / 17 <? 1024 * heads) && (heads <=? 16)
    then (sectors / 17 / heads, heads, 17)
    else if sectors / 31 <? 1024 * 16 then (sectors / 31 / 16, 16, 31)
    else (sectors / 63 / 16, 16, 63).

(** ** Discard: what is asked of a request *)

(** [n_range]: the number of records the first loop of
    [blockif_process_discard] goes through. *)
Definition discard_n_range (br : blockif_req) : nat :=
  Z.to_nat (to_int (Z.quot (iov_len (nth 0 (br_iov br) (mk_iovec 0 0))) sizeof_discard_range)).

(** The rows of [arg] the first loop computes for the records of a
    multi-range request, with the code's 32- and 64-bit arithmetic. *)
Definition discard_args (bc : blockif_ctxt) (range : nat → discard_range)
    (br : blockif_req) : list (Z * Z) :=
  map (fun i => discard_arg bc (range i)) (seq 0 (discard_n_range br)).

(** The ranges a discard request asks for, one (start, size) pair each,
    in the words of the specification and over unbounded integers: a record
    [{sector, num_sectors}] of the single segment asks for [num_sectors *
    512] bytes from byte [sector * 512 + sub-range base]; a request with
    another segment count asks for [resid] bytes from [offset + sub-range
    base]. *)
Definition discard_requested (bc : blockif_ctxt) (range : nat → discard_range)
    (br : blockif_req) : list (Z * Z) :=
  if br_iovcnt br =? 1
  then map (fun i => (dr_sector (range i) * 512 + bc_sub_file_start_lba bc,
                      dr_num_sectors (range i) * 512))
         (seq 0 (Z.to_nat (iov_len (nth 0 (br_iov br) (mk_iovec 0 0)) / 16)))
  else [(br_offset br + bc_sub_file_start_lba bc, br_resid br)].

(** Validity of a requested range, in the words of the specification:
    the size is not zero, the end lies within size + sub-range base, the
    size in whole sectors is at most [max_discard_sectors], and the start
    sector is a multiple of [discard_sector_alignment] when that is set. *)
Definition discard_range_valid (bc : blockif_ctxt) (a : Z * Z) : Prop :=
  a.2 ≠ 0
  ∧ a.1 + a.2 <= bc_size bc + bc_sub_file_start_lba bc
  ∧ a.2 / 512 <= bc_max_discard_sectors bc
  ∧ (bc_discard_sector_alignment bc = 0
     ∨ Z.rem (a.1 / 512) (bc_discard_sector_alignment bc) = 0).

(** The requested values are within what the code's types hold: the record
    count fits an [int], every start and end fits an [off_t], every size of
    a record fits 32 bits, and so does the end of the device. *)
Definition discard_fits (bc : blockif_ctxt) (range : nat → discard_range)
    (br : blockif_req) : Prop :=
  - 2 ^ 63 <= bc_size bc + bc_sub_file_start_lba bc <= OFF_MAX
  ∧ 0 <= iov_len (nth 0 (br_iov br) (mk_iovec 0 0)) / 16 <= INT_MAX
  ∧ ∀ a, a ∈ discard_requested bc range br →
         0 <= a.1 ∧ 0 <= a.2 <= UINT32_MAX ∧ a.1 + a.2 <= OFF_MAX.

(** The first loop stays within the [MAX_DISCARD_SEGMENT] rows of [arg]:
    it is not run, the limit on the segments stops it in time, or there are
    no more records than rows. *)
Definition discard_in_bounds (bc : blockif_ctxt) (br : blockif_req) : Prop :=
  br_iovcnt br ≠ 1
  ∨ bc_max_discard_seg bc < MAX_DISCARD_SEGMENT
  ∨ Z.of_nat (discard_n_range br) <= MAX_DISCARD_SEGMENT.

(** What keeps the first loop inside [arg] from round [i] on, with [n]
    records to go: [segment] counts the rounds, and either the limit on the
    segments or the number of records is within the rows. *)
Definition collect_in_bounds (bc : blockif_ctxt) (n i : nat) (segment : Z) : Prop :=
  segment = Z.of_nat i
  ∧ (n = 0%nat
     ∨ (Z.of_nat i < MAX_DISCARD_SEGMENT
        ∧ (bc_max_discard_seg bc < MAX_DISCARD_SEGMENT
           ∨ Z.of_nat (i + n) <= MAX_DISCARD_SEGMENT))).


(** ** Concrete descriptors, hosts and requests *)

(** A host on which every call succeeds: allocations return fresh
    addresses, reads are complete. *)
Definition env_ok : host_env :=
  {| env_memalign := fun tr _ _ => (0, 65536 * (1 + Z.of_nat (length tr)));
     env_preadv := fun _ v _ => (iov_len v, 0);
     env_blkdiscard := fun _ _ _ => 0;
     env_fallocate := fun _ _ _ => 0;
     env_fdatasync := fun _ => 0;
     env_worker_done := fun _ => true |}.

Definition host_zero : host :=
  {| h_mem := fun _ => 0; h_disk := fun _ => 0; h_trace := [] |}.

Definition info_zero : br_align_info :=
  mk_align_info 0 false false false false 0 0 0 0 0 0 (mk_iovec 0 0).

(** A 1 MiB regular file opened with [nocache,discard=1024:4:8] on the
    thread pool, one queue. *)
Definition bc_demo : blockif_ctxt :=
  {| bc_isblk := 0; bc_candiscard := 1; bc_rdonly := 0; bc_size := 1048576;
     bc_sub_file_start_lba := 0; bc_sectsz := 512; bc_max_discard_sectors := 1024;
     bc_max_discard_seg := 4; bc_discard_sector_alignment := 8;
     bc_bqs := [queue_open]; bc_bq_num := 1; bc_aio_mode := AIO_MODE_THREAD_POOL;
     bc_ops := blockif_ops_thread_pool; bc_wce := 0; bc_bypass_host_cache := 1;
     bc_bst_block := 1 |}.

(** An AHCI-style discard (no segment) of zero bytes at offset 4096. *)
Definition req_discard_empty : blockif_req :=
  {| br_addr := 4096000; br_iov := []; br_offset := 4096; br_resid := 0; br_qidx := 0;
     br_align := info_zero |}.

Definition range_zero : nat → discard_range := fun _ => mk_range 0 0 0.

(** A virtio-blk style discard: one segment holding one 16-byte record. *)
Definition req_discard_multi : blockif_req :=
  {| br_addr := 4097000; br_iov := [mk_iovec 8192 16]; br_offset := 0; br_resid := 16;
     br_qidx := 0; br_align := info_zero |}.


(** A flush request. *)
Definition req_flush : blockif_req :=
  {| br_addr := 4098000; br_iov := []; br_offset := 0; br_resid := 0; br_qidx := 0;
     br_align := info_zero |}.

(** A read or write of 200 bytes at offset 100 from an aligned buffer. *)
Definition req_misaligned : blockif_req :=
  {| br_addr := 4099000; br_iov := [mk_iovec 8192 200]; br_offset := 100; br_resid := 200;
     br_qidx := 0; br_align := info_zero |}.

(** A host that is out of memory. *)
Definition env_nomem : host_env :=
  {| env_memalign := fun _ _ _ => (ENOMEM, 0);
     env_preadv := env_preadv env_ok;
     env_blkdiscard := env_blkdiscard env_ok;
     env_fallocate := env_fallocate env_ok;
     env_fdatasync := env_fdatasync env_ok;
     env_worker_done := env_worker_done env_ok |}.

Definition is_preadv (ev : event) : bool :=
  match ev with EvPreadv _ _ _ _ => true | _ => false end.

(** A host whose first read fails with EIO; later reads are complete. *)
Definition env_first_read_eio : host_env :=
  {| env_memalign := env_memalign env_ok;
     env_preadv := fun tr v _ => if existsb is_preadv tr then (iov_len v, 0) else (-1, EIO);
     env_blkdiscard := env_blkdiscard env_ok;
     env_fallocate := env_fallocate env_ok;
     env_fdatasync := env_fdatasync env_ok;
     env_worker_done := env_worker_done env_ok |}.

(** The misaligned request once [blockif_request] has computed its
    alignment information and allocated its bounce buffer. *)
Definition req_misaligned_bounced (env : host_env) : blockif_req * host :=
  let '(_, br, h) :=
    blockif_init_bounce_iov env (blockif_init_alignment_info bc_demo req_misaligned) host_zero in
  (br, h).


(** The queue of [bc_demo] with the flush request pending, and with it
    handed to the worker thread 77. *)
Definition bq_pending : blockif_queue :=
  (blockif_enqueue bc_demo queue_open req_flush BOP_FLUSH).1.

Definition bq_busy : blockif_queue := (blockif_dequeue bq_pending 77).1.1.


(** A write of the first 4096 bytes and a write of the 4096 bytes after
    them; the queue of [bc_demo] with both submitted. *)
Definition req_write_first : blockif_req :=
  {| br_addr := 4102000; br_iov := [mk_iovec 8192 4096]; br_offset := 0; br_resid := 4096;
     br_qidx := 0; br_align := info_zero |}.

Definition req_write_next : blockif_req :=
  {| br_addr := 4103000; br_iov := [mk_iovec 16384 4096]; br_offset := 4096;
     br_resid := 4096; br_qidx := 0; br_align := info_zero |}.

Definition bq_blocked : blockif_queue :=
  (blockif_enqueue bc_demo
     (blockif_enqueue bc_demo queue_open req_write_first BOP_WRITE).1
     req_write_next BOP_WRITE).1.


(** ** Further notions for the request queue *)

(** Would the walk of [blockif_complete] promote this slot for [key]? *)
Definition unblocked_by (key : Z) (e : blockif_elem) : bool :=
  match be_req e with
  | Some r => br_offset r =? key
  | None => false
  end.

(** Submissions in a row, no completion in between: the queue after them
    and the values [blockif_enqueue] returned. *)
Fixpoint enqueue_all (bc : blockif_ctxt) (bq : blockif_queue)
    (l : list (blockif_req * blockop)) : blockif_queue * list Z :=
  match l with
  | [] => (bq, [])
  | (breq, op) :: l' =>
      let '(bq1, r) := blockif_enqueue bc bq breq op in
      let '(bq2, rs) := enqueue_all bc bq1 l' in
      (bq2, r :: rs)
  end.

(** [blockif_queuesz] *)
Definition blockif_queuesz (bc : blockif_ctxt) : Z := Z.of_nat BLOCKIF_MAXREQ - 1.

(** The slots ahead of slot [i] on a list. *)
Fixpoint before (i : nat) (l : list nat) : list nat :=
  match l with
  | [] => []
  | x :: l' => if Nat.eqb x i then [] else x :: before i l'
  end.

(** Every BLOCK slot on pendq has a slot queued before it (ahead of it on
    pendq, or on busyq) whose key is the offset of its request. *)
Definition blockers_ahead (bq : blockif_queue) : Prop :=
  ∀ i, i ∈ bq_pendq bq →
       be_status (elem_at bq i) = BST_BLOCK →
       ∃ j, j ∈ before i (bq_pendq bq) ++ bq_busyq bq
            ∧ unblocked_by (be_block (elem_at bq j)) (elem_at bq i) = true.

(** ** The worker side: processing a request

    The worker makes host calls the submission side does not make (vector
    reads and writes, [fsync]).  Its trace records them next to the events
    of the submission side, and [io_env] gives the host's answers to them. *)

Inductive io_event :=
| IoHost (ev : event)
| IoPreadv (iov : list iovec) (off ret : Z)
| IoPwritev (iov : list iovec) (off ret : Z)
| IoFsync (ret : Z).

Record wstate := mk_wstate {
  w_mem : Z → Z;
  w_disk : Z → Z;
  w_trace : list io_event
}.

Record io_env := mk_io_env {
  (** [preadv] and [pwritev], given the segments and the file offset:
      return value (byte count or -1) and [errno]. *)
  io_preadv : list io_event → list iovec → Z → Z * Z;
  io_pwritev : list io_event → list iovec → Z → Z * Z;
  (** [fsync]: return value (0 or -1) and [errno]. *)
  io_fsync : list io_event → Z * Z
}.

Definition w_emit (ev : io_event) (w : wstate) : wstate :=
  {| w_mem := w_mem w; w_disk := w_disk w; w_trace := w_trace w ++ [ev] |}.

Definition w_set_mem (m : Z → Z) (w : wstate) : wstate :=
  {| w_mem := m; w_disk := w_disk w; w_trace := w_trace w |}.

Definition w_set_disk (d : Z → Z) (w : wstate) : wstate :=
  {| w_mem := w_mem w; w_disk := d; w_trace := w_trace w |}.

(** The events of the submission side in a worker trace, the host as the
    submission-side functions see it, and the worker state after one of
    them has run on that view. *)
Definition host_events (tr : list io_event) : list event :=
  omap (fun ev => match ev with IoHost e => Some e | _ => None end) tr.

Definition host_view (w : wstate) : host :=
  {| h_mem := w_mem w; h_disk := w_disk w; h_trace := host_events (w_trace w) |}.

Definition host_absorb (w : wstate) (h : host) : wstate :=
  {| w_mem := h_mem h; w_disk := h_disk h;
     w_trace := w_trace w
                ++ map IoHost (drop (length (host_events (w_trace w))) (h_trace h)) |}.

Definition to_ssize_t : Z → Z := wrap_signed 64.

(** [n] bytes taken from [src] (indexed from 0) stored at [dst]. *)
Definition mem_write (dst n : Z) (src : Z → Z) (m : Z → Z) : Z → Z :=
  fun a => if (dst <=? a) && (a <? dst + n) then src (a - dst) else m a.

(** Byte [k] of the segments read one after the other. *)
Fixpoint gather_at (m : Z → Z) (iov : list iovec) (k : Z) : Z :=
  match iov with
  | [] => 0
  | v :: iov' =>
      if k <? iov_len v then m (iov_base v + k) else gather_at m iov' (k - iov_len v)
  end.

(** The first [n] bytes of [src] stored into the segments one after the
    other. *)
Fixpoint scatter (src : Z → Z) (iov : list iovec) (n : Z) (m : Z → Z) : Z → Z :=
  match iov with
  | [] => m
  | v :: iov' =>
      let k := Z.max 0 (Z.min n (iov_len v)) in
      scatter (fun j => src (j + k)) iov' (n - k) (mem_write (iov_base v) k src m)
  end.

(** [preadv(fd, iov, iovcnt, offset)] *)
Definition preadv (io : io_env) (iov : list iovec) (offset : Z) (w : wstate)
    : Z * Z * wstate :=
  let '(ret, errno) := io_preadv io (w_trace w) iov offset in
  let w1 := w_emit (IoPreadv iov offset ret) w in
  if ret <? 0 then (ret, errno, w1)
  else (ret, errno, w_set_mem (scatter (fun k => w_disk w (offset + k)) iov ret (w_mem w)) w1).

(** [pwritev(fd, iov, iovcnt, offset)] *)
Definition pwritev (io : io_env) (iov : list iovec) (offset : Z) (w : wstate)
    : Z * Z * wstate :=
  let '(ret, errno) := io_pwritev io (w_trace w) iov offset in
  let w1 := w_emit (IoPwritev iov offset ret) w in
  if ret <? 0 then (ret, errno, w1)
  else
    (ret, errno,
     w_set_disk (mem_write offset (Z.min ret (sum_iov_len iov))
                   (gather_at (w_mem w) iov) (w_disk w)) w1).

(** [fsync(fd)] *)
Definition fsync (io : io_env) (w : wstate) : Z * Z * wstate :=
  let '(ret, errno) := io_fsync io (w_trace w) in
  (ret, errno, w_emit (IoFsync ret) w).

Definition blockif_flush_cache (io : io_env) (bc : blockif_ctxt) (w : wstate) : Z * wstate :=
  if bc_wce bc =? 0 then
    let '(ret, errno, w1) := fsync io w in
    (if negb (ret =? 0) then errno else 0, w1)
  else (0, w).

Definition blockif_flush_all (io : io_env) (bc : blockif_ctxt) (w : wstate) : Z * wstate :=
  let '(ret, errno, w1) := fsync io w in
  (if negb (ret =? 0) then errno else 0, w1).

Definition blockif_deinit_bounce_iov (br : blockif_req) (w : wstate) : blockif_req * wstate :=
  let info := br_align br in
  if iov_base (info_bounce_iov info) =? 0 then (br, w)
  else
    (set_align (set_bounce_iov (mk_iovec 0 (iov_len (info_bounce_iov info))) info) br,
     w_emit (IoHost (EvFree (iov_base (info_bounce_iov info)))) w).

(** The loop of [blockif_complete_bounced_read]; [done], [length] and [len]
    are [int]s, the comparison with [iov_len] and the count of [memcpy] are
    [size_t]s. *)
Fixpoint bounced_read_loop (bounce_base : Z) (iov : list iovec) (done length : Z)
    (m : Z → Z) : Z → Z :=
  match iov with
  | [] => m
  | v :: iov' =>
      let len :=
        to_int (if iov_len v <? to_uint64 length then iov_len v else to_uint64 length) in
      let m1 := memcpy (iov_base v) (bounce_base + done) (to_uint64 len) m in
      let done' := to_int (done + len) in
      let length' := to_int (length - len) in
      if length' <=? 0 then m1 else bounced_read_loop bounce_base iov' done' length' m1
  end.

Definition blockif_complete_bounced_read (br : blockif_req) (w : wstate) : wstate :=
  let info := br_align br in
  if iov_base (info_bounce_iov info) =? 0 then w
  else
    w_set_mem
      (bounced_read_loop (iov_base (info_bounce_iov info)) (br_iov br)
         (to_int (info_head info)) (to_int (info_org_size info)) (w_mem w)) w.

Definition set_elem (bq : blockif_queue) (be : nat) (e : blockif_elem) : blockif_queue :=
  set_reqs bq (<[be := e]> (bq_reqs bq)).

(** [blockif_proc].  The request is reached through [be->req]; the slot
    keeps the request as the call leaves it.  [None] stands for the
    dereference of a NULL [be->req], and for a discard that stores past the
    end of its array. *)
Definition blockif_proc (env : host_env) (io : io_env) (range : nat → discard_range)
    (bc : blockif_ctxt) (bq : blockif_queue) (be : nat) (w : wstate)
    : option (blockif_queue * wstate) :=
  match be_req (elem_at bq be) with
  | None => None
  | Some br =>
      let op := be_op (elem_at bq be) in
      let info := br_align br in
      let '(iovecs, offset) :=
        if info_need_conversion info
        then ([info_bounce_iov info], info_aligned_dn_start info)
        else (br_iov br, to_off_t (br_offset br + bc_sub_file_start_lba bc)) in
      let done :=
        match op with
        | BOP_READ =>
            let '(len, errno, w1) := preadv io iovecs offset w in
            let '(br1, w2) :=
              if info_need_conversion info
              then blockif_deinit_bounce_iov br (blockif_complete_bounced_read br w1)
              else (br, w1) in
            if len <? 0 then Some (errno, br1, w2)
            else Some (0, set_resid (to_ssize_t (br_resid br1 - len)) br1, w2)
        | BOP_WRITE =>
            if negb (bc_rdonly bc =? 0) then Some (EROFS, br, w)
            else
              let '(len, errno, w1) := pwritev io iovecs offset w in
              let '(br1, w2) :=
                if info_need_conversion info then blockif_deinit_bounce_iov br w1
                else (br, w1) in
              if len <? 0 then Some (errno, br1, w2)
              else
                let '(err, w3) := blockif_flush_cache io bc w2 in
                Some (err, set_resid (to_ssize_t (br_resid br1 - len)) br1, w3)
        | BOP_FLUSH =>
            let '(ret, errno, w1) := fsync io w in
            Some (if negb (ret =? 0) then errno else 0, br, w1)
        | BOP_DISCARD =>
            match blockif_process_discard env bc range br (host_view w) with
            | None => None
            | Some (err, br1, h1) => Some (err, br1, host_absorb w h1)
            end
        end in
      match done with
      | None => None
      | Some (err, br1, w1) =>
          let e := elem_at bq be in
          Some (set_elem bq be
                  {| be_req := Some br1; be_op := be_op e; be_status := BST_DONE;
                     be_tid := be_tid e; be_block := be_block e |},
                w_emit (IoHost (EvCallback (br_addr br1) err)) w1)
      end
  end.

(** The inner loop of [blockif_thr], run by one worker with no other
    thread at work: take slots off pendq, process and complete them, until
    [blockif_dequeue] finds none.  [None]: [blockif_proc] has no result;
    [Some None]: the bound [fuel] on the iterations was reached. *)
Fixpoint blockif_thr_drain (env : host_env) (io : io_env) (range : nat → discard_range)
    (bc : blockif_ctxt) (fuel : nat) (t : Z) (bq : blockif_queue) (w : wstate)
    : option (option (blockif_queue * wstate)) :=
  match blockif_dequeue bq t with
  | (bq0, _, None) => Some (Some (bq0, w))
  | (bq1, _, Some be) =>
      match fuel with
      | O => Some None
      | S fuel' =>
          match blockif_proc env io range bc bq1 be w with
          | None => None
          | Some (bq2, w2) =>
              blockif_thr_drain env io range bc fuel' t (blockif_complete bc bq2 be) w2
          end
      end
  end.

(** ** Buffers that do not overlap *)

(** The segment lies outside the address range from [lo] up to [hi]. *)
Definition seg_outside (lo hi : Z) (v : iovec) : Prop :=
  iov_base v + iov_len v <= lo ∨ hi <= iov_base v.

(** No two segments overlap. *)
Fixpoint iov_disjoint (iov : list iovec) : Prop :=
  match iov with
  | [] => True
  | v :: iov' =>
      Forall (seg_outside (iov_base v) (iov_base v + iov_len v)) iov' ∧ iov_disjoint iov'
  end.

(** The address lies in none of the segments. *)
Definition outside_iov (iov : list iovec) (a : Z) : Prop :=
  Forall (fun v => ¬ (iov_base v <= a < iov_base v + iov_len v)) iov.

(** The callbacks in a worker trace, oldest first: request address and
    error code. *)
Definition callbacks (tr : list io_event) : list (Z * Z) :=
  omap (fun ev => match ev with
                  | IoHost (EvCallback addr err) => Some (addr, err)
                  | _ => None
                  end) tr.

(** The address of the request a slot holds (0 for none). *)
Definition slot_req_addr (bq : blockif_queue) (i : nat) : Z :=
  match be_req (elem_at bq i) with
  | Some r => br_addr r
  | None => 0
  end.

Definition is_discard_event (ev : event) : bool :=
  match ev with
  | EvBlkdiscard _ _ | EvPunchHole _ _ | EvFdatasync => true
  | _ => false
  end.

(** The second state continues the first one's trace, with no callback
    among the new events. *)
Definition quiet_step (w w' : wstate) : Prop :=
  ∃ evs, w_trace w' = w_trace w ++ evs ∧ callbacks evs = [].

(** ** The io_uring back end

    The ring is seen through what the file does with it: the entries it
    prepares and hands to [io_uring_submit], each with the slot set as its
    user data, and the completions [io_uring_peek_cqe] returns.  The kernel
    runs the prepared operations on its own; the file never looks at their
    results. *)

Definition is_io_uring_supported_op (op : blockop) : bool :=
  bool_decide (op = BOP_READ) || bool_decide (op = BOP_WRITE)
  || bool_decide (op = BOP_FLUSH).

Inductive sqe_prep :=
| PrepReadv (iov : list iovec) (off : Z)
| PrepWritev (iov : list iovec) (off : Z)
| PrepFsync
| PrepNone.

(** A submitted entry: the slot given to [io_uring_sqe_set_data] and the
    prepared operation. *)
Definition sqe : Type := nat * sqe_prep.

(** A completion: the slot [io_uring_cqe_get_data] returns (or NULL) and
    the field [res]. *)
Record io_uring_cqe := mk_cqe {
  cqe_user_data : option nat;
  cqe_res : Z
}.

Record iou_env := mk_iou_env {
  (** does [io_uring_get_sqe] find a free entry, given what was submitted *)
  iou_get_sqe : list sqe → bool;
  (** the return value of [io_uring_submit] *)
  iou_submit_ret : list sqe → Z
}.

Definition set_in_flight (n : Z) (bq : blockif_queue) : blockif_queue :=
  {| bq_closing := bq_closing bq; bq_freeq := bq_freeq bq; bq_pendq := bq_pendq bq;
     bq_busyq := bq_busyq bq; bq_reqs := bq_reqs bq; bq_in_flight := n |}.

(** [iou_submit_sqe]: the return value, the queue and the entries
    submitted so far.  [None] stands for the dereference of a NULL
    [be->req], which only READ and WRITE make. *)
Definition iou_submit_sqe (ring : iou_env) (bc : blockif_ctxt) (bq : blockif_queue)
    (be : nat) (sq : list sqe) : option (Z * blockif_queue * list sqe) :=
  if negb (iou_get_sqe ring sq) then Some (-1, bq, sq)
  else
    let e := elem_at bq be in
    let prep :=
      match be_op e with
      | BOP_READ | BOP_WRITE =>
          match be_req e with
          | None => None
          | Some br =>
              let info := br_align br in
              let '(iovecs, offset) :=
                if info_need_conversion info
                then ([info_bounce_iov info], info_aligned_dn_start info)
                else (br_iov br, to_off_t (br_offset br + bc_sub_file_start_lba bc)) in
              Some (match be_op e with
                    | BOP_READ => PrepReadv iovecs offset
                    | _ => PrepWritev iovecs offset
                    end)
          end
      | BOP_FLUSH => Some PrepFsync
      | BOP_DISCARD => Some PrepNone
      end in
    match prep with
    | None => None
    | Some p =>
        let sq1 := sq ++ [(be, p)] in
        Some (iou_submit_ret ring sq1, set_in_flight (to_int (bq_in_flight bq + 1)) bq, sq1)
    end.

(** [iou_submit].  [None]: a NULL request was dereferenced, or a discard
    stored past the end of its array; [Some None]: the bound [fuel] on the
    iterations was reached. *)
Fixpoint iou_submit (env : host_env) (ring : iou_env) (range : nat → discard_range)
    (bc : blockif_ctxt) (fuel : nat) (bq : blockif_queue) (sq : list sqe) (w : wstate)
    : option (option (blockif_queue * list sqe * wstate)) :=
  match blockif_dequeue bq 0 with
  | (bq0, _, None) => Some (Some (bq0, sq, w))
  | (bq1, _, Some be) =>
      match fuel with
      | O => Some None
      | S fuel' =>
          if is_io_uring_supported_op (be_op (elem_at bq1 be)) then
            match iou_submit_sqe ring bc bq1 be sq with
            | None => None
            | Some (err, bq2, sq2) =>
                if err =? -1 then Some (Some (bq2, sq2, w))
                else iou_submit env ring range bc fuel' bq2 sq2 w
            end
          else
            match be_req (elem_at bq1 be) with
            | None => None
            | Some br =>
                let done :=
                  match be_op (elem_at bq1 be) with
                  | BOP_DISCARD =>
                      match blockif_process_discard env bc range br (host_view w) with
                      | None => None
                      | Some (err, br1, h1) => Some (err, br1, host_absorb w h1)
                      end
                  | _ => Some (EINVAL, br, w)
                  end in
                match done with
                | None => None
                | Some (err, br1, w1) =>
                    let e := elem_at bq1 be in
                    let bq2 :=
                      set_elem bq1 be
                        {| be_req := Some br1; be_op := be_op e; be_status := BST_DONE;
                           be_tid := be_tid e; be_block := be_block e |} in
                    let w2 := w_emit (IoHost (EvCallback (br_addr br1) err)) w1 in
                    iou_submit env ring range bc fuel' (blockif_complete bc bq2 be) sq w2
                end
            end
      end
  end.

(** The loop of [iou_process_completions] over the completions that
    [io_uring_peek_cqe] returns during the call, oldest first; [err] is the
    local variable of that name, which no iteration resets.  Returns the
    completions left in the ring. *)
Fixpoint iou_completions_loop (io : io_env) (bc : blockif_ctxt) (bq : blockif_queue)
    (cq : list io_uring_cqe) (err : Z) (w : wstate)
    : blockif_queue * list io_uring_cqe * wstate :=
  match cq with
  | [] => (bq, [], w)
  | c :: cq' =>
      let bq1 := set_in_flight (to_int (bq_in_flight bq - 1)) bq in
      match cqe_user_data c with
      | None => (bq1, cq', w)
      | Some be =>
          match be_req (elem_at bq1 be) with
          | None => (bq1, cq', w)
          | Some br =>
              let e := elem_at bq1 be in
              let '(br1, w1) :=
                if info_need_conversion (br_align br) then
                  blockif_deinit_bounce_iov br
                    (if bool_decide (be_op e = BOP_READ)
                     then blockif_complete_bounced_read br w else w)
                else (br, w) in
              let '(err1, w2) :=
                if bool_decide (be_op e = BOP_WRITE) then blockif_flush_cache io bc w1
                else (err, w1) in
              let bq2 :=
                set_elem bq1 be
                  {| be_req := Some br1; be_op := be_op e; be_status := BST_DONE;
                     be_tid := be_tid e; be_block := be_block e |} in
              let w3 := w_emit (IoHost (EvCallback (br_addr br1) err1)) w2 in
              iou_completions_loop io bc (blockif_complete bc bq2 be) cq' err1 w3
          end
      end
  end.

Definition iou_process_completions (io : io_env) (bc : blockif_ctxt) (bq : blockif_queue)
    (cq : list io_uring_cqe) (w : wstate) : blockif_queue * list io_uring_cqe * wstate :=
  iou_completions_loop io bc bq cq 0 w.

(** [iou_reap_and_submit], the handler of the ring's event. *)
Definition iou_reap_and_submit (env : host_env) (io : io_env) (ring : iou_env)
    (range : nat → discard_range) (bc : blockif_ctxt) (fuel : nat) (bq : blockif_queue)
    (sq : list sqe) (cq : list io_uring_cqe) (w : wstate)
    : option (option (blockif_queue * list sqe * list io_uring_cqe * wstate)) :=
  let '(bq1, cq1, w1) := iou_process_completions io bc bq cq w in
  match bq_pendq bq1 with
  | [] => Some (Some (bq1, sq, cq1, w1))
  | _ :: _ =>
      match iou_submit env ring range bc fuel bq1 sq w1 with
      | None => None
      | Some None => Some None
      | Some (Some (bq2, sq2, w2)) => Some (Some (bq2, sq2, cq1, w2))
      end
  end.

(** [iou_submit_and_reap], the [request] operation of the back end. *)
Definition iou_submit_and_reap (env : host_env) (io : io_env) (ring : iou_env)
    (range : nat → discard_range) (bc : blockif_ctxt) (fuel : nat) (bq : blockif_queue)
    (sq : list sqe) (cq : list io_uring_cqe) (w : wstate)
    : option (option (blockif_queue * list sqe * list io_uring_cqe * wstate)) :=
  match iou_submit env ring range bc fuel bq sq w with
  | None => None
  | Some None => Some None
  | Some (Some (bq1, sq1, w1)) =>
      if 0 <? bq_in_flight bq1 then
        let '(bq2, cq2, w2) := iou_process_completions io bc bq1 cq w1 in
        Some (Some (bq2, sq1, cq2, w2))
      else Some (Some (bq1, sq1, cq, w1))
  end.

(** ** Further notions for the statements *)

(** The parts of a request that the setup of [blockif_request] leaves
    alone. *)
Definition same_request (br br' : blockif_req) : Prop :=
  br_addr br' = br_addr br ∧ br_qidx br' = br_qidx br
  ∧ br_iov br' = br_iov br ∧ br_offset br' = br_offset br.

(** On failure the host's calls leave a non-zero [errno]. *)
Definition io_sets_errno (io : io_env) : Prop :=
  (∀ tr iov off, (io_pwritev io tr iov off).1 < 0 → (io_pwritev io tr iov off).2 ≠ 0)
  ∧ (∀ tr, (io_fsync io tr).1 ≠ 0 → (io_fsync io tr).2 ≠ 0).

(** Every pending discard stays within the rows of its array. *)
Definition discards_in_bounds (bc : blockif_ctxt) (bq : blockif_queue) : Prop :=
  ∀ i br, i ∈ bq_pendq bq → be_req (elem_at bq i) = Some br →
          be_op (elem_at bq i) = BOP_DISCARD → discard_in_bounds bc br.

(** A queue one worker can drain: no slot is in flight, no pending slot
    waits for a slot that is gone, and the pending discards stay within
    their arrays. *)
Definition drain_ready (bc : blockif_ctxt) (bq : blockif_queue) : Prop :=
  queue_inv bq ∧ bq_busyq bq = [] ∧ blockers_ahead bq
  ∧ (bc_bst_block bc ≠ 1 →
     ∀ i, i ∈ bq_pendq bq → be_status (elem_at bq i) ≠ BST_BLOCK)
  ∧ discards_in_bounds bc bq.

(** ** Concrete workers, rings and queues *)

(** A host whose vector reads and writes are complete and whose [fsync]
    succeeds. *)
Definition io_ok : io_env :=
  {| io_preadv := fun _ iov _ => (Z.max 0 (sum_iov_len iov), 0);
     io_pwritev := fun _ iov _ => (Z.max 0 (sum_iov_len iov), 0);
     io_fsync := fun _ => (0, 0) |}.


Definition wstate_zero : wstate :=
  {| w_mem := fun _ => 0; w_disk := fun _ => 0; w_trace := [] |}.

(** A ring with no free submission entry. *)
Definition ring_full : iou_env :=
  {| iou_get_sqe := fun _ => false; iou_submit_ret := fun _ => 1 |}.

(** [bc_demo] without the interlock, opened read-only, and on a block
    device. *)
Definition bc_no_interlock : blockif_ctxt :=
  {| bc_isblk := 0; bc_candiscard := 1; bc_rdonly := 0; bc_size := 1048576;
     bc_sub_file_start_lba := 0; bc_sectsz := 512; bc_max_discard_sectors := 1024;
     bc_max_discard_seg := 4; bc_discard_sector_alignment := 8;
     bc_bqs := [queue_open]; bc_bq_num := 1; bc_aio_mode := AIO_MODE_THREAD_POOL;
     bc_ops := blockif_ops_thread_pool; bc_wce := 0; bc_bypass_host_cache := 1;
     bc_bst_block := 0 |}.

Definition bc_rdonly_demo : blockif_ctxt :=
  {| bc_isblk := 0; bc_candiscard := 1; bc_rdonly := 1; bc_size := 1048576;
     bc_sub_file_start_lba := 0; bc_sectsz := 512; bc_max_discard_sectors := 1024;
     bc_max_discard_seg := 4; bc_discard_sector_alignment := 8;
     bc_bqs := [queue_open]; bc_bq_num := 1; bc_aio_mode := AIO_MODE_THREAD_POOL;
     bc_ops := blockif_ops_thread_pool; bc_wce := 0; bc_bypass_host_cache := 1;
     bc_bst_block := 1 |}.

Definition bc_blk : blockif_ctxt :=
  {| bc_isblk := 1; bc_candiscard := 1; bc_rdonly := 0; bc_size := 1048576;
     bc_sub_file_start_lba := 0; bc_sectsz := 512; bc_max_discard_sectors := 1024;
     bc_max_discard_seg := 4; bc_discard_sector_alignment := 8;
     bc_bqs := [queue_open]; bc_bq_num := 1; bc_aio_mode := AIO_MODE_THREAD_POOL;
     bc_ops := blockif_ops_thread_pool; bc_wce := 0; bc_bypass_host_cache := 1;
     bc_bst_block := 1 |}.

(** A discard record that passes validation on these descriptors: 8
    sectors from sector 8. *)
Definition range_aligned : nat → discard_range := fun _ => mk_range 8 8 0.

(** The misaligned request with its bounce buffer, and the queue of
    [bc_demo] with that request in flight as a READ and as a WRITE. *)
Definition req_bounced : blockif_req := (req_misaligned_bounced env_ok).1.

Definition bq_read_busy : blockif_queue :=
  (blockif_dequeue (blockif_enqueue bc_demo queue_open req_bounced BOP_READ).1 77).1.1.

Definition bq_write_busy : blockif_queue :=
  (blockif_dequeue (blockif_enqueue bc_demo queue_open req_bounced BOP_WRITE).1 77).1.1.

(** Memory whose byte at address [a] is [a mod 256]. *)
Definition wstate_pattern : wstate :=
  {| w_mem := fun a => a mod 256; w_disk := fun a => (a + 1) mod 256; w_trace := [] |}.

(** The queue of [bc_demo] with two requests pending, and with every slot
    taken. *)
Definition bq_two_pending : blockif_queue :=
  (blockif_enqueue bc_demo bq_pending req_discard_empty BOP_READ).1.

Definition bq_full : blockif_queue :=
  (enqueue_all bc_demo queue_open (replicate BLOCKIF_MAXREQ (req_flush, BOP_FLUSH))).1.


(** * Properties *)

Ltac dlia := Z.to_euclidean_division_equations; lia.

(** ** Machine integers *)

Lemma wrap_unsigned_small w z : 0 <= z < 2 ^ w → wrap_unsigned w z = z.
Proof. intros H. unfold wrap_unsigned. by apply Z.mod_small. Qed.

Lemma wrap_signed_small w z :
  0 < w → - 2 ^ (w - 1) <= z < 2 ^ (w - 1) → wrap_signed w z = z.
Proof.
  intros Hw H. unfold wrap_signed.
  assert (2 ^ w = 2 * 2 ^ (w - 1)) as Hp.
  { rewrite <- Z.pow_succ_r by lia. f_equal. lia. }
  rewrite Z.mod_small; lia.
Qed.

Lemma to_int_small z : - 2 ^ 31 <= z <= INT_MAX → to_int z = z.
Proof. intros H. apply wrap_signed_small; unfold INT_MAX in *; simpl; lia. Qed.

Lemma to_off_t_small z : - 2 ^ 63 <= z <= OFF_MAX → to_off_t z = z.
Proof. intros H. apply wrap_signed_small; unfold OFF_MAX in *; simpl; lia. Qed.

Lemma to_uint32_small z : 0 <= z <= UINT32_MAX → to_uint32 z = z.
Proof. intros H. apply wrap_unsigned_small. unfold UINT32_MAX in *. lia. Qed.

Lemma to_uint64_small z : 0 <= z < 2 ^ 64 → to_uint64 z = z.
Proof. apply wrap_unsigned_small. Qed.

Lemma to_uint32_to_int z : to_uint32 (to_int z) = to_uint32 z.
Proof.
  unfold to_uint32, to_int, wrap_unsigned, wrap_signed.
  change (2 ^ (32 - 1)) with 2147483648. change (2 ^ 32) with 4294967296.
  rewrite Zminus_mod_idemp_l. f_equal. lia.
Qed.

Lemma to_uint32_add_l x y : to_uint32 (to_uint32 x + y) = to_uint32 (x + y).
Proof. unfold to_uint32, wrap_unsigned. apply Zplus_mod_idemp_l. Qed.

Lemma rem_zero_iff x a : 0 <= x → 0 < a → (Z.rem x a =? 0) = (x mod a =? 0).
Proof. intros Hx Ha. by rewrite Z.rem_mod_nonneg by lia. Qed.

(** ** The request queue *)

Lemma tailq_remove_perm be q : be ∈ q → q ≡ₚ be :: tailq_remove be q.
Proof.
  induction q as [|x q IH]; intros Hin; [by apply elem_of_nil in Hin|].
  simpl. destruct (Nat.eqb_spec x be) as [->|Hne]; [done|].
  apply elem_of_cons in Hin as [->|Hin]; [done|].
  rewrite (IH Hin) at 1. apply Permutation_swap.
Qed.

Lemma elem_at_insert_eq (reqs : list blockif_elem) i e :
  (i < length reqs)%nat → default elem_zero (<[i := e]> reqs !! i) = e.
Proof. intros Hi. by rewrite list_lookup_insert_eq. Qed.

Lemma elem_at_insert_ne (reqs : list blockif_elem) i j e :
  i ≠ j → default elem_zero (<[i := e]> reqs !! j) = default elem_zero (reqs !! j).
Proof. intros Hi. by rewrite list_lookup_insert_ne. Qed.

Lemma queue_inv_nodup bq :
  queue_inv bq → NoDup (bq_freeq bq ++ bq_pendq bq ++ bq_busyq bq).
Proof. intros [_ Hp _ _ _]. rewrite Hp. apply NoDup_seq. Qed.

Lemma queue_inv_lt bq i :
  queue_inv bq → i ∈ bq_freeq bq ++ bq_pendq bq ++ bq_busyq bq → (i < BLOCKIF_MAXREQ)%nat.
Proof. intros [_ Hp _ _ _]. rewrite Hp. rewrite elem_of_seq. lia. Qed.

Lemma queue_open_inv : queue_inv queue_open.
Proof.
  assert (Hf : bq_freeq queue_open = rev (seq 0 BLOCKIF_MAXREQ)) by reflexivity.
  assert (Hr : bq_reqs queue_open = replicate BLOCKIF_MAXREQ elem_zero) by reflexivity.
  assert (Hp : bq_pendq queue_open = []) by reflexivity.
  assert (Hb : bq_busyq queue_open = []) by reflexivity.
  assert (He : ∀ i, elem_at queue_open i = elem_zero).
  { intros i. unfold elem_at. rewrite Hr.
    destruct (replicate BLOCKIF_MAXREQ elem_zero !! i) as [e|] eqn:E; [|done].
    apply lookup_replicate in E as [-> _]. done. }
  split.
  - rewrite Hr. apply length_replicate.
  - rewrite Hf, Hp, Hb, !app_nil_r. symmetry. apply Permutation_rev.
  - intros i _. by rewrite He.
  - rewrite Hp. intros i Hi. apply elem_of_nil in Hi. destruct Hi.
  - rewrite Hb. intros i Hi. apply elem_of_nil in Hi. destruct Hi.
Qed.

Lemma enqueue_empty bc bq breq op :
  bq_freeq bq = [] → blockif_enqueue bc bq breq op = (bq, 0).
Proof. intros H. unfold blockif_enqueue. by rewrite H. Qed.

Lemma enqueue_shape bc bq breq op be rest :
  bq_freeq bq = be :: rest →
  be_status (elem_at bq be) = BST_FREE →
  ∃ e2,
    blockif_enqueue bc bq breq op =
      ({| bq_closing := bq_closing bq; bq_freeq := rest;
          bq_pendq := bq_pendq bq ++ [be]; bq_busyq := bq_busyq bq;
          bq_reqs := <[be := e2]> (bq_reqs bq); bq_in_flight := bq_in_flight bq |},
       c_bool (bool_decide (be_status e2 = BST_PEND)))
    ∧ be_req e2 = Some breq ∧ be_op e2 = op
    ∧ (be_status e2 = BST_PEND ∨ be_status e2 = BST_BLOCK).
Proof.
  intros Hf Hs. unfold blockif_enqueue. rewrite Hf, Hs.
  rewrite bool_decide_eq_true_2 by done.
  eexists. split; [reflexivity|].
  destruct (bc_bst_block bc =? 1); simpl; [|auto].
  destruct (find_block _ _ (bq_pendq bq)); simpl; [auto|].
  destruct (find_block _ _ (bq_busyq bq)); simpl; auto.
Qed.

Lemma enqueue_inv bc bq breq op :
  queue_inv bq → queue_inv (blockif_enqueue bc bq breq op).1.
Proof.
  intros Hinv. destruct (bq_freeq bq) as [|be rest] eqn:Hf.
  { by rewrite enqueue_empty. }
  pose proof (queue_inv_nodup _ Hinv) as Hnd.
  pose proof (queue_inv_lt bq be Hinv) as Hlt.
  destruct Hinv as [Hlen Hperm Hfree Hpend Hbusy].
  rewrite Hf in *.
  assert (Hs : be_status (elem_at bq be) = BST_FREE) by (apply Hfree; left).
  destruct (enqueue_shape bc bq breq op be rest Hf Hs) as (e2 & -> & Hreq & _ & Hst).
  simpl in Hnd. apply NoDup_cons in Hnd as [Hnin Hnd].
  assert (Hbe : (be < length (bq_reqs bq))%nat).
  { rewrite Hlen. apply Hlt. left. }
  split; simpl.
  - by rewrite length_insert.
  - rewrite <- Hperm. simpl. rewrite <- (assoc_L (++)). simpl.
    by rewrite <- !Permutation_middle.
  - intros i Hi. unfold elem_at; simpl. rewrite elem_at_insert_ne.
    + apply Hfree. by right.
    + intros ->. apply Hnin. apply elem_of_app. by left.
  - intros i Hi. unfold elem_at; simpl. apply elem_of_app in Hi as [Hi|Hi].
    + rewrite elem_at_insert_ne; [by apply Hpend|].
      intros ->. apply Hnin. rewrite !elem_of_app. auto.
    + apply list_elem_of_singleton in Hi as ->.
      rewrite elem_at_insert_eq by done. split; [done|]. by rewrite Hreq.
  - intros i Hi. unfold elem_at; simpl. rewrite elem_at_insert_ne; [by apply Hbusy|].
    intros ->. apply Hnin. rewrite !elem_of_app. auto.
Qed.

Lemma find_pend_spec (f : nat → bool) q be :
  find f q = Some be → be ∈ q ∧ f be = true.
Proof.
  intros H. apply find_some in H as [H1 H2]. split; [|done].
  by apply list_elem_of_In.
Qed.

Lemma dequeue_inv bq t : queue_inv bq → queue_inv (blockif_dequeue bq t).1.1.
Proof.
  intros Hinv. unfold blockif_dequeue.
  destruct (find _ (bq_pendq bq)) as [be|] eqn:Hfind; [|done].
  apply find_pend_spec in Hfind as [Hin Hst]. simpl.
  pose proof (queue_inv_nodup _ Hinv) as Hnd.
  pose proof (queue_inv_lt bq be Hinv) as Hlt.
  destruct Hinv as [Hlen Hperm Hfree Hpend Hbusy].
  assert (Hbe : (be < length (bq_reqs bq))%nat).
  { rewrite Hlen. apply Hlt. rewrite !elem_of_app. auto. }
  pose proof (tailq_remove_perm be _ Hin) as Hrm.
  assert (Hp2 : bq_freeq bq ++ bq_pendq bq ++ bq_busyq bq
                ≡ₚ be :: bq_freeq bq ++ tailq_remove be (bq_pendq bq) ++ bq_busyq bq).
  { etrans; [apply Permutation_app_head, Permutation_app_tail, Hrm|].
    simpl. by rewrite <- Permutation_middle. }
  rewrite Hp2 in Hnd. apply NoDup_cons in Hnd as [Hnin _].
  split; simpl.
  - by rewrite length_insert.
  - rewrite <- Hperm, Hp2. rewrite (assoc_L (++) _ (bq_busyq bq)).
    by rewrite <- !Permutation_middle, app_nil_r.
  - intros i Hi. unfold elem_at; simpl. rewrite elem_at_insert_ne; [by apply Hfree|].
    intros ->. apply Hnin. rewrite !elem_of_app. auto.
  - intros i Hi. unfold elem_at; simpl. rewrite elem_at_insert_ne.
    + apply Hpend. rewrite Hrm. by right.
    + intros ->. apply Hnin. rewrite !elem_of_app. auto.
  - intros i Hi. unfold elem_at; simpl. apply elem_of_app in Hi as [Hi|Hi].
    + rewrite elem_at_insert_ne; [by apply Hbusy|].
      intros ->. apply Hnin. rewrite !elem_of_app. auto.
    + apply list_elem_of_singleton in Hi as ->.
      rewrite elem_at_insert_eq by done. by left.
Qed.

Lemma proc_done_inv bq be :
  queue_inv bq → be ∈ bq_busyq bq → queue_inv (blockif_proc_done bq be).
Proof.
  intros Hinv Hin.
  pose proof (queue_inv_nodup _ Hinv) as Hnd.
  pose proof (queue_inv_lt bq be Hinv) as Hlt.
  destruct Hinv as [Hlen Hperm Hfree Hpend Hbusy].
  assert (Hbe : (be < length (bq_reqs bq))%nat).
  { rewrite Hlen. apply Hlt. rewrite !elem_of_app. auto. }
  apply NoDup_app in Hnd as (_ & Hfn & Hnd).
  apply NoDup_app in Hnd as (_ & Hpn & _).
  split; simpl; try done.
  - by rewrite length_insert.
  - intros i Hi. unfold elem_at; simpl. rewrite elem_at_insert_ne; [by apply Hfree|].
    intros ->. apply (Hfn i Hi). rewrite elem_of_app. auto.
  - intros i Hi. unfold elem_at; simpl. rewrite elem_at_insert_ne; [by apply Hpend|].
    intros ->. by apply (Hpn i Hi).
  - intros i Hi. unfold elem_at; simpl. destruct (decide (be = i)) as [->|Hne].
    + rewrite elem_at_insert_eq by done. by right.
    + rewrite elem_at_insert_ne by done. by apply Hbusy.
Qed.

Lemma unblock_step key (reqs : list blockif_elem) t :
  length (unblock key reqs t) = length reqs
  ∧ ∀ i, default elem_zero ((unblock key reqs t) !! i) = default elem_zero (reqs !! i)
         ∨ (i = t ∧ default elem_zero ((unblock key reqs t) !! i)
                     = set_status BST_PEND (default elem_zero (reqs !! i))).
Proof.
  unfold unblock. destruct (be_req (default elem_zero (reqs !! t))) as [r|]; [|auto].
  destruct (br_offset r =? key); [|auto].
  split; [by rewrite length_insert|].
  intros i. destruct (decide (t = i)) as [->|Hne].
  - destruct (decide (i < length reqs)%nat) as [Hlt|Hge].
    + right. split; [done|]. by rewrite list_lookup_insert_eq.
    + left. rewrite list_insert_ge by lia. done.
  - left. by rewrite list_lookup_insert_ne.
Qed.

Lemma unblock_fold key q : ∀ reqs : list blockif_elem,
  length (fold_left (unblock key) q reqs) = length reqs
  ∧ ∀ i, default elem_zero ((fold_left (unblock key) q reqs) !! i) = default elem_zero (reqs !! i)
         ∨ (i ∈ q ∧ default elem_zero ((fold_left (unblock key) q reqs) !! i)
                     = set_status BST_PEND (default elem_zero (reqs !! i))).
Proof.
  induction q as [|t q IH]; intros reqs; simpl; [auto|].
  destruct (IH (unblock key reqs t)) as [Hl Hi].
  destruct (unblock_step key reqs t) as [Hl1 Hi1].
  split; [congruence|]. intros i.
  destruct (Hi i) as [E|[Hin E]]; destruct (Hi1 i) as [E1|[-> E1]]; rewrite E, E1.
  - by left.
  - right. split; [left|done].
  - right. split; [by right|done].
  - right. split; [left|done].
Qed.

Lemma set_status_req s e : be_req (set_status s e) = be_req e.
Proof. done. Qed.

Lemma tailq_remove_subseteq be q i : i ∈ tailq_remove be q → i ∈ q.
Proof.
  induction q as [|x q IH]; simpl; [done|].
  destruct (Nat.eqb x be).
  - intros H. by right.
  - intros H. apply elem_of_cons in H as [->|H]; [left|right; auto].
Qed.

Lemma complete_inv bc bq be :
  queue_inv bq → be ∈ bq_pendq bq ∨ be ∈ bq_busyq bq →
  queue_inv (blockif_complete bc bq be).
Proof.
  intros Hinv Hin.
  pose proof (queue_inv_nodup _ Hinv) as Hnd.
  pose proof (queue_inv_lt bq be Hinv) as Hlt.
  destruct Hinv as [Hlen Hperm Hfree Hpend Hbusy].
  assert (Hbe : (be < length (bq_reqs bq))%nat).
  { rewrite Hlen. apply Hlt. rewrite !elem_of_app. tauto. }
  unfold blockif_complete.
  set (e := elem_at bq be).
  set (busy := bool_decide (be_status e = BST_DONE) || bool_decide (be_status e = BST_BUSY)).
  set (busyq1 := if busy then tailq_remove be (bq_busyq bq) else bq_busyq bq).
  set (pendq1 := if busy then bq_pendq bq else tailq_remove be (bq_pendq bq)).
  set (reqs1 := if bc_bst_block bc =? 1
                then fold_left (unblock (be_block e)) pendq1 (bq_reqs bq) else bq_reqs bq).
  (* the list the slot is removed from is the one it is on *)
  assert (Hp2 : bq_freeq bq ++ bq_pendq bq ++ bq_busyq bq
                ≡ₚ be :: bq_freeq bq ++ pendq1 ++ busyq1).
  { destruct Hin as [Hin|Hin].
    - destruct (Hpend be Hin) as [Hst _].
      assert (busy = false) as Hb.
      { unfold busy, e. destruct Hst as [-> | ->]; done. }
      unfold pendq1, busyq1. rewrite Hb.
      etrans; [apply Permutation_app_head, Permutation_app_tail,
               (tailq_remove_perm be _ Hin)|].
      simpl. by rewrite <- Permutation_middle.
    - assert (busy = true) as Hb.
      { unfold busy, e. destruct (Hbusy be Hin) as [-> | ->]; done. }
      unfold pendq1, busyq1. rewrite Hb.
      etrans; [apply Permutation_app_head, Permutation_app_head,
               (tailq_remove_perm be _ Hin)|].
      by rewrite <- !Permutation_middle. }
  assert (Hsub_p : ∀ i, i ∈ pendq1 → i ∈ bq_pendq bq).
  { intros i. unfold pendq1. destruct busy; [done|apply tailq_remove_subseteq]. }
  assert (Hsub_b : ∀ i, i ∈ busyq1 → i ∈ bq_busyq bq).
  { intros i. unfold busyq1. destruct busy; [apply tailq_remove_subseteq|done]. }
  rewrite Hp2 in Hnd. apply NoDup_cons in Hnd as [Hnin Hnd].
  apply NoDup_app in Hnd as (_ & Hfn & Hnd).
  apply NoDup_app in Hnd as (_ & Hpn & _).
  (* the walk leaves everything but the status of pendq slots alone *)
  assert (Hr1 : length reqs1 = length (bq_reqs bq)
                ∧ ∀ i, default elem_zero (reqs1 !! i) = elem_at bq i
                       ∨ (i ∈ pendq1 ∧ default elem_zero (reqs1 !! i)
                                       = set_status BST_PEND (elem_at bq i))).
  { unfold reqs1. destruct (bc_bst_block bc =? 1); [apply unblock_fold|auto]. }
  destruct Hr1 as [Hl1 Hr1].
  split; simpl.
  - rewrite length_insert. congruence.
  - rewrite <- Hperm, Hp2. rewrite <- (assoc_L (++)). simpl.
    by rewrite <- !Permutation_middle.
  - intros i Hi. unfold elem_at; simpl. apply elem_of_app in Hi as [Hi|Hi].
    + rewrite elem_at_insert_ne.
      * destruct (Hr1 i) as [->|[Hip _]]; [by apply Hfree|].
        exfalso. apply (Hfn i Hi). rewrite elem_of_app. auto.
      * intros ->. apply Hnin. rewrite !elem_of_app. auto.
    + apply list_elem_of_singleton in Hi as ->.
      rewrite elem_at_insert_eq by lia. done.
  - intros i Hi. unfold elem_at; simpl. rewrite elem_at_insert_ne.
    + destruct (Hpend i (Hsub_p i Hi)) as [Hst Hreq].
      destruct (Hr1 i) as [->|[_ ->]]; [done|]. split; [by left|done].
    + intros ->. apply Hnin. rewrite !elem_of_app. auto.
  - intros i Hi. unfold elem_at; simpl. rewrite elem_at_insert_ne.
    + destruct (Hr1 i) as [->|[Hip _]]; [by apply Hbusy, Hsub_b|].
      exfalso. by apply (Hpn i Hip).
    + intros ->. apply Hnin. rewrite !elem_of_app. auto.
Qed.

Lemma reachable_inv bc bq : reachable bc bq → queue_inv bq.
Proof.
  induction 1.
  - apply queue_open_inv.
  - by apply enqueue_inv.
  - by apply dequeue_inv.
  - by apply proc_done_inv.
  - by apply complete_inv.
Qed.

Lemma queue_inv_class bq i q :
  queue_inv bq → i ∈ queue_list bq q → status_class (be_status (elem_at bq i)) = q.
Proof.
  intros [_ _ Hfree Hpend Hbusy] Hi. destruct q; simpl in Hi.
  - by rewrite (Hfree i Hi).
  - destruct (Hpend i Hi) as [[-> | ->] _]; done.
  - destruct (Hbusy i Hi) as [-> | ->]; done.
Qed.

(** C1: in every queue state reached from the state [blockif_open] sets up
    by enqueue, dequeue, the worker's DONE mark and complete, the lengths of
    freeq, pendq and busyq add up to BLOCKIF_MAXREQ, no list holds a slot
    twice, and each of the BLOCKIF_MAXREQ slots is on exactly the list of its
    status class (FREE: freeq; PEND, BLOCK: pendq; BUSY, DONE: busyq). *)
Theorem queue_slot_accounting bc bq :
  reachable bc bq →
  (length (bq_freeq bq) + length (bq_pendq bq) + length (bq_busyq bq)
   = BLOCKIF_MAXREQ)%nat
  ∧ length (bq_reqs bq) = BLOCKIF_MAXREQ
  ∧ (∀ q, NoDup (queue_list bq q))
  ∧ ∀ i, (i < BLOCKIF_MAXREQ)%nat →
         ∀ q, i ∈ queue_list bq q ↔ q = status_class (be_status (elem_at bq i)).
Proof.
  intros Hr. apply reachable_inv in Hr as Hinv.
  pose proof (queue_inv_nodup _ Hinv) as Hnd.
  pose proof (inv_perm _ Hinv) as Hperm.
  split; [|split; [|split]].
  - apply Permutation_length in Hperm.
    rewrite !length_app, length_seq in Hperm. lia.
  - apply Hinv.
  - apply NoDup_app in Hnd as (Hf & _ & Hnd).
    apply NoDup_app in Hnd as (Hp & _ & Hb).
    by intros [].
  - intros i Hi q. split.
    + intros Hq. symmetry. by apply queue_inv_class.
    + intros ->.
      assert (Hin : i ∈ bq_freeq bq ++ bq_pendq bq ++ bq_busyq bq).
      { rewrite Hperm, elem_of_seq. lia. }
      rewrite !elem_of_app in Hin.
      destruct Hin as [Hin|[Hin|Hin]].
      * by rewrite (queue_inv_class bq i FREEQ Hinv Hin).
      * by rewrite (queue_inv_class bq i PENDQ Hinv Hin).
      * by rewrite (queue_inv_class bq i BUSYQ Hinv Hin).
Qed.

Lemma find_block_some reqs off q t :
  find_block reqs off q = Some t → t ∈ q ∧ be_block (default elem_zero (reqs !! t)) = off.
Proof.
  intros H. apply find_some in H as [H1 H2]. split; [by apply list_elem_of_In|lia].
Qed.

Lemma find_block_none reqs off q t :
  find_block reqs off q = None → t ∈ q → be_block (default elem_zero (reqs !! t)) ≠ off.
Proof.
  intros H Hin. apply list_elem_of_In in Hin.
  pose proof (find_none _ _ H t Hin) as Hn. simpl in Hn. lia.
Qed.

(** C2: with [bst_block] on, enqueue on an empty freeq fails (returns 0,
    queue unchanged); otherwise it pops the head of freeq, stores the request
    in that slot, appends the slot to the tail of pendq, gives it status
    BLOCK if some slot on pendq or busyq has a key equal to the request's
    offset and PEND if none has, and returns nonzero exactly when the status
    is PEND.  No other slot changes. *)
Theorem blockif_enqueue_interlock bc bq breq op :
  bc_bst_block bc = 1 →
  queue_inv bq →
  match bq_freeq bq with
  | [] => blockif_enqueue bc bq breq op = (bq, 0)
  | be :: rest =>
      let bq' := (blockif_enqueue bc bq breq op).1 in
      let ret := (blockif_enqueue bc bq breq op).2 in
      let blocked :=
        ∃ t, t ∈ bq_pendq bq ++ bq_busyq bq ∧ be_block (elem_at bq t) = br_offset breq in
      bq_freeq bq' = rest
      ∧ bq_pendq bq' = bq_pendq bq ++ [be]
      ∧ bq_busyq bq' = bq_busyq bq
      ∧ be_req (elem_at bq' be) = Some breq
      ∧ be_op (elem_at bq' be) = op
      ∧ (blocked → be_status (elem_at bq' be) = BST_BLOCK)
      ∧ (¬ blocked → be_status (elem_at bq' be) = BST_PEND)
      ∧ (ret ≠ 0 ↔ be_status (elem_at bq' be) = BST_PEND)
      ∧ ∀ i, i ≠ be → elem_at bq' i = elem_at bq i
  end.
Proof.
  intros Hbst Hinv. destruct (bq_freeq bq) as [|be rest] eqn:Hf.
  { by apply enqueue_empty. }
  pose proof (queue_inv_nodup _ Hinv) as Hnd.
  pose proof (queue_inv_lt bq be Hinv) as Hlt.
  assert (Hs : be_status (elem_at bq be) = BST_FREE).
  { apply Hinv. rewrite Hf. left. }
  assert (Hbe : (be < length (bq_reqs bq))%nat).
  { rewrite (inv_len _ Hinv). apply Hlt. rewrite Hf. left. }
  rewrite Hf in Hnd. simpl in Hnd. apply NoDup_cons in Hnd as [Hnin _].
  assert (Hne : ∀ t, t ∈ bq_pendq bq ++ bq_busyq bq → be ≠ t).
  { intros t Ht ->. apply Hnin. rewrite elem_of_app. auto. }
  unfold blockif_enqueue. rewrite Hf, Hs, Hbst. simpl.
  set (e := set_block (block_key breq op) _).
  set (reqs1 := <[be := e]> (bq_reqs bq)).
  assert (Hold : ∀ t, t ∈ bq_pendq bq ++ bq_busyq bq →
                      default elem_zero (reqs1 !! t) = elem_at bq t).
  { intros t Ht. unfold reqs1. rewrite elem_at_insert_ne; [done|by apply Hne]. }
  set (tbe := match find_block reqs1 (br_offset breq) (bq_pendq bq) with
              | Some t => Some t
              | None => find_block reqs1 (br_offset breq) (bq_busyq bq)
              end).
  assert (Htbe : (∃ t, t ∈ bq_pendq bq ++ bq_busyq bq
                       ∧ be_block (elem_at bq t) = br_offset breq)
                 ↔ is_Some tbe).
  { unfold tbe. split.
    - intros (t & Ht & Hk).
      destruct (find_block reqs1 _ (bq_pendq bq)) eqn:E1; [done|].
      destruct (find_block reqs1 _ (bq_busyq bq)) eqn:E2; [done|].
      exfalso. apply elem_of_app in Ht as Ht'. destruct Ht' as [Ht'|Ht'].
      + apply (find_block_none _ _ _ t E1 Ht'). by rewrite Hold.
      + apply (find_block_none _ _ _ t E2 Ht'). by rewrite Hold.
    - intros [t Ht].
      destruct (find_block reqs1 _ (bq_pendq bq)) as [t1|] eqn:E1.
      + apply find_block_some in E1 as [Hin Hk]. exists t1.
        assert (t1 ∈ bq_pendq bq ++ bq_busyq bq) as Hin' by (rewrite elem_of_app; auto).
        split; [done|]. by rewrite <- Hold.
      + apply find_block_some in Ht as [Hin Hk]. exists t.
        assert (t ∈ bq_pendq bq ++ bq_busyq bq) as Hin' by (rewrite elem_of_app; auto).
        split; [done|]. by rewrite <- Hold. }
  unfold elem_at; simpl.
  rewrite elem_at_insert_eq by done.
  clearbody tbe.
  repeat split; try (by destruct tbe).
  - intros Hb. apply Htbe in Hb as [t ->]. done.
  - intros Hb. destruct tbe as [t|] eqn:E; [|done].
    exfalso. apply Hb, Htbe. by eexists.
  - intros i Hi. destruct tbe; by rewrite elem_at_insert_ne.
Qed.

(** ** Alignment information *)

Lemma sum_iov_len_nonneg iov : Forall iovec_wf iov → 0 <= sum_iov_len iov.
Proof.
  induction 1 as [|v iov [_ Hv] _ IH]; simpl; [lia|]. lia.
Qed.

Lemma iov_align_fold a iov : ∀ s b l,
  fold_left (iov_align_step a) iov (s, b, l) =
    (fold_left (fun s v => to_int (s + iov_len v)) iov s,
     b && forallb (fun v => Z.rem (to_uint64 (iov_base v)) a =? 0) iov,
     l && forallb (fun v => Z.rem (iov_len v) a =? 0) iov).
Proof.
  induction iov as [|v iov IH]; intros s b l; simpl.
  - by rewrite !andb_true_r.
  - rewrite IH. f_equal; [f_equal|].
    + destruct (Z.rem (to_uint64 (iov_base v)) a =? 0), b; simpl; done.
    + destruct (Z.rem (iov_len v) a =? 0), l; simpl; done.
Qed.

Lemma iov_size_fold iov : ∀ s,
  to_uint32 (fold_left (fun s v => to_int (s + iov_len v)) iov s)
  = to_uint32 (s + sum_iov_len iov).
Proof.
  induction iov as [|v iov IH]; intros s; simpl.
  - f_equal. lia.
  - rewrite IH. rewrite <- to_uint32_add_l, to_uint32_to_int, to_uint32_add_l.
    f_equal. lia.
Qed.

Lemma forallb_aligned_base a iov :
  0 < a → Forall iovec_wf iov →
  forallb (fun v => Z.rem (to_uint64 (iov_base v)) a =? 0) iov = false
  ↔ Exists (fun v => iov_base v mod a ≠ 0) iov.
Proof.
  intros Ha Hwf. induction Hwf as [|v iov [Hb Hl] _ IH]; simpl.
  - split; [done|]. intros H. by apply Exists_nil in H.
  - rewrite Exists_cons, andb_false_iff, IH.
    rewrite to_uint64_small, rem_zero_iff by lia.
    by rewrite Z.eqb_neq.
Qed.

Lemma forallb_aligned_len a iov :
  0 < a → Forall iovec_wf iov →
  forallb (fun v => Z.rem (iov_len v) a =? 0) iov = false
  ↔ Exists (fun v => iov_len v mod a ≠ 0) iov.
Proof.
  intros Ha Hwf. induction Hwf as [|v iov [Hb Hl] _ IH]; simpl.
  - split; [done|]. intros H. by apply Exists_nil in H.
  - rewrite Exists_cons, andb_false_iff, IH.
    rewrite rem_zero_iff by lia.
    by rewrite Z.eqb_neq.
Qed.



(** ** Virtual C/H/S *)

Lemma quot_small_uint16 h d :
  0 <= h → 0 < d → h < 65536 * d → to_uint16 (Z.quot h d) = h / d.
Proof.
  intros Hh Hd Hlt. rewrite Z.quot_div_nonneg by lia.
  apply wrap_unsigned_small. change (2 ^ 16) with 65536.
  split; [apply Z.div_pos; lia|]. apply Z.div_lt_upper_bound; lia.
Qed.

(** C9: for every device size and sector size, [blockif_chs] returns what
    the VHD computation gives on unbounded integers: none of the conversions
    to [uint8_t] and [uint16_t] changes the result. *)
Theorem blockif_chs_vhd bc :
  0 <= bc_size bc <= OFF_MAX →
  0 < bc_sectsz bc <= INT_MAX →
  blockif_chs bc = vhd_chs (bc_size bc / bc_sectsz bc).
Proof.
  intros Hsz Hss. unfold blockif_chs, vhd_chs.
  rewrite Z.quot_div_nonneg by lia.
  set (s0 := bc_size bc / bc_sectsz bc).
  assert (Hs0 : 0 <= s0 <= OFF_MAX).
  { unfold s0. split; [apply Z.div_pos; lia|].
    etrans; [|apply Hsz]. apply Z.div_le_upper_bound; [lia|]. nia. }
  unfold OFF_MAX in Hs0. clearbody s0.
  unfold to_uint64.
  rewrite (wrap_unsigned_small 64 s0) by (change (2 ^ 64) with 18446744073709551616; lia).
  change (65535 * 16 * 255) with 267382800. change (65536 * 16 * 63) with 66060288.
  set (s := Z.min s0 267382800).
  assert (Hclamp : (if 267382800 <? s0 then 267382800 else s0) = s).
  { unfold s. destruct (Z.ltb_spec 267382800 s0); lia. }
  rewrite Hclamp.
  assert (Hs : 0 <= s <= 267382800) by (unfold s; lia).
  clearbody s. clear Hclamp.
  rewrite (wrap_unsigned_small 64 s) by (change (2 ^ 64) with 18446744073709551616; lia).
  destruct (Z.leb_spec 66060288 s) as [Hbig|Hsmall]; cbv beta iota zeta.
  { rewrite (Z.quot_div_nonneg s 255) by lia.
    rewrite quot_small_uint16 by dlia. done. }
  rewrite !(Z.quot_div_nonneg s) by lia.
  set (h17 := s / 17). assert (Hh17 : 0 <= h17 < 3885900) by (unfold h17; dlia).
  rewrite (Z.quot_div_nonneg (h17 + 1023)) by lia.
  set (H := (h17 + 1023) / 1024).
  assert (HH : 0 <= H ∧ 1024 * H - 1023 <= h17 <= 1024 * H) by (unfold H; dlia).
  clearbody H.
  set (h31 := s / 31). assert (Hh31 : 0 <= h31 < 2130978) by (unfold h31; dlia).
  set (h63 := s / 63). assert (Hh63 : 0 <= h63 < 1048576) by (unfold h63; dlia).
  assert (Hc31 : h31 < 1024 * 16 → to_uint16 (Z.quot h31 16) = h31 / 16).
  { intros Hlt. apply quot_small_uint16; lia. }
  assert (Hc63 : to_uint16 (Z.quot h63 16) = h63 / 16) by (apply quot_small_uint16; lia).
  assert (Hmul : ∀ x, x * 1024 = 1024 * x) by (intros; lia).
  assert (Htail : (let '(secpt, heads, hcyl) := (31, 16, h31) in
                   let '(secpt0, heads0, hcyl0) :=
                     if heads * 1024 <=? hcyl then (63, 16, h63) else (secpt, heads, hcyl) in
                   (to_uint16 (Z.quot hcyl0 heads0), heads0, secpt0))
                  = (if h31 <? 1024 * 16 then (h31 / 16, 16, 31) else (h63 / 16, 16, 63))).
  { cbv beta iota zeta.
    destruct (Z.leb_spec (16 * 1024) h31); destruct (Z.ltb_spec h31 (1024 * 16));
      try lia; [by rewrite Hc63|by rewrite Hc31]. }
  destruct (Z_lt_le_dec H 256) as [Hlt|Hge].
  - (* the quotient fits the uint8_t *)
    unfold to_uint8. rewrite (wrap_unsigned_small 8 H) by (change (2 ^ 8) with 256; lia).
    assert (Hmax : (if H <? 4 then 4 else H) = Z.max 4 H).
    { destruct (Z.ltb_spec H 4); lia. }
    rewrite Hmax. set (hd := Z.max 4 H). assert (Hhd : 4 <= hd < 256) by (unfold hd; lia).
    clearbody hd.
    rewrite Hmul.
    destruct (Z.leb_spec (1024 * hd) h17) as [H1|H1];
      destruct (Z.ltb_spec h17 (1024 * hd)) as [H1'|H1']; try lia; simpl orb; simpl andb.
    + exact Htail.
    + destruct (Z.ltb_spec 16 hd) as [H2|H2]; destruct (Z.leb_spec hd 16) as [H2'|H2'];
        try lia.
      * exact Htail.
      * cbv beta iota zeta. rewrite Hmul.
        destruct (Z.leb_spec (1024 * hd) h17); [lia|].
        rewrite quot_small_uint16 by nia. done.
  - (* the quotient is truncated, and both computations promote *)
    set (hd8 := if to_uint8 H <? 4 then 4 else to_uint8 H).
    assert (Hhd8 : 4 <= hd8 < 256).
    { unfold hd8, to_uint8, wrap_unsigned. change (2 ^ 8) with 256.
      pose proof (Z.mod_pos_bound H 256 ltac:(lia)).
      destruct (Z.ltb_spec (H mod 256) 4); lia. }
    clearbody hd8.
    replace (Z.max 4 H) with H by lia.
    destruct (Z.leb_spec (hd8 * 1024) h17); [simpl orb|lia].
    destruct (Z.ltb_spec h17 (1024 * H)); destruct (Z.leb_spec H 16); try lia;
      simpl andb; exact Htail.
Qed.

(** ** Discard *)

(** Validation, read off the code: the size and the start are floored to
    whole sectors before they are compared. *)
Lemma discard_range_validate_ok_iff bc start size :
  0 <= start → 0 <= size → start + size <= OFF_MAX →
  - 2 ^ 63 <= bc_size bc + bc_sub_file_start_lba bc <= OFF_MAX →
  discard_range_validate bc start size = 0
  ↔ size ≠ 0
    ∧ start + size <= bc_size bc + bc_sub_file_start_lba bc
    ∧ size / DEV_BSIZE <= bc_max_discard_sectors bc
    ∧ (bc_discard_sector_alignment bc = 0
       ∨ Z.rem (start / DEV_BSIZE) (bc_discard_sector_alignment bc) = 0).
Proof.
  intros Hs Hz Hov Hdev. unfold discard_range_validate, DEV_BSIZE.
  rewrite !to_off_t_small by lia.
  rewrite !Z.quot_div_nonneg by lia.
  destruct (Z.eqb_spec size 0); simpl; [split; [done|tauto]|].
  destruct (Z.ltb_spec (bc_size bc + bc_sub_file_start_lba bc) (start + size)); simpl;
    [split; [done|lia]|].
  destruct (Z.ltb_spec (bc_max_discard_sectors bc) (size / 512)); simpl;
    [split; [done|lia]|].
  destruct (Z.eqb_spec (bc_discard_sector_alignment bc) 0); simpl;
    [split; [auto|done]|].
  destruct (Z.eqb_spec (Z.rem (start / 512) (bc_discard_sector_alignment bc)) 0); simpl.
  - split; [auto|done].
  - split; [done|]. intros (_ & _ & _ & [?|?]); done.
Qed.

Lemma discard_range_validate_cases bc start size :
  discard_range_validate bc start size = 0 ∨ discard_range_validate bc start size = -1.
Proof.
  unfold discard_range_validate.
  destruct (_ || _); [auto|]. destruct (_ || _); auto.
Qed.

(** C10: validation compares the size floored to whole 512-byte sectors
    with [max_discard_sectors] and checks the alignment of the start floored
    to a sector index; so a range of max_discard_sectors * 512 + 511 bytes
    that lies within the device and starts on an aligned sector passes,
    although it is longer than max_discard_sectors * 512 bytes. *)
Theorem discard_range_validate_floors bc start :
  0 <= start →
  0 <= bc_max_discard_sectors bc <= INT_MAX →
  - 2 ^ 63 <= bc_size bc + bc_sub_file_start_lba bc <= OFF_MAX →
  (∀ size, 0 <= size → start + size <= OFF_MAX →
     discard_range_validate bc start size = 0
     ↔ size ≠ 0
       ∧ start + size <= bc_size bc + bc_sub_file_start_lba bc
       ∧ size / 512 <= bc_max_discard_sectors bc
       ∧ (bc_discard_sector_alignment bc = 0
          ∨ Z.rem (start / 512) (bc_discard_sector_alignment bc) = 0))
  ∧ (let size := bc_max_discard_sectors bc * 512 + 511 in
     start + size <= bc_size bc + bc_sub_file_start_lba bc →
     bc_discard_sector_alignment bc = 0
     ∨ Z.rem (start / 512) (bc_discard_sector_alignment bc) = 0 →
     discard_range_validate bc start size = 0
     ∧ bc_max_discard_sectors bc * 512 < size).
Proof.
  intros Hs Hmax Hdev. split.
  - intros size Hz Hov. by apply discard_range_validate_ok_iff.
  - intros size Hend Hal. split; [|unfold size; lia].
    apply discard_range_validate_ok_iff; unfold size in *; try lia.
    unfold DEV_BSIZE. repeat split; try lia; try done. dlia.
Qed.

Lemma discard_collect_S bc range n i segment arg :
  discard_collect bc range (S n) i segment arg =
    if MAX_DISCARD_SEGMENT <=? Z.of_nat i then None
    else
      let a := discard_arg bc (range i) in
      if bc_max_discard_seg bc <? to_int (segment + 1) then Some (inl EINVAL)
      else if negb (discard_range_validate bc a.1 a.2 =? 0) then Some (inl EINVAL)
      else discard_collect bc range n (S i) (to_int (segment + 1)) (arg ++ [a]).
Proof. reflexivity. Qed.

Lemma collect_in_bounds_next bc n i segment :
  collect_in_bounds bc (S n) i segment →
  (MAX_DISCARD_SEGMENT <=? Z.of_nat i) = false
  ∧ to_int (segment + 1) = Z.of_nat (S i)
  ∧ ((bc_max_discard_seg bc <? to_int (segment + 1)) = false →
     collect_in_bounds bc n (S i) (to_int (segment + 1))).
Proof.
  unfold collect_in_bounds, MAX_DISCARD_SEGMENT. intros (-> & [?|(Hi & Hb)]); [done|].
  assert (Hs : to_int (Z.of_nat i + 1) = Z.of_nat (S i)).
  { rewrite to_int_small by (unfold INT_MAX; lia). lia. }
  split; [apply Z.leb_gt; lia|]. split; [done|].
  rewrite Hs. intros Hlt. apply Z.ltb_ge in Hlt. split; [done|].
  destruct n as [|n]; [by left|]. right. lia.
Qed.

Lemma collect_in_bounds_start bc br :
  discard_in_bounds bc br → br_iovcnt br = 1 →
  collect_in_bounds bc (discard_n_range br) 0 0.
Proof.
  unfold discard_in_bounds, collect_in_bounds, MAX_DISCARD_SEGMENT.
  intros [?|Hb] Hcnt; [done|]. split; [done|].
  destruct (discard_n_range br); [by left|]. right. lia.
Qed.

Lemma discard_collect_defined bc range n : ∀ i segment arg,
  collect_in_bounds bc n i segment →
  ∃ r, discard_collect bc range n i segment arg = Some r.
Proof.
  induction n as [|n IH]; intros i segment arg Hb; [by eexists|].
  rewrite discard_collect_S. cbv zeta.
  destruct (collect_in_bounds_next bc n i segment Hb) as (-> & _ & Hnext).
  destruct (_ <? _); [by eexists|]. destruct (negb _); [by eexists|].
  apply IH. by apply Hnext.
Qed.



Lemma discard_exec_ok env bc arg : ∀ h,
  (discard_exec env bc arg h).1 = 0 ∨ (discard_exec env bc arg h).1 ≠ 0.
Proof. intros h. lia. Qed.

(** The code's validation is the interface's validity, as long as the
    values fit an [off_t]. *)
Lemma discard_range_validate_valid bc start size :
  0 <= start → 0 <= size → start + size <= OFF_MAX →
  - 2 ^ 63 <= bc_size bc + bc_sub_file_start_lba bc <= OFF_MAX →
  discard_range_validate bc start size = 0 ↔ discard_range_valid bc (start, size).
Proof. intros. by apply discard_range_validate_ok_iff. Qed.

(** Within the code's types the rows computed are the ranges requested. *)
Lemma discard_n_range_fits br :
  0 <= iov_len (nth 0 (br_iov br) (mk_iovec 0 0)) / 16 <= INT_MAX →
  discard_n_range br = Z.to_nat (iov_len (nth 0 (br_iov br) (mk_iovec 0 0)) / 16).
Proof.
  intros Hn. unfold discard_n_range, sizeof_discard_range.
  set (len := iov_len _) in *.
  assert (0 <= len) by dlia.
  rewrite Z.quot_div_nonneg by lia. rewrite to_int_small by lia. done.
Qed.

Lemma discard_arg_fits bc r :
  0 <= dr_sector r * 512 + bc_sub_file_start_lba bc <= OFF_MAX →
  0 <= dr_num_sectors r * 512 <= UINT32_MAX →
  discard_arg bc r
  = (dr_sector r * 512 + bc_sub_file_start_lba bc, dr_num_sectors r * 512).
Proof.
  intros Hs Hn. unfold discard_arg, DEV_BSIZE.
  rewrite to_off_t_small by (unfold OFF_MAX in *; lia).
  rewrite to_uint32_small by done. done.
Qed.




(** ** Cancellation *)







(** ** Witnesses and evaluations at concrete inputs *)

Lemma queue_slot_accounting_witness :
  let bq := (blockif_enqueue bc_demo queue_open req_misaligned BOP_WRITE).1 in
  reachable bc_demo bq
  ∧ (length (bq_freeq bq) + length (bq_pendq bq) + length (bq_busyq bq)
     = BLOCKIF_MAXREQ)%nat
  ∧ length (bq_reqs bq) = BLOCKIF_MAXREQ
  ∧ (∀ q, NoDup (queue_list bq q))
  ∧ ∀ i, (i < BLOCKIF_MAXREQ)%nat →
         ∀ q, i ∈ queue_list bq q ↔ q = status_class (be_status (elem_at bq i)).
Proof.
  assert (Hr : reachable bc_demo
                 (blockif_enqueue bc_demo queue_open req_misaligned BOP_WRITE).1).
  { apply reach_enqueue, reach_open. }
  split; [exact Hr|]. exact (queue_slot_accounting bc_demo _ Hr).
Defined.

Lemma blockif_enqueue_interlock_witness :
  let bq' := (blockif_enqueue bc_demo queue_open req_misaligned BOP_WRITE).1 in
  let ret := (blockif_enqueue bc_demo queue_open req_misaligned BOP_WRITE).2 in
  bc_bst_block bc_demo = 1
  ∧ queue_inv queue_open
  ∧ bq_pendq bq' = bq_pendq queue_open ++ [71%nat]
  ∧ be_req (elem_at bq' 71) = Some req_misaligned
  ∧ be_status (elem_at bq' 71) = BST_PEND
  ∧ (ret ≠ 0 ↔ be_status (elem_at bq' 71) = BST_PEND).
Proof.
  pose proof (blockif_enqueue_interlock bc_demo queue_open req_misaligned BOP_WRITE
                eq_refl queue_open_inv) as H.
  simpl (bq_freeq queue_open) in H.
  destruct H as (_ & Hp & _ & Hreq & _ & _ & Hpend & Hret & _).
  split; [reflexivity|]. split; [apply queue_open_inv|].
  split; [exact Hp|]. split; [exact Hreq|]. split; [|exact Hret].
  apply Hpend. intros (t & Ht & _). simpl in Ht. by apply elem_of_nil in Ht.
Defined.


Lemma blockif_chs_vhd_witness :
  0 <= bc_size bc_demo <= OFF_MAX
  ∧ 0 < bc_sectsz bc_demo <= INT_MAX
  ∧ blockif_chs bc_demo = vhd_chs (bc_size bc_demo / bc_sectsz bc_demo).
Proof.
  assert (H1 : 0 <= bc_size bc_demo <= OFF_MAX) by (unfold OFF_MAX; simpl; lia).
  assert (H2 : 0 < bc_sectsz bc_demo <= INT_MAX) by (unfold INT_MAX; simpl; lia).
  split; [exact H1|]. split; [exact H2|]. exact (blockif_chs_vhd bc_demo H1 H2).
Defined.

Lemma discard_range_validate_floors_witness :
  let size := bc_max_discard_sectors bc_demo * 512 + 511 in
  discard_range_validate bc_demo 0 size = 0
  ∧ bc_max_discard_sectors bc_demo * 512 < size.
Proof.
  apply (proj2 (discard_range_validate_floors bc_demo 0 ltac:(lia)
                  ltac:(unfold INT_MAX; simpl; lia)
                  ltac:(unfold OFF_MAX; simpl; lia))).
  - simpl. lia.
  - right. reflexivity.
Defined.


(** ** The sentinel key and the setup errors, evaluated *)

(** For the data operations the key is the end offset of the request, as
    long as the sum fits an [off_t]. *)
Lemma block_key_data breq op :
  op ≠ BOP_FLUSH →
  Forall iovec_wf (br_iov breq) →
  0 <= br_offset breq →
  br_offset breq + sum_iov_len (br_iov breq) <= OFF_MAX →
  block_key breq op = br_offset breq + sum_iov_len (br_iov breq).
Proof.
  intros Hop Hwf Hoff Hmax.
  assert (Hfold : ∀ iov off, Forall iovec_wf iov → 0 <= off →
            off + sum_iov_len iov <= OFF_MAX →
            fold_left (fun off v => to_off_t (off + iov_len v)) iov off
            = off + sum_iov_len iov).
  { clear. induction iov as [|v iov IH]; intros off Hwf Hoff Hmax; simpl in *; [lia|].
    apply Forall_cons in Hwf as [[_ Hv] Hwf].
    pose proof (sum_iov_len_nonneg _ Hwf).
    rewrite to_off_t_small by lia. rewrite IH by (done || lia). lia. }
  destruct op; try done; simpl; by apply Hfold.
Qed.

(** C3: the key of a slot is offset + total segment length for READ, WRITE
    and DISCARD, and the largest [off_t] for every other operation.  The code
    does not do the second: a FLUSH enqueued on a fresh queue with the
    interlock on gets the key [1 << (sizeof(off_t) - 1)] = 128. *)
Theorem flush_block_key_not_off_max :
  let bq := (blockif_enqueue bc_demo queue_open req_flush BOP_FLUSH).1 in
  bc_bst_block bc_demo = 1
  ∧ bq_pendq bq = [71%nat]
  ∧ be_op (elem_at bq 71) = BOP_FLUSH
  ∧ be_block (elem_at bq 71) = 128
  ∧ be_block (elem_at bq 71) ≠ OFF_MAX.
Proof. vm_compute. repeat split; discriminate. Qed.

(** C5: a failure while the bounce buffer is set up makes submit return the
    error before the queue is touched.  The code does not do that: when
    [posix_memalign] fails with ENOMEM for a misaligned READ, the request is
    enqueued and the worker is woken, and ENOMEM is returned all the same;
    when the head read of a misaligned WRITE fails with EIO, the request is
    enqueued and 0 is returned. *)
Theorem request_enqueued_despite_setup_failure :
  match blockif_request env_nomem bc_demo req_misaligned BOP_READ host_zero with
  | Returns (err, bc', _, h') =>
      err = ENOMEM
      ∧ bq_pendq <$> queue_at bc' 0 = Some [71%nat]
      ∧ h_trace h' = [EvMemalign 512 512 ENOMEM 0; EvCondSignal]
  | _ => False
  end
  ∧ match blockif_request env_first_read_eio bc_demo req_misaligned BOP_WRITE host_zero with
    | Returns (err, bc', _, h') =>
        err = 0
        ∧ bq_pendq <$> queue_at bc' 0 = Some [71%nat]
        ∧ EvPreadv 131072 512 0 (-1) ∈ h_trace h'
    | _ => False
    end.
Proof.
  split.
  - vm_compute. repeat split.
  - vm_compute. repeat split. do 2 right. left.
Qed.

(** C6: a failure of the head or tail read aborts the fill of the bounce
    buffer with that error.  The code does not do that: when the head read
    fails with EIO the tail is read all the same, the three parts are copied,
    and the result is 0. *)
Theorem bounced_write_ignores_read_failure :
  let '(br, h) := req_misaligned_bounced env_first_read_eio in
  let '(ret, h') := blockif_init_bounced_write env_first_read_eio bc_demo br h in
  info_head (br_align br) = 100
  ∧ info_tail (br_align br) = 212
  ∧ ret = 0
  ∧ h_trace h' = [EvMemalign 512 512 0 65536;
                  EvMemalign 512 512 0 131072; EvPreadv 131072 512 0 (-1);
                  EvMemalign 512 512 0 262144; EvPreadv 262144 512 0 512;
                  EvFree 131072; EvFree 262144].
Proof. vm_compute. repeat split. Qed.

(** * Further properties *)

(** ** The queue operations, slot by slot *)

Lemma tailq_remove_app_notin be pre post :
  be ∉ pre → tailq_remove be (pre ++ be :: post) = pre ++ post.
Proof.
  induction pre as [|x pre IH]; intros Hn; simpl.
  - by rewrite Nat.eqb_refl.
  - apply not_elem_of_cons in Hn as [Hne Hn].
    destruct (Nat.eqb_spec x be); [congruence|]. by rewrite IH.
Qed.

Lemma tailq_remove_notin be q : be ∉ q → tailq_remove be q = q.
Proof.
  induction q as [|x q IH]; intros Hn; simpl; [done|].
  apply not_elem_of_cons in Hn as [Hne Hn].
  destruct (Nat.eqb_spec x be); [congruence|]. by rewrite IH.
Qed.

Lemma find_first {A} (f : A → bool) l x :
  find f l = Some x →
  ∃ pre post, l = pre ++ x :: post ∧ f x = true ∧ ∀ y, y ∈ pre → f y = false.
Proof.
  induction l as [|a l IH]; simpl; [done|].
  destruct (f a) eqn:Hfa.
  - intros [= ->]. exists [], l. split; [done|]. split; [done|].
    intros y Hy. by apply elem_of_nil in Hy.
  - intros Hf. destruct (IH Hf) as (pre & post & -> & Hx & Hpre).
    exists (a :: pre), post. split; [done|]. split; [done|].
    intros y Hy. apply elem_of_cons in Hy as [->|Hy]; auto.
Qed.

Lemma blockif_dequeue_shape bq t :
  queue_inv bq →
  match blockif_dequeue bq t with
  | (bq', ret, None) =>
      ret = 0 ∧ bq' = bq
      ∧ ∀ i, i ∈ bq_pendq bq → be_status (elem_at bq i) = BST_BLOCK
  | (bq', ret, Some be) =>
      ret = 1
      ∧ (∃ pre post,
           bq_pendq bq = pre ++ be :: post
           ∧ (∀ i, i ∈ pre → be_status (elem_at bq i) = BST_BLOCK)
           ∧ bq_pendq bq' = pre ++ post)
      ∧ be_status (elem_at bq be) = BST_PEND
      ∧ bq_busyq bq' = bq_busyq bq ++ [be]
      ∧ bq_freeq bq' = bq_freeq bq
      ∧ elem_at bq' be =
          {| be_req := be_req (elem_at bq be); be_op := be_op (elem_at bq be);
             be_status := BST_BUSY; be_tid := t; be_block := be_block (elem_at bq be) |}
      ∧ ∀ i, i ≠ be → elem_at bq' i = elem_at bq i
  end.
Proof.
  intros Hinv. unfold blockif_dequeue.
  destruct (find _ (bq_pendq bq)) as [be|] eqn:Hf.
  - apply find_first in Hf as (pre & post & Hq & Hbe & Hpre).
    apply bool_decide_eq_true in Hbe.
    assert (Hblk : ∀ i, i ∈ pre → be_status (elem_at bq i) = BST_BLOCK).
    { intros i Hi. specialize (Hpre i Hi). apply bool_decide_eq_false in Hpre.
      destruct (inv_pend _ Hinv i) as [[?|?] _]; [|done..].
      rewrite Hq, elem_of_app. auto. }
    assert (Hnin : be ∉ pre).
    { intros Hin. specialize (Hblk be Hin). congruence. }
    assert (Hlt : (be < length (bq_reqs bq))%nat).
    { rewrite (inv_len _ Hinv). apply (queue_inv_lt bq be Hinv).
      rewrite Hq, !elem_of_app. right. left. right. left. }
    split; [done|]. split.
    { exists pre, post. split; [done|]. split; [done|]. simpl.
      rewrite Hq. by apply tailq_remove_app_notin. }
    split; [done|]. split; [done|]. split; [done|]. split.
    + unfold elem_at at 1; simpl. by rewrite list_lookup_insert_eq.
    + intros i Hi. unfold elem_at at 1; simpl. by rewrite list_lookup_insert_ne.
  - split; [done|]. split; [done|]. intros i Hi.
    apply list_elem_of_In in Hi as Hi'.
    pose proof (find_none _ _ Hf i Hi') as Hn. simpl in Hn.
    apply bool_decide_eq_false in Hn.
    destruct (inv_pend _ Hinv i Hi) as [[?|?] _]; done.
Qed.

(** X1: [blockif_dequeue] hands out the first slot on pendq that is PEND:
    every slot ahead of it is BLOCK and stays where it is, the slot taken
    moves to the tail of busyq with status BUSY and the worker's thread id,
    and no other slot changes.  When it finds no slot it returns 0, leaves
    the queue as it was, and every pending slot is BLOCK. *)
Theorem blockif_dequeue_first_pend bq t :
  queue_inv bq →
  match blockif_dequeue bq t with
  | (bq', ret, None) =>
      ret = 0 ∧ bq' = bq
      ∧ ∀ i, i ∈ bq_pendq bq → be_status (elem_at bq i) = BST_BLOCK
  | (bq', ret, Some be) =>
      ret = 1
      ∧ (∃ pre post,
           bq_pendq bq = pre ++ be :: post
           ∧ (∀ i, i ∈ pre → be_status (elem_at bq i) = BST_BLOCK)
           ∧ bq_pendq bq' = pre ++ post)
      ∧ be_status (elem_at bq be) = BST_PEND
      ∧ bq_busyq bq' = bq_busyq bq ++ [be]
      ∧ bq_freeq bq' = bq_freeq bq
      ∧ elem_at bq' be =
          {| be_req := be_req (elem_at bq be); be_op := be_op (elem_at bq be);
             be_status := BST_BUSY; be_tid := t; be_block := be_block (elem_at bq be) |}
      ∧ ∀ i, i ≠ be → elem_at bq' i = elem_at bq i
  end.
Proof. apply blockif_dequeue_shape. Qed.

Lemma unblocked_by_set_status key s e :
  unblocked_by key (set_status s e) = unblocked_by key e.
Proof. done. Qed.

Lemma set_status_idemp s e : set_status s (set_status s e) = set_status s e.
Proof. done. Qed.

Lemma unblock_exact key (reqs : list blockif_elem) t i :
  default elem_zero (unblock key reqs t !! i) =
    if bool_decide (i = t) && unblocked_by key (default elem_zero (reqs !! i))
    then set_status BST_PEND (default elem_zero (reqs !! i))
    else default elem_zero (reqs !! i).
Proof.
  unfold unblock, unblocked_by.
  destruct (decide (i = t)) as [->|Hne].
  - rewrite bool_decide_eq_true_2 by done. simpl.
    destruct (be_req (default elem_zero (reqs !! t))) as [r|] eqn:Hr; [|done].
    destruct (br_offset r =? key); [|done].
    destruct (decide (t < length reqs)%nat) as [Hlt|Hge].
    + by rewrite list_lookup_insert_eq.
    + rewrite list_insert_ge by lia.
      rewrite lookup_ge_None_2 in Hr by lia. done.
  - rewrite bool_decide_eq_false_2 by done. simpl.
    destruct (be_req (default elem_zero (reqs !! t))) as [r|]; [|done].
    destruct (br_offset r =? key); [|done].
    by rewrite list_lookup_insert_ne.
Qed.

Lemma unblock_fold_exact key q : ∀ (reqs : list blockif_elem) i,
  default elem_zero (fold_left (unblock key) q reqs !! i) =
    if bool_decide (i ∈ q) && unblocked_by key (default elem_zero (reqs !! i))
    then set_status BST_PEND (default elem_zero (reqs !! i))
    else default elem_zero (reqs !! i).
Proof.
  induction q as [|t q IH]; intros reqs i; cbn [fold_left].
  - rewrite bool_decide_eq_false_2; [done|]. apply not_elem_of_nil.
  - rewrite IH, unblock_exact.
    destruct (decide (i = t)) as [->|Hne].
    + rewrite (bool_decide_eq_true_2 (t = t)) by done.
      rewrite (bool_decide_eq_true_2 (t ∈ t :: q)) by left. simpl.
      destruct (unblocked_by key (default elem_zero (reqs !! t))) eqn:Hu.
      * rewrite unblocked_by_set_status, Hu, andb_true_r.
        by destruct (bool_decide (t ∈ q)).
      * rewrite Hu, andb_false_r. done.
    + rewrite (bool_decide_eq_false_2 (i = t)) by done. simpl.
      destruct (decide (i ∈ q)) as [Hin|Hnin].
      * rewrite !bool_decide_eq_true_2; [done| by right | done].
      * rewrite !bool_decide_eq_false_2; [done| |done].
        intros Hc. apply elem_of_cons in Hc as [?|?]; done.
Qed.

Lemma tailq_remove_filter be q :
  NoDup q → tailq_remove be q = filter (λ i, i ≠ be) q.
Proof.
  induction 1 as [|x q Hx Hnd IH]; simpl; [done|].
  destruct (Nat.eqb_spec x be) as [->|Hne].
  - rewrite filter_cons_False by (intros ?; done).
    rewrite <- IH. symmetry. by apply tailq_remove_notin.
  - rewrite filter_cons_True by done. by rewrite IH.
Qed.

Lemma blockif_complete_shape bc bq be :
  queue_inv bq →
  be ∈ bq_pendq bq ∨ be ∈ bq_busyq bq →
  let bq' := blockif_complete bc bq be in
  let key := be_block (elem_at bq be) in
  bq_freeq bq' = bq_freeq bq ++ [be]
  ∧ bq_pendq bq' = filter (λ i, i ≠ be) (bq_pendq bq)
  ∧ bq_busyq bq' = filter (λ i, i ≠ be) (bq_busyq bq)
  ∧ elem_at bq' be =
      {| be_req := None; be_op := be_op (elem_at bq be); be_status := BST_FREE;
         be_tid := 0; be_block := key |}
  ∧ ∀ i, i ≠ be →
      elem_at bq' i =
        if (bc_bst_block bc =? 1) && bool_decide (i ∈ bq_pendq bq)
           && unblocked_by key (elem_at bq i)
        then set_status BST_PEND (elem_at bq i)
        else elem_at bq i.
Proof.
  intros Hinv Hin bq' key.
  pose proof (queue_inv_nodup _ Hinv) as Hnd.
  apply NoDup_app in Hnd as (_ & Hfp & Hnd).
  apply NoDup_app in Hnd as (Hndp & Hpb & Hndb).
  assert (Hlt : (be < length (bq_reqs bq))%nat).
  { rewrite (inv_len _ Hinv). apply (queue_inv_lt bq be Hinv).
    rewrite !elem_of_app. tauto. }
  subst bq'. unfold blockif_complete.
  set (e := elem_at bq be).
  set (busy := bool_decide (be_status e = BST_DONE) || bool_decide (be_status e = BST_BUSY)).
  assert (Hlists : (if busy then bq_pendq bq else tailq_remove be (bq_pendq bq))
                   = filter (λ i, i ≠ be) (bq_pendq bq)
                   ∧ (if busy then tailq_remove be (bq_busyq bq) else bq_busyq bq)
                     = filter (λ i, i ≠ be) (bq_busyq bq)).
  { destruct Hin as [Hin|Hin].
    - assert (busy = false) as ->.
      { unfold busy, e. destruct (inv_pend _ Hinv be Hin) as [[-> | ->] _]; done. }
      split; [by apply tailq_remove_filter|].
      rewrite <- tailq_remove_filter by done. symmetry. apply tailq_remove_notin.
      intros Hb. by apply (Hpb be Hin).
    - assert (busy = true) as ->.
      { unfold busy, e. destruct (inv_busy _ Hinv be Hin) as [-> | ->]; done. }
      split; [|by apply tailq_remove_filter].
      rewrite <- tailq_remove_filter by done. symmetry. apply tailq_remove_notin.
      intros Hp. by apply (Hpb be Hp). }
  destruct Hlists as [Hp Hb]. rewrite Hp, Hb. simpl.
  set (reqs1 := if bc_bst_block bc =? 1 then _ else _).
  assert (Hreqs1 : ∀ i,
            default elem_zero (reqs1 !! i) =
              if (bc_bst_block bc =? 1)
                 && bool_decide (i ∈ filter (λ i, i ≠ be) (bq_pendq bq))
                 && unblocked_by (be_block e) (elem_at bq i)
              then set_status BST_PEND (elem_at bq i) else elem_at bq i).
  { intros i. unfold reqs1. destruct (bc_bst_block bc =? 1); simpl; [|done].
    apply unblock_fold_exact. }
  assert (Hlen1 : length reqs1 = length (bq_reqs bq)).
  { unfold reqs1. destruct (bc_bst_block bc =? 1); [|done]. apply unblock_fold. }
  split; [done|]. split; [done|]. split; [done|]. split.
  - unfold elem_at at 1; simpl. rewrite list_lookup_insert_eq by lia. simpl.
    rewrite Hreqs1.
    rewrite (bool_decide_eq_false_2 (be ∈ _)), andb_false_r; [done|].
    intros Hc. apply list_elem_of_filter in Hc as [Hc _]. done.
  - intros i Hi. unfold elem_at at 1; simpl.
    rewrite list_lookup_insert_ne by done. rewrite Hreqs1.
    destruct (decide (i ∈ bq_pendq bq)) as [Hip|Hip].
    + rewrite !bool_decide_eq_true_2; [done..|]. apply list_elem_of_filter. done.
    + rewrite !bool_decide_eq_false_2; [done..|].
      intros Hc. apply list_elem_of_filter in Hc as [_ Hc]. done.
Qed.

(** X2: [blockif_complete] on a queued slot appends it to the tail of
    freeq, takes it off pendq and busyq, clears its request and thread id,
    sets it FREE and keeps its key.  Of the other slots exactly those change
    that are on pendq with a request whose offset is the completed slot's
    key, and only when the interlock is on: they become PEND. *)
Theorem blockif_complete_unblocks bc bq be :
  queue_inv bq →
  be ∈ bq_pendq bq ∨ be ∈ bq_busyq bq →
  let bq' := blockif_complete bc bq be in
  let key := be_block (elem_at bq be) in
  bq_freeq bq' = bq_freeq bq ++ [be]
  ∧ bq_pendq bq' = filter (λ i, i ≠ be) (bq_pendq bq)
  ∧ bq_busyq bq' = filter (λ i, i ≠ be) (bq_busyq bq)
  ∧ elem_at bq' be =
      {| be_req := None; be_op := be_op (elem_at bq be); be_status := BST_FREE;
         be_tid := 0; be_block := key |}
  ∧ ∀ i, i ≠ be →
      elem_at bq' i =
        if (bc_bst_block bc =? 1) && bool_decide (i ∈ bq_pendq bq)
           && unblocked_by key (elem_at bq i)
        then set_status BST_PEND (elem_at bq i)
        else elem_at bq i.
Proof. apply blockif_complete_shape. Qed.

(** Without the interlock no slot is ever BLOCK. *)
Lemma enqueue_status_cases bc bq breq op i :
  elem_at (blockif_enqueue bc bq breq op).1 i = elem_at bq i
  ∨ be_status (elem_at (blockif_enqueue bc bq breq op).1 i) = BST_PEND
  ∨ (bc_bst_block bc = 1
     ∧ be_status (elem_at (blockif_enqueue bc bq breq op).1 i) = BST_BLOCK).
Proof.
  unfold blockif_enqueue. destruct (bq_freeq bq) as [|be rest]; [by left|].
  destruct (bool_decide _); [|by left]. unfold elem_at. cbn [fst bq_reqs].
  set (e2 := if bc_bst_block bc =? 1 then _ else _).
  assert (He2 : be_status e2 = BST_PEND
                ∨ (bc_bst_block bc = 1 ∧ be_status e2 = BST_BLOCK)).
  { unfold e2. destruct (Z.eqb_spec (bc_bst_block bc) 1) as [Hb|Hb]; [|by left].
    destruct (match find_block _ _ (bq_pendq bq) with Some t => Some t | None => _ end);
      simpl; [right; done|by left]. }
  clearbody e2.
  destruct (decide (i = be)) as [->|Hne].
  2:{ left. by rewrite list_lookup_insert_ne. }
  destruct (decide (be < length (bq_reqs bq))%nat) as [Hlt|Hge].
  2:{ left. by rewrite list_insert_ge by lia. }
  right. by rewrite list_lookup_insert_eq.
Qed.

Lemma reachable_no_block bc bq :
  reachable bc bq →
  bc_bst_block bc ≠ 1 →
  ∀ i, be_status (elem_at bq i) ≠ BST_BLOCK.
Proof.
  intros Hr Hb. induction Hr as [|bq breq op Hr IH|bq t Hr IH|bq be Hr IH Hin|bq be Hr IH Hin];
    intros i.
  - assert (Hr : bq_reqs queue_open = replicate BLOCKIF_MAXREQ elem_zero) by reflexivity.
    unfold elem_at. rewrite Hr.
    destruct (replicate BLOCKIF_MAXREQ elem_zero !! i) as [e|] eqn:E; [|done].
    apply lookup_replicate in E as [-> _]. done.
  - destruct (enqueue_status_cases bc bq breq op i) as [-> | [-> | [Hc _]]]; [apply IH|done..].
  - unfold blockif_dequeue. destruct (find _ _) as [be|]; [|apply IH]. simpl.
    unfold elem_at; simpl. destruct (decide (i = be)) as [->|Hne].
    + destruct (decide (be < length (bq_reqs bq))%nat).
      * by rewrite list_lookup_insert_eq.
      * rewrite list_insert_ge by lia. apply IH.
    + rewrite list_lookup_insert_ne by done. apply IH.
  - unfold blockif_proc_done, elem_at; simpl. destruct (decide (i = be)) as [->|Hne].
    + destruct (decide (be < length (bq_reqs bq))%nat).
      * by rewrite list_lookup_insert_eq.
      * rewrite list_insert_ge by lia. apply IH.
    + rewrite list_lookup_insert_ne by done. apply IH.
  - pose proof (reachable_inv _ _ Hr) as Hinv.
    destruct (blockif_complete_shape bc bq be Hinv Hin) as (_ & _ & _ & Hbe & Hoth).
    destruct (decide (i = be)) as [->|Hne]; [by rewrite Hbe|].
    rewrite (Hoth i Hne). apply Z.eqb_neq in Hb. rewrite Hb. apply IH.
Qed.

(** X3: on a descriptor whose interlock is off ([bst_block] is not 1)
    no slot of a queue is ever BLOCK, whatever is submitted, taken, processed
    and completed. *)
Theorem no_block_without_interlock bc bq :
  reachable bc bq →
  bc_bst_block bc ≠ 1 →
  ∀ i, be_status (elem_at bq i) ≠ BST_BLOCK.
Proof. apply reachable_no_block. Qed.

Lemma before_subseteq i l j : j ∈ before i l → j ∈ l.
Proof.
  induction l as [|x l IH]; simpl; [done|].
  destruct (Nat.eqb x i); [intros H; by apply elem_of_nil in H|].
  intros H. apply elem_of_cons in H as [->|H]; [left|right; auto].
Qed.

Lemma before_app_in i l l2 : i ∈ l → before i (l ++ l2) = before i l.
Proof.
  induction l as [|x l IH]; intros Hi; [by apply elem_of_nil in Hi|]. simpl.
  destruct (Nat.eqb_spec x i) as [->|Hne]; [done|].
  apply elem_of_cons in Hi as [->|Hi]; [done|]. by rewrite IH.
Qed.

Lemma before_app_notin i l : i ∉ l → before i (l ++ [i]) = l.
Proof.
  induction l as [|x l IH]; intros Hi; simpl.
  - by rewrite Nat.eqb_refl.
  - apply not_elem_of_cons in Hi as [Hne Hi].
    destruct (Nat.eqb_spec x i); [congruence|]. by rewrite IH.
Qed.

Lemma before_filter i be l j :
  j ∈ before i l → j ≠ be → j ∈ before i (filter (λ k, k ≠ be) l).
Proof.
  induction l as [|x l IH]; simpl; [done|].
  destruct (Nat.eqb_spec x i) as [->|Hne]; [intros H; by apply elem_of_nil in H|].
  intros Hj Hjb. destruct (decide (x = be)) as [->|Hxb].
  - rewrite filter_cons_False by (intros ?; done).
    apply elem_of_cons in Hj as [->|Hj]; [done|]. by apply IH.
  - rewrite filter_cons_True by done. simpl.
    destruct (Nat.eqb_spec x i); [done|].
    apply elem_of_cons in Hj as [->|Hj]; [left|right; by apply IH].
Qed.

(** What [blockif_enqueue] does to a queue with a free slot, interlock on. *)
Lemma enqueue_interlock_shape bc bq breq op be rest :
  bc_bst_block bc = 1 →
  queue_inv bq →
  bq_freeq bq = be :: rest →
  let bq' := (blockif_enqueue bc bq breq op).1 in
  bq_pendq bq' = bq_pendq bq ++ [be]
  ∧ bq_busyq bq' = bq_busyq bq
  ∧ be_req (elem_at bq' be) = Some breq
  ∧ (be_status (elem_at bq' be) = BST_BLOCK →
     ∃ t, t ∈ bq_pendq bq ++ bq_busyq bq ∧ be_block (elem_at bq t) = br_offset breq)
  ∧ ∀ i, i ≠ be → elem_at bq' i = elem_at bq i.
Proof.
  intros Hbst Hinv Hf.
  pose proof (queue_inv_nodup _ Hinv) as Hnd.
  pose proof (queue_inv_lt bq be Hinv) as Hlt.
  assert (Hs : be_status (elem_at bq be) = BST_FREE).
  { apply Hinv. rewrite Hf. left. }
  assert (Hbe : (be < length (bq_reqs bq))%nat).
  { rewrite (inv_len _ Hinv). apply Hlt. rewrite Hf. left. }
  rewrite Hf in Hnd. simpl in Hnd. apply NoDup_cons in Hnd as [Hnin _].
  unfold blockif_enqueue. rewrite Hf, Hs, Hbst. cbn [bool_decide decide_rel].
  rewrite bool_decide_eq_true_2 by done. cbn [fst Z.eqb Pos.eqb].
  set (e := set_block (block_key breq op) _).
  set (reqs1 := <[be := e]> (bq_reqs bq)).
  set (tbe := match find_block reqs1 (br_offset breq) (bq_pendq bq) with
              | Some t => Some t
              | None => find_block reqs1 (br_offset breq) (bq_busyq bq)
              end).
  assert (Htbe : is_Some tbe →
                 ∃ t, t ∈ bq_pendq bq ++ bq_busyq bq
                      ∧ be_block (elem_at bq t) = br_offset breq).
  { intros [t Ht]. unfold tbe in Ht.
    assert (Hin : t ∈ bq_pendq bq ++ bq_busyq bq
                  ∧ be_block (default elem_zero (reqs1 !! t)) = br_offset breq).
    { destruct (find_block reqs1 _ (bq_pendq bq)) as [t1|] eqn:E1.
      - injection Ht as <-. apply find_block_some in E1 as [Hin Hk].
        rewrite elem_of_app. auto.
      - apply find_block_some in Ht as [Hin Hk]. rewrite elem_of_app. auto. }
    destruct Hin as [Hin Hk]. exists t. split; [done|].
    unfold reqs1 in Hk. rewrite list_lookup_insert_ne in Hk; [done|].
    intros ->. apply Hnin. rewrite elem_of_app. auto. }
  clearbody tbe. unfold elem_at; cbn [bq_pendq bq_busyq bq_reqs].
  rewrite list_lookup_insert_eq by done.
  split; [done|]. split; [done|]. split; [by destruct tbe|]. split.
  - intros Hst. apply Htbe. destruct tbe; [done|]. done.
  - intros i Hi. by rewrite list_lookup_insert_ne.
Qed.

Lemma blockers_enqueue bc bq breq op :
  bc_bst_block bc = 1 → queue_inv bq → blockers_ahead bq →
  blockers_ahead (blockif_enqueue bc bq breq op).1.
Proof.
  intros Hb Hinv IH.
  destruct (bq_freeq bq) as [|be rest] eqn:Hf; [by rewrite enqueue_empty|].
  destruct (enqueue_interlock_shape bc bq breq op be rest Hb Hinv Hf)
    as (Hp & Hbq & Hreq & Hblk & Hoth).
  pose proof (queue_inv_nodup _ Hinv) as Hnd.
  rewrite Hf in Hnd. simpl in Hnd. apply NoDup_cons in Hnd as [Hnin _].
  assert (Hne : ∀ t, t ∈ bq_pendq bq ++ bq_busyq bq → t ≠ be).
  { intros t Ht ->. apply Hnin. rewrite elem_of_app. auto. }
  intros i Hi Hst. rewrite Hp, Hbq in *.
  apply elem_of_app in Hi as [Hi|Hi].
  - assert (i ≠ be) as Hib by (apply Hne; rewrite elem_of_app; auto).
    rewrite (Hoth i Hib) in Hst. destruct (IH i Hi Hst) as (j & Hj & Hu).
    exists j. rewrite before_app_in by done. split; [done|].
    assert (j ≠ be) as Hjb.
    { apply Hne. rewrite elem_of_app in *. destruct Hj as [Hj|Hj]; [|auto].
      left. by apply before_subseteq in Hj. }
    by rewrite (Hoth i Hib), (Hoth j Hjb).
  - apply list_elem_of_singleton in Hi as ->.
    destruct (Hblk Hst) as (t & Ht & Hk).
    exists t. rewrite before_app_notin.
    2:{ intros Hc. apply Hnin. rewrite !elem_of_app. auto. }
    split; [done|]. rewrite (Hoth t (Hne t Ht)).
    unfold unblocked_by. rewrite Hreq, Hk. apply Z.eqb_refl.
Qed.

Lemma blockers_dequeue bq t :
  queue_inv bq → blockers_ahead bq → blockers_ahead (blockif_dequeue bq t).1.1.
Proof.
  intros Hinv IH.
  pose proof (blockif_dequeue_shape bq t Hinv) as Hd.
  destruct (blockif_dequeue bq t) as [[bq' ret] [be|]]; cbn [fst] in *.
  2:{ destruct Hd as (_ & -> & _). done. }
  destruct Hd as (_ & (pre & post & Hq & Hpre & Hq') & Hst & Hbq & _ & Hbe & Hoth).
  pose proof (queue_inv_nodup _ Hinv) as Hnd.
  apply NoDup_app in Hnd as (_ & _ & Hnd). apply NoDup_app in Hnd as (Hndp & _ & _).
  assert (Hq'' : bq_pendq bq' = filter (λ k, k ≠ be) (bq_pendq bq)).
  { rewrite <- tailq_remove_filter by done. rewrite Hq, Hq'.
    rewrite Hq in Hndp. apply NoDup_app in Hndp as (_ & Hd & _).
    symmetry. apply tailq_remove_app_notin. intros Hc. apply (Hd be Hc). left. }
  intros i Hi Hsti.
  assert (Hib : i ≠ be).
  { intros ->. rewrite Hq'' in Hi. apply list_elem_of_filter in Hi as [Hi _]. done. }
  rewrite (Hoth i Hib) in Hsti.
  assert (Hi' : i ∈ bq_pendq bq).
  { rewrite Hq'' in Hi. by apply list_elem_of_filter in Hi as [_ Hi]. }
  destruct (IH i Hi' Hsti) as (j & Hj & Hu).
  exists j. rewrite (Hoth i Hib). split.
  - rewrite Hq'', Hbq, !elem_of_app. apply elem_of_app in Hj as [Hj|Hj].
    + destruct (decide (j = be)) as [->|Hjb]; [right; right; left|].
      left. by apply before_filter.
    + right. left. done.
  - destruct (decide (j = be)) as [->|Hjb]; [by rewrite Hbe|by rewrite (Hoth j Hjb)].
Qed.

(** A busy slot may change its status and its request, as long as the key
    stays. *)
Lemma blockers_set_busy bq be e :
  queue_inv bq → be ∈ bq_busyq bq →
  be_block e = be_block (elem_at bq be) →
  blockers_ahead bq → blockers_ahead (set_reqs bq (<[be := e]> (bq_reqs bq))).
Proof.
  intros Hinv Hin Hblk IH i Hi Hst.
  unfold elem_at in *; cbn [set_reqs bq_pendq bq_busyq bq_reqs] in *.
  pose proof (queue_inv_nodup _ Hinv) as Hnd.
  apply NoDup_app in Hnd as (_ & _ & Hnd). apply NoDup_app in Hnd as (_ & Hpb & _).
  assert (Hib : be ≠ i) by (intros ->; by apply (Hpb i Hi)).
  rewrite list_lookup_insert_ne in Hst by done.
  destruct (IH i Hi Hst) as (j & Hj & Hu). exists j. split; [done|].
  rewrite (list_lookup_insert_ne _ be i) by done.
  destruct (decide (be = j)) as [->|Hjb]; [|by rewrite list_lookup_insert_ne].
  destruct (decide (j < length (bq_reqs bq))%nat).
  - rewrite list_lookup_insert_eq by done. simpl. by rewrite Hblk.
  - by rewrite list_insert_ge by lia.
Qed.

Lemma blockers_complete bc bq be :
  bc_bst_block bc = 1 → queue_inv bq → be ∈ bq_pendq bq ∨ be ∈ bq_busyq bq →
  blockers_ahead bq → blockers_ahead (blockif_complete bc bq be).
Proof.
  intros Hb Hinv Hin IH.
  destruct (blockif_complete_shape bc bq be Hinv Hin) as (_ & Hp & Hbq & Hbe & Hoth).
  intros i Hi Hst. rewrite Hp in Hi. apply list_elem_of_filter in Hi as [Hib Hi].
  rewrite (Hoth i Hib), Hb, (bool_decide_eq_true_2 _ Hi) in Hst. simpl in Hst.
  destruct (unblocked_by (be_block (elem_at bq be)) (elem_at bq i)) eqn:Hub; [done|].
  destruct (IH i Hi Hst) as (j & Hj & Hu).
  assert (Hjb : j ≠ be) by (intros ->; congruence).
  exists j. split.
  - rewrite Hp, Hbq, elem_of_app. apply elem_of_app in Hj as [Hj|Hj].
    + left. by apply before_filter.
    + right. apply list_elem_of_filter. done.
  - rewrite (Hoth i Hib), (Hoth j Hjb), Hb, (bool_decide_eq_true_2 _ Hi), Hub. simpl.
    destruct (_ && _); done.
Qed.

Lemma reachable_blockers_ahead bc bq : reachable bc bq → blockers_ahead bq.
Proof.
  intros Hr. destruct (decide (bc_bst_block bc = 1)) as [Hb|Hb].
  - induction Hr as [|bq breq op Hr IH|bq t Hr IH|bq be Hr IH Hin|bq be Hr IH Hin].
    + intros i Hi. by apply elem_of_nil in Hi.
    + apply blockers_enqueue; [done|by eapply reachable_inv|done].
    + apply blockers_dequeue; [by eapply reachable_inv|done].
    + apply blockers_set_busy; [by eapply reachable_inv|done| |done].
      unfold elem_at. destruct (bq_reqs bq !! be); done.
    + apply blockers_complete; [done|by eapply reachable_inv|done|done].
  - intros i _ Hst. by apply (reachable_no_block bc bq Hr Hb) in Hst.
Qed.

(** X5: the interlock never strands a request: in every reachable
    queue a BLOCK slot on pendq has a slot queued before it (ahead of it on
    pendq, or on busyq) whose key is the offset of its request, so that a
    completion which promotes it is still to come. *)
Theorem blockers_ahead_reachable bc bq : reachable bc bq → blockers_ahead bq.
Proof. apply reachable_blockers_ahead. Qed.

Lemma enqueue_all_cons bc bq breq op l :
  enqueue_all bc bq ((breq, op) :: l) =
    ((enqueue_all bc (blockif_enqueue bc bq breq op).1 l).1,
     (blockif_enqueue bc bq breq op).2 :: (enqueue_all bc (blockif_enqueue bc bq breq op).1 l).2).
Proof.
  cbn [enqueue_all]. destruct (blockif_enqueue bc bq breq op) as [bq1 r].
  cbn [fst snd]. by destruct (enqueue_all bc bq1 l).
Qed.

Lemma enqueue_all_lengths bc l : ∀ bq,
  queue_inv bq →
  let n := (length l `min` length (bq_freeq bq))%nat in
  queue_inv (enqueue_all bc bq l).1
  ∧ length (enqueue_all bc bq l).2 = length l
  ∧ length (bq_freeq (enqueue_all bc bq l).1) = (length (bq_freeq bq) - n)%nat
  ∧ length (bq_pendq (enqueue_all bc bq l).1) = (length (bq_pendq bq) + n)%nat
  ∧ bq_busyq (enqueue_all bc bq l).1 = bq_busyq bq
  ∧ (∀ k r, (enqueue_all bc bq l).2 !! k = Some r →
            (length (bq_freeq bq) <= k)%nat → r = 0).
Proof.
  induction l as [|[breq op] l IH]; intros bq Hinv n.
  - subst n. cbn. split_and!; try done; try lia.
  - rewrite enqueue_all_cons. cbn [fst snd].
    pose proof (enqueue_inv bc bq breq op Hinv) as Hinv1.
    destruct (IH _ Hinv1) as (Hi & Hl & Hf & Hp & Hb & Hr).
    destruct (bq_freeq bq) as [|be rest] eqn:Hfq.
    + rewrite (enqueue_empty bc bq breq op Hfq) in *. cbn [fst snd] in *.
      rewrite Hfq in *. subst n. cbn [length] in *.
      rewrite Nat.min_0_r in *.
      split_and!; try done; try lia.
      intros k r Hk _. destruct k as [|k]; cbn in Hk; [congruence|].
      apply (Hr k r Hk). cbn. lia.
    + assert (Hs : be_status (elem_at bq be) = BST_FREE).
      { apply Hinv. rewrite Hfq. left. }
      destruct (enqueue_shape bc bq breq op be rest Hfq Hs) as (e2 & Heq & _).
      rewrite Heq in *. cbn [fst snd bq_freeq bq_pendq bq_busyq] in *.
      subst n. rewrite length_app in Hp. cbn [length] in *.
      split_and!; try done; try lia.
      intros k r Hk Hge. destruct k as [|k]; [lia|]. cbn in Hk.
      apply (Hr k r Hk). lia.
Qed.

(** X4: submissions in a row to a fresh queue: the first 72
    ([BLOCKIF_MAXREQ]) are queued and every later one is refused with 0; up
    to [blockif_queuesz] (71) submissions are all queued and leave a free
    slot. *)
Theorem queue_capacity bc l :
  let bq' := (enqueue_all bc queue_open l).1 in
  let rs := (enqueue_all bc queue_open l).2 in
  length (bq_pendq bq') = (length l `min` BLOCKIF_MAXREQ)%nat
  ∧ length (bq_freeq bq') = (BLOCKIF_MAXREQ - length l)%nat
  ∧ (∀ k r, rs !! k = Some r → (BLOCKIF_MAXREQ <= k)%nat → r = 0)
  ∧ (Z.of_nat (length l) <= blockif_queuesz bc →
     length (bq_pendq bq') = length l ∧ bq_freeq bq' ≠ []).
Proof.
  intros bq' rs.
  destruct (enqueue_all_lengths bc l queue_open queue_open_inv) as (_ & _ & Hf & Hp & _ & Hr).
  assert (Hlen : length (bq_freeq queue_open) = BLOCKIF_MAXREQ) by reflexivity.
  assert (Hpl : length (bq_pendq queue_open) = 0%nat) by reflexivity.
  rewrite Hlen in *. rewrite Hpl in Hp.
  subst bq' rs. split; [lia|]. split; [lia|]. split; [exact Hr|].
  unfold blockif_queuesz. intros Hq. split; [lia|].
  intros Hnil. rewrite Hnil in Hf. cbn [length] in Hf. lia.
Qed.

(** ** The bounce window *)

(** The values [blockif_init_alignment_info] computes, for use below. *)
Lemma alignment_info_values bc br :
  let info := br_align (blockif_init_alignment_info bc br) in
  let a := bc_sectsz bc in
  let start := br_offset br + bc_sub_file_start_lba bc in
  let org_size := sum_iov_len (br_iov br) in
  let end_ := start + org_size in
  (bc_bypass_host_cache bc = 0 → info_need_conversion info = false)
  ∧ (bc_bypass_host_cache bc ≠ 0 →
     0 < a <= INT_MAX →
     Forall iovec_wf (br_iov br) →
     0 <= start →
     end_ <= OFF_MAX →
     org_size + 2 * a <= UINT32_MAX →
     (info_need_conversion info = true
      ↔ start mod a ≠ 0
        ∨ Exists (fun v => iov_base v mod a ≠ 0) (br_iov br)
        ∨ Exists (fun v => iov_len v mod a ≠ 0) (br_iov br))
     ∧ (info_need_conversion info = true →
        info_alignment info = a
        ∧ info_org_size info = org_size
        ∧ info_head info = start mod a
        ∧ info_aligned_dn_start info = start - start mod a
        ∧ info_tail info = (if end_ mod a =? 0 then 0 else a - end_ mod a)
        ∧ info_aligned_dn_end info = end_ - end_ mod a
        ∧ info_bounced_size info
          = info_head info + info_org_size info + info_tail info)).
Proof.
  intros info a start org_size end_. subst info. split.
  { intros Hb. unfold blockif_init_alignment_info. by rewrite Hb. }
  intros Hb Ha Hwf Hs He Hsz.
  pose proof (sum_iov_len_nonneg _ Hwf) as Hnn. fold org_size in Hnn.
  assert (Hal : to_uint32 (bc_sectsz bc) = a).
  { apply to_uint32_small. unfold INT_MAX, UINT32_MAX in *. fold a. lia. }
  assert (Hst : to_off_t (br_offset br + bc_sub_file_start_lba bc) = start).
  { apply to_off_t_small. fold start. lia. }
  unfold blockif_init_alignment_info.
  apply Z.eqb_neq in Hb. rewrite Hb, Hal, Hst.
  unfold blockif_init_iov_align_info. simpl.
  rewrite iov_align_fold. simpl.
  assert (Horg : to_uint32 (fold_left (fun s v => to_int (s + iov_len v)) (br_iov br) 0)
                 = org_size).
  { rewrite iov_size_fold. simpl. apply to_uint32_small. fold org_size. lia. }
  rewrite Horg.
  rewrite (rem_zero_iff start a) by lia.
  set (fb := forallb _ (br_iov br)). set (fl := forallb _ (br_iov br)).
  assert (Hcond : (start mod a =? 0) && fb && fl = false
                  ↔ start mod a ≠ 0
                    ∨ Exists (fun v => iov_base v mod a ≠ 0) (br_iov br)
                    ∨ Exists (fun v => iov_len v mod a ≠ 0) (br_iov br)).
  { rewrite !andb_false_iff, Z.eqb_neq.
    unfold fb, fl. rewrite forallb_aligned_base, forallb_aligned_len by (done || lia).
    tauto. }
  destruct ((start mod a =? 0) && fb && fl) eqn:Hall; simpl.
  - split; [|done]. split; [done|]. intros H. apply Hcond in H. done.
  - split; [split; [intros _; by apply Hcond|done]|]. intros _.
    pose proof (Z.mod_pos_bound start a ltac:(lia)) as Hm1.
    pose proof (Z.mod_pos_bound end_ a ltac:(lia)) as Hm2.
    pose proof (Z.mod_le start a ltac:(lia) ltac:(lia)) as Hm3.
    pose proof (Z.mod_le end_ a ltac:(lia) ltac:(lia)) as Hm4.
    assert (Hhead : to_uint32 (Z.rem start a) = start mod a).
    { rewrite Z.rem_mod_nonneg by lia. apply to_uint32_small. lia. }
    assert (Hend : to_off_t (start + org_size) = end_).
    { apply to_off_t_small. fold end_. lia. }
    rewrite Hhead, Hend.
    assert (Hrmd : to_uint32 (Z.rem end_ a) = end_ mod a).
    { rewrite Z.rem_mod_nonneg by lia. apply to_uint32_small. lia. }
    rewrite Hrmd.
    assert (Htail : (if end_ mod a =? 0 then 0 else to_uint32 (a - end_ mod a))
                    = (if end_ mod a =? 0 then 0 else a - end_ mod a)).
    { destruct (end_ mod a =? 0); [done|]. apply to_uint32_small. lia. }
    rewrite Htail.
    repeat split.
    + apply to_off_t_small. lia.
    + apply to_off_t_small. lia.
    + apply to_uint32_small. destruct (end_ mod a =? 0); lia.
Qed.

(** X9: for a request whose start is not negative, whose end fits an
    [off_t] and whose total length plus two sectors fits 32 bits (the
    sector size being a positive [int]), the window computed for a
    conversion is made of whole sectors and covers the request: its start,
    its size and the start of its last sector are multiples of the sector
    size, the request starts [head] bytes into it and ends [tail] bytes
    before its end, and [head] and [tail] are less than one sector. *)
Theorem bounce_window_covers bc br :
  let info := br_align (blockif_init_alignment_info bc br) in
  let a := bc_sectsz bc in
  let start := br_offset br + bc_sub_file_start_lba bc in
  let end_ := start + sum_iov_len (br_iov br) in
  bc_bypass_host_cache bc ≠ 0 →
  0 < a <= INT_MAX →
  Forall iovec_wf (br_iov br) →
  0 <= start →
  end_ <= OFF_MAX →
  sum_iov_len (br_iov br) + 2 * a <= UINT32_MAX →
  info_need_conversion info = true →
  (a | info_aligned_dn_start info)
  ∧ (a | info_bounced_size info)
  ∧ (a | info_aligned_dn_end info)
  ∧ info_aligned_dn_start info + info_head info = start
  ∧ info_aligned_dn_start info + info_bounced_size info = end_ + info_tail info
  ∧ 0 <= info_head info < a
  ∧ 0 <= info_tail info < a
  ∧ (info_tail info ≠ 0 →
     info_aligned_dn_end info = info_aligned_dn_start info + info_bounced_size info - a).
Proof.
  intros info a start end_ Hb Ha Hwf Hs He Hsz Hn.
  destruct (proj2 (alignment_info_values bc br) Hb Ha Hwf Hs He Hsz) as [_ Hv].
  destruct (Hv Hn) as (Hal & Horg & Hh & Hds & Ht & Hde & Hbs).
  fold info a start end_ in Hal, Horg, Hh, Hds, Ht, Hde, Hbs.
  fold start in Hh, Hds. 
  pose proof (eq_refl : end_ = start + sum_iov_len (br_iov br)) as Hend.
  pose proof (sum_iov_len_nonneg _ Hwf) as Hnn.
  clearbody end_ start info.
  pose proof (Z.mod_pos_bound start a ltac:(lia)) as Hm1.
  pose proof (Z.mod_pos_bound end_ a ltac:(lia)) as Hm2.
  pose proof (Z_div_mod_eq_full start a) as He1.
  pose proof (Z_div_mod_eq_full end_ a) as He2.
  rewrite Hbs, Hh, Hds, Horg, Hde, Ht.
  assert (Hd1 : (a | start - start mod a)).
  { exists (start / a). lia. }
  assert (Hd2 : (a | end_ - end_ mod a)).
  { exists (end_ / a). lia. }
  split; [done|]. split.
  { replace (start mod a + sum_iov_len (br_iov br)
             + (if end_ mod a =? 0 then 0 else a - end_ mod a))
      with ((if end_ mod a =? 0 then end_ - end_ mod a else end_ - end_ mod a + a)
            - (start - start mod a)).
    - apply Z.divide_sub_r; [|done]. destruct (end_ mod a =? 0); [done|].
      apply Z.divide_add_r; [done|apply Z.divide_refl].
    - destruct (Z.eqb_spec (end_ mod a) 0); lia. }
  split; [done|]. split; [lia|]. split.
  { destruct (Z.eqb_spec (end_ mod a) 0); lia. }
  split; [lia|]. split.
  { destruct (Z.eqb_spec (end_ mod a) 0); lia. }
  destruct (Z.eqb_spec (end_ mod a) 0); [done|]. intros _. lia.
Qed.

(** ** Filling the bounce buffer for a write *)

Lemma memcpy_inside dst src n m a :
  dst <= a < dst + n → memcpy dst src n m a = m (src + (a - dst)).
Proof.
  intros H. unfold memcpy.
  destruct (Z.leb_spec dst a); destruct (Z.ltb_spec a (dst + n)); simpl; (done || lia).
Qed.

Lemma memcpy_outside dst src n m a :
  ¬ (dst <= a < dst + n) → memcpy dst src n m a = m a.
Proof.
  intros H. unfold memcpy.
  destruct (Z.leb_spec dst a); destruct (Z.ltb_spec a (dst + n)); simpl; (done || lia).
Qed.

Lemma gather_at_ext m1 m iov :
  (∀ v j, v ∈ iov → 0 <= j < iov_len v → m1 (iov_base v + j) = m (iov_base v + j)) →
  ∀ k, 0 <= k → gather_at m1 iov k = gather_at m iov k.
Proof.
  induction iov as [|v iov IH]; intros Hm k Hk; simpl; [done|].
  destruct (Z.ltb_spec k (iov_len v)).
  - apply Hm; [left|lia].
  - apply IH; [|lia]. intros u j Hu Hj. apply Hm; [by right|done].
Qed.

Lemma sum_iov_len_cons v iov : sum_iov_len (v :: iov) = iov_len v + sum_iov_len iov.
Proof. done. Qed.

(** The copy of the caller's segments into the bounce buffer. *)
Lemma bounced_write_body_fold B iov : ∀ done m,
  Forall iovec_wf iov →
  0 <= done →
  done + sum_iov_len iov <= INT_MAX →
  Forall (seg_outside (B + done) (B + done + sum_iov_len iov)) iov →
  ∃ m',
    fold_left (bounced_write_body B) iov (done, m) = (done + sum_iov_len iov, m')
    ∧ (∀ a, ¬ (B + done <= a < B + done + sum_iov_len iov) → m' a = m a)
    ∧ (∀ k, 0 <= k < sum_iov_len iov → m' (B + done + k) = gather_at m iov k).
Proof.
  induction iov as [|v iov IH]; intros done m Hwf Hd Hmax Hout.
  - exists m. simpl. split; [f_equal; lia|]. split; [done|]. intros k Hk. lia.
  - apply Forall_cons in Hwf as [[_ Hv] Hwf].
    apply Forall_cons in Hout as [Hov Hout].
    pose proof (sum_iov_len_nonneg _ Hwf) as Hnn.
    rewrite sum_iov_len_cons in *.
    cbn [fold_left bounced_write_body].
    rewrite to_int_small by (unfold INT_MAX in *; lia).
    set (m1 := memcpy (B + done) (iov_base v) (iov_len v) m).
    destruct (IH (done + iov_len v) m1 Hwf ltac:(lia) ltac:(lia)) as (m' & Hf & Hfr & Hg).
    { eapply Forall_impl; [exact Hout|]. intros u [Hu|Hu]; [left|right]; lia. }
    exists m'. split; [rewrite Hf; f_equal; lia|]. split.
    + intros a Ha. rewrite Hfr by lia. unfold m1. apply memcpy_outside. lia.
    + intros k Hk. simpl. destruct (Z.ltb_spec k (iov_len v)).
      * rewrite Hfr by lia. unfold m1. rewrite memcpy_inside by lia. f_equal. lia.
      * replace (B + done + k) with (B + (done + iov_len v) + (k - iov_len v)) by lia.
        rewrite Hg by lia. apply gather_at_ext; [|lia].
        intros u j Hu Hj. unfold m1. apply memcpy_outside.
        rewrite Forall_forall in Hout. destruct (Hout u Hu) as [Ho|Ho]; lia.
Qed.

Lemma free_iov_null h : free_iov (mk_iovec 0 0) h = h.
Proof. done. Qed.

Lemma free_iov_nonnull p n h : p ≠ 0 → free_iov (mk_iovec p n) h = emit (EvFree p) h.
Proof. intros Hp. unfold free_iov. simpl. apply Z.eqb_neq in Hp. by rewrite Hp. Qed.

(** The layout of the bounce buffer in terms of the memory the two reads
    leave. *)
Lemma bounced_write_layout_mem env bc br h Hb Tb h1 h2 :
  let info := br_align br in
  let B := iov_base (info_bounce_iov info) in
  let a := info_alignment info in
  let head := info_head info in
  let tail := info_tail info in
  let org := sum_iov_len (br_iov br) in
  B ≠ 0 →
  Forall iovec_wf (br_iov br) →
  0 <= head → 0 <= tail → head + org + tail <= INT_MAX →
  (if head =? 0 then Hb = 0 ∧ h1 = h
   else Hb ≠ 0
        ∧ blockif_read_head_or_tail_area env (mk_iovec 0 0) (info_aligned_dn_start info) a h
          = (0, mk_iovec Hb a, h1)) →
  (if tail =? 0 then Tb = 0 ∧ h2 = h1
   else Tb ≠ 0
        ∧ blockif_read_head_or_tail_area env (mk_iovec 0 0) (info_aligned_dn_end info) a h1
          = (0, mk_iovec Tb a, h2)) →
  Forall (seg_outside B (B + head + org + tail)) (br_iov br) →
  (tail ≠ 0 → seg_outside B (B + head + org + tail) (mk_iovec (Tb + a - tail) tail)) →
  ∃ m',
    blockif_init_bounced_write env bc br h =
      (0, {| h_mem := m'; h_disk := h_disk h2;
             h_trace := h_trace h2 ++ (if head =? 0 then [] else [EvFree Hb])
                                   ++ (if tail =? 0 then [] else [EvFree Tb]) |})
    ∧ (∀ k, 0 <= k < head → m' (B + k) = h_mem h2 (Hb + k))
    ∧ (∀ k, 0 <= k < org → m' (B + head + k) = gather_at (h_mem h2) (br_iov br) k)
    ∧ (∀ k, 0 <= k < tail → m' (B + head + org + k) = h_mem h2 (Tb + a - tail + k))
    ∧ (∀ x, ¬ (B <= x < B + head + org + tail) → m' x = h_mem h2 x).
Proof.
  intros info B a head tail org HB Hwf Hh Ht Hmax Hhead Htail Hiov Hto.
  pose proof (sum_iov_len_nonneg _ Hwf) as Hnn. fold org in Hnn.
  unfold seg_outside in Hto. cbn [iov_base iov_len] in Hto.
  unfold blockif_init_bounced_write.
  fold info. fold B. fold a. fold head. fold tail.
  apply Z.eqb_neq in HB as HB'. rewrite HB'.
  (* the two reads *)
  set (r1 := if negb (head =? 0)
             then blockif_read_head_or_tail_area env (mk_iovec 0 0)
                    (info_aligned_dn_start info) a h
             else (0, mk_iovec 0 0, h)).
  assert (Hr1 : r1 = (0, mk_iovec Hb (if head =? 0 then 0 else a), h1)).
  { unfold r1. destruct (head =? 0); simpl.
    - destruct Hhead as [-> ->]. done.
    - by destruct Hhead as [_ ->]. }
  rewrite Hr1. cbn [Z.ltb Z.compare andb].
  rewrite andb_false_r.
  set (r2 := if negb (tail =? 0)
             then blockif_read_head_or_tail_area env (mk_iovec 0 0)
                    (info_aligned_dn_end info) a h1
             else (0, mk_iovec 0 0, h1)).
  assert (Hr2 : r2 = (0, mk_iovec Tb (if tail =? 0 then 0 else a), h2)).
  { unfold r2. destruct (tail =? 0); simpl.
    - destruct Htail as [-> ->]. done.
    - by destruct Htail as [_ ->]. }
  rewrite Hr2. cbn [Z.ltb Z.compare andb iov_base].
  rewrite andb_false_r.
  (* the head part *)
  set (st0 := if negb (Hb =? 0)
              then (to_int (0 + head), memcpy B Hb head (h_mem h2)) else (0, h_mem h2)).
  assert (Hst0 : ∃ m3, st0 = (head, m3)
                 ∧ (∀ k, 0 <= k < head → m3 (B + k) = h_mem h2 (Hb + k))
                 ∧ (∀ x, ¬ (B <= x < B + head) → m3 x = h_mem h2 x)).
  { unfold st0. destruct (Z.eqb_spec head 0) as [H0|H0].
    - destruct Hhead as [-> _]. simpl. exists (h_mem h2).
      split; [by rewrite H0|]. split; [intros; lia|done].
    - destruct Hhead as [Hnz _]. apply Z.eqb_neq in Hnz. rewrite Hnz. simpl.
      rewrite to_int_small by (unfold INT_MAX in *; lia).
      exists (memcpy B Hb head (h_mem h2)). split; [done|]. split.
      + intros k Hk. rewrite memcpy_inside by lia. f_equal. lia.
      + intros x Hx. by apply memcpy_outside. }
  destruct Hst0 as (m3 & -> & Hm3h & Hm3o).
  (* the caller's segments *)
  destruct (bounced_write_body_fold B (br_iov br) head m3 Hwf Hh ltac:(lia))
    as (m4 & Hfold & Hm4o & Hm4g).
  { eapply Forall_impl; [exact Hiov|]. intros u [Hu|Hu]; [left|right]; fold org; lia. }
  rewrite Hfold. fold org in Hm4o, Hm4g |- *.
  (* the tail part *)
  set (m5 := if negb (Tb =? 0)
             then memcpy (B + (head + org)) (Tb + a - tail) tail m4 else m4).
  assert (Hm5 : (∀ k, 0 <= k < tail → m5 (B + head + org + k) = m4 (Tb + a - tail + k))
                ∧ (∀ x, ¬ (B + head + org <= x < B + head + org + tail) → m5 x = m4 x)).
  { unfold m5. destruct (Z.eqb_spec tail 0) as [H0|H0].
    - destruct Htail as [-> _]. simpl. split; [intros; lia|done].
    - destruct Htail as [Hnz _]. apply Z.eqb_neq in Hnz. rewrite Hnz. simpl. split.
      + intros k Hk. rewrite memcpy_inside by lia. f_equal. lia.
      + intros x Hx. apply memcpy_outside. lia. }
  destruct Hm5 as [Hm5t Hm5o]. clearbody m5.
  assert (Hsrc : ∀ u j, u ∈ br_iov br → 0 <= j < iov_len u →
                        m3 (iov_base u + j) = h_mem h2 (iov_base u + j)).
  { intros u j Hu Hj. apply Hm3o. rewrite Forall_forall in Hiov.
    destruct (Hiov u Hu) as [Ho|Ho]; lia. }
  exists m5. split.
  - unfold bounced_write_end. f_equal.
    destruct (Z.eqb_spec head 0) as [H0|H0]; destruct (Z.eqb_spec tail 0) as [T0|T0].
    + destruct Hhead as [-> _], Htail as [-> _]. rewrite !free_iov_null.
      destruct h2; simpl. by rewrite app_nil_r.
    + destruct Hhead as [-> _], Htail as [Hnz _]. rewrite free_iov_null.
      rewrite free_iov_nonnull by done. done.
    + destruct Hhead as [Hnz _], Htail as [-> _]. rewrite free_iov_null.
      rewrite free_iov_nonnull by done. unfold emit; simpl. done.
    + destruct Hhead as [Hnz _], Htail as [Hnz' _].
      rewrite !free_iov_nonnull by done. unfold emit; simpl.
      by rewrite <- (assoc_L (++)).
  - split; [|split; [|split]].
    + intros k Hk. rewrite Hm5o by lia. rewrite Hm4o by lia. by apply Hm3h.
    + intros k Hk. rewrite Hm5o by lia. rewrite Hm4g by lia.
      apply gather_at_ext; [done|lia].
    + intros k Hk. specialize (Hto ltac:(lia)).
      rewrite Hm5t by lia. rewrite Hm4o by lia. apply Hm3o. lia.
    + intros x Hx. rewrite Hm5o by lia. rewrite Hm4o by lia. apply Hm3o. lia.
Qed.

Lemma read_area_ok env off a h p n e :
  env_memalign env (h_trace h) a a = (0, p) →
  env_preadv env (h_trace h ++ [EvMemalign a a 0 p]) (mk_iovec p a) off = (n, e) →
  0 <= n <= INT_MAX →
  blockif_read_head_or_tail_area env (mk_iovec 0 0) off a h
  = (0, mk_iovec p a, area_read a off p n h).
Proof.
  intros Hm Hp Hn. unfold blockif_read_head_or_tail_area, posix_memalign.
  rewrite Hm. cbn [Z.eqb negb]. unfold preadv1. cbn [emit h_trace iov_base iov_len].
  rewrite Hp.
  assert (Hn0 : (n <? 0) = false) by (apply Z.ltb_ge; lia).
  rewrite Hn0. rewrite to_int_small by (unfold INT_MAX in *; lia). rewrite Hn0.
  unfold area_read, set_mem, emit. cbn [h_mem h_disk h_trace].
  by rewrite <- app_assoc.
Qed.

Lemma area_read_inside a off p n h x :
  p <= x < p + Z.min n a → h_mem (area_read a off p n h) x = h_disk h (off + (x - p)).
Proof.
  intros Hx. unfold area_read. cbn [h_mem].
  destruct (Z.leb_spec p x); destruct (Z.ltb_spec x (p + Z.min n a)); simpl; (done || lia).
Qed.

Lemma area_read_outside a off p n h x :
  ¬ (p <= x < p + a) → h_mem (area_read a off p n h) x = h_mem h x.
Proof.
  intros Hx. unfold area_read. cbn [h_mem].
  destruct (Z.leb_spec p x); destruct (Z.ltb_spec x (p + Z.min n a)); simpl; (done || lia).
Qed.

(** X10: for a request whose window is at most INT_MAX bytes and whose
    buffers (the bounce buffer, the two sector buffers, the caller's
    segments) do not overlap: when the head sector is read at least up to
    [head] and the tail sector in full, [blockif_init_bounced_write] returns
    0 and leaves in the bounce buffer the first [head] bytes of the disk
    sector at [aligned_dn_start], then the bytes of the caller's segments in
    order, then the last [tail] bytes of the disk sector at
    [aligned_dn_end]; memory outside the three buffers and the disk are
    unchanged, and both sector buffers are freed. *)
Theorem bounced_write_layout env bc br h Hb Tb n1 e1 n2 e2 :
  let info := br_align br in
  let B := iov_base (info_bounce_iov info) in
  let a := info_alignment info in
  let head := info_head info in
  let tail := info_tail info in
  let org := sum_iov_len (br_iov br) in
  let h1 := if head =? 0 then h else area_read a (info_aligned_dn_start info) Hb n1 h in
  let h2 := if tail =? 0 then h1 else area_read a (info_aligned_dn_end info) Tb n2 h1 in
  B ≠ 0 →
  Forall iovec_wf (br_iov br) →
  0 <= head → 0 <= tail <= a → head + org + tail <= INT_MAX → a <= INT_MAX →
  (head ≠ 0 →
   Hb ≠ 0
   ∧ env_memalign env (h_trace h) a a = (0, Hb)
   ∧ env_preadv env (h_trace h ++ [EvMemalign a a 0 Hb]) (mk_iovec Hb a)
       (info_aligned_dn_start info) = (n1, e1)
   ∧ head <= n1 <= a) →
  (tail ≠ 0 →
   Tb ≠ 0
   ∧ env_memalign env (h_trace h1) a a = (0, Tb)
   ∧ env_preadv env (h_trace h1 ++ [EvMemalign a a 0 Tb]) (mk_iovec Tb a)
       (info_aligned_dn_end info) = (n2, e2)
   ∧ n2 = a) →
  Forall (seg_outside B (B + head + org + tail)) (br_iov br) →
  (head ≠ 0 → Forall (seg_outside Hb (Hb + a)) (br_iov br)) →
  (tail ≠ 0 →
   seg_outside B (B + head + org + tail) (mk_iovec Tb a)
   ∧ Forall (seg_outside Tb (Tb + a)) (br_iov br)
   ∧ (head ≠ 0 → seg_outside Hb (Hb + a) (mk_iovec Tb a))) →
  ∃ m',
    blockif_init_bounced_write env bc br h =
      (0, {| h_mem := m'; h_disk := h_disk h;
             h_trace := h_trace h2 ++ (if head =? 0 then [] else [EvFree Hb])
                                   ++ (if tail =? 0 then [] else [EvFree Tb]) |})
    ∧ (∀ k, 0 <= k < head → m' (B + k) = h_disk h (info_aligned_dn_start info + k))
    ∧ (∀ k, 0 <= k < org → m' (B + head + k) = gather_at (h_mem h) (br_iov br) k)
    ∧ (∀ k, 0 <= k < tail →
          m' (B + head + org + k) = h_disk h (info_aligned_dn_end info + (a - tail + k)))
    ∧ (∀ x, ¬ (B <= x < B + head + org + tail) →
          ¬ (head ≠ 0 ∧ Hb <= x < Hb + a) → ¬ (tail ≠ 0 ∧ Tb <= x < Tb + a) →
          m' x = h_mem h x).
Proof.
  intros info B a head tail org h1 h2 HB Hwf Hh Ht Hmax Ha Hhead Htail Hiov Hhiov Htout.
  pose proof (sum_iov_len_nonneg _ Hwf) as Hnn. fold org in Hnn.
  set (Hb' := if head =? 0 then 0 else Hb).
  set (Tb' := if tail =? 0 then 0 else Tb).
  assert (Hd1 : h_disk h1 = h_disk h) by (unfold h1; by destruct (head =? 0)).
  assert (Hd2 : h_disk h2 = h_disk h) by (unfold h2; by destruct (tail =? 0)).
  (* memory after the two reads *)
  assert (Hm1 : ∀ x, ¬ (head ≠ 0 ∧ Hb <= x < Hb + a) → h_mem h1 x = h_mem h x).
  { intros x Hx. unfold h1. destruct (Z.eqb_spec head 0); [done|].
    apply area_read_outside. tauto. }
  assert (Hm2 : ∀ x, ¬ (tail ≠ 0 ∧ Tb <= x < Tb + a) → h_mem h2 x = h_mem h1 x).
  { intros x Hx. unfold h2. destruct (Z.eqb_spec tail 0); [done|].
    apply area_read_outside. tauto. }
  assert (Hr1 : if head =? 0 then Hb' = 0 ∧ h1 = h
                else Hb' ≠ 0
                     ∧ blockif_read_head_or_tail_area env (mk_iovec 0 0)
                         (info_aligned_dn_start info) a h = (0, mk_iovec Hb' a, h1)).
  { unfold Hb', h1. destruct (Z.eqb_spec head 0) as [H0|H0]; [done|].
    destruct (Hhead H0) as (Hnz & Hma & Hpr & Hn). split; [done|].
    apply (read_area_ok env _ a h Hb n1 e1); [done|done|lia]. }
  assert (Hr2 : if tail =? 0 then Tb' = 0 ∧ h2 = h1
                else Tb' ≠ 0
                     ∧ blockif_read_head_or_tail_area env (mk_iovec 0 0)
                         (info_aligned_dn_end info) a h1 = (0, mk_iovec Tb' a, h2)).
  { unfold Tb', h2. destruct (Z.eqb_spec tail 0) as [T0|T0]; [done|].
    destruct (Htail T0) as (Hnz & Hma & Hpr & Hn). split; [done|].
    apply (read_area_ok env _ a h1 Tb n2 e2); [done|done|lia]. }
  assert (Hto : tail ≠ 0 →
                seg_outside B (B + head + org + tail) (mk_iovec (Tb' + a - tail) tail)).
  { intros T0. unfold Tb'. apply Z.eqb_neq in T0 as T0'. rewrite T0'.
    destruct (Htout T0) as ([Ho|Ho] & _); unfold seg_outside in *;
      cbn [iov_base iov_len] in *; lia. }
  destruct (bounced_write_layout_mem env bc br h Hb' Tb' h1 h2 HB Hwf Hh (proj1 Ht) Hmax
              Hr1 Hr2 Hiov Hto)
    as (m' & Hres & Hmh & Hmb & Hmt & Hmo).
  change (iov_base (info_bounce_iov (br_align br))) with B in Hmh, Hmb, Hmt, Hmo.
  change (info_head (br_align br)) with head in Hmh, Hmb, Hmt, Hmo.
  change (info_tail (br_align br)) with tail in Hmh, Hmb, Hmt, Hmo.
  change (info_alignment (br_align br)) with a in Hmh, Hmb, Hmt, Hmo.
  change (sum_iov_len (br_iov br)) with org in Hmh, Hmb, Hmt, Hmo.
  exists m'. split.
  { rewrite Hres, Hd2. unfold Hb', Tb'.
    change (info_head (br_align br)) with head.
    change (info_tail (br_align br)) with tail.
    case (head =? 0); case (tail =? 0); reflexivity. }
  split; [|split; [|split]].
  - intros k Hk. etrans; [exact (Hmh k Hk)|].
    assert (H0 : head ≠ 0) by lia. destruct (Hhead H0) as (_ & _ & _ & Hn).
    unfold Hb'. apply Z.eqb_neq in H0 as H0'. rewrite H0'.
    rewrite Hm2.
    + unfold h1. rewrite H0'. rewrite area_read_inside by lia. f_equal. lia.
    + intros (T0 & Hx). destruct (Htout T0) as (_ & _ & Hov).
      destruct (Hov H0) as [Ho|Ho]; cbn [iov_base iov_len] in Ho; lia.
  - intros k Hk. etrans; [exact (Hmb k Hk)|]. apply gather_at_ext; [|lia].
    intros v j Hv Hj. rewrite Hm2, Hm1; [done| |].
    + intros (H0 & Hx). specialize (Hhiov H0). rewrite Forall_forall in Hhiov.
      destruct (Hhiov v Hv) as [Ho|Ho]; lia.
    + intros (T0 & Hx). destruct (Htout T0) as (_ & Htiov & _).
      rewrite Forall_forall in Htiov. destruct (Htiov v Hv) as [Ho|Ho]; lia.
  - intros k Hk. etrans; [exact (Hmt k Hk)|].
    assert (T0 : tail ≠ 0) by lia. destruct (Htail T0) as (_ & _ & _ & Hn).
    unfold Tb', h2. apply Z.eqb_neq in T0 as T0'. rewrite T0'.
    rewrite area_read_inside by lia. rewrite Hd1. f_equal. lia.
  - intros x Hx Hxh Hxt. etrans; [exact (Hmo x Hx)|]. by rewrite Hm2, Hm1.
Qed.

(** ** Emptying the bounce buffer after a read *)

Lemma bounced_read_loop_cons B v iov done length m :
  bounced_read_loop B (v :: iov) done length m =
    let len :=
      to_int (if iov_len v <? to_uint64 length then iov_len v else to_uint64 length) in
    let m1 := memcpy (iov_base v) (B + done) (to_uint64 len) m in
    if to_int (length - len) <=? 0 then m1
    else bounced_read_loop B iov (to_int (done + len)) (to_int (length - len)) m1.
Proof. reflexivity. Qed.

Lemma bounced_read_loop_spec B iov : ∀ done m,
  Forall iovec_wf iov →
  iov_disjoint iov →
  0 <= done →
  done + sum_iov_len iov <= INT_MAX →
  Forall (seg_outside (B + done) (B + done + sum_iov_len iov)) iov →
  (∀ k, 0 <= k < sum_iov_len iov →
        gather_at (bounced_read_loop B iov done (sum_iov_len iov) m) iov k = m (B + done + k))
  ∧ (∀ x, outside_iov iov x → bounced_read_loop B iov done (sum_iov_len iov) m x = m x).
Proof.
  induction iov as [|v iov IH]; intros done m Hwf Hdis Hd Hmax Hout.
  - simpl. split; [intros; lia|done].
  - apply Forall_cons in Hwf as [[_ Hv] Hwf].
    apply Forall_cons in Hout as [Hov Hout].
    destruct Hdis as [Hvd Hdis].
    pose proof (sum_iov_len_nonneg _ Hwf) as Hnn.
    rewrite sum_iov_len_cons in *.
    rewrite bounced_read_loop_cons. cbv zeta.
    assert (H64 : to_uint64 (iov_len v + sum_iov_len iov) = iov_len v + sum_iov_len iov).
    { apply to_uint64_small. unfold INT_MAX in *. lia. }
    assert (Hlen : to_int (if iov_len v <? to_uint64 (iov_len v + sum_iov_len iov)
                           then iov_len v
                           else to_uint64 (iov_len v + sum_iov_len iov)) = iov_len v).
    { rewrite H64. destruct (Z.ltb_spec (iov_len v) (iov_len v + sum_iov_len iov)).
      - apply to_int_small. unfold INT_MAX in *. lia.
      - replace (iov_len v + sum_iov_len iov) with (iov_len v) by lia.
        apply to_int_small. unfold INT_MAX in *. lia. }
    rewrite Hlen.
    rewrite (to_uint64_small (iov_len v)) by (unfold INT_MAX in *; lia).
    replace (iov_len v + sum_iov_len iov - iov_len v) with (sum_iov_len iov) by lia.
    rewrite (to_int_small (sum_iov_len iov)) by (unfold INT_MAX in *; lia).
    rewrite (to_int_small (done + iov_len v)) by (unfold INT_MAX in *; lia).
    set (m1 := memcpy (iov_base v) (B + done) (iov_len v) m).
    assert (Hm1v : ∀ k, 0 <= k < iov_len v → m1 (iov_base v + k) = m (B + done + k)).
    { intros k Hk. unfold m1. rewrite memcpy_inside by lia. f_equal. lia. }
    assert (Hm1o : ∀ x, ¬ (iov_base v <= x < iov_base v + iov_len v) → m1 x = m x).
    { intros x Hx. unfold m1. by apply memcpy_outside. }
    clearbody m1.
    destruct (Z.leb_spec (sum_iov_len iov) 0) as [Hz|Hpos].
    + (* the remaining segments are empty *)
      split.
      * intros k Hk. cbn [gather_at]. destruct (Z.ltb_spec k (iov_len v)); [|lia]. apply Hm1v; lia.
      * intros x Hx. apply Forall_cons in Hx as [Hx _]. by apply Hm1o.
    + destruct (IH (done + iov_len v) m1 Hwf Hdis ltac:(lia) ltac:(lia)) as [Hg Hfr].
      { eapply Forall_impl; [exact Hout|]. intros u [Hu|Hu]; [left|right]; lia. }
      split.
      * intros k Hk. cbn [gather_at]. destruct (Z.ltb_spec k (iov_len v)).
        -- rewrite Hfr; [apply Hm1v; lia|].
           unfold outside_iov. eapply Forall_impl; [exact Hvd|].
           intros u [Hu|Hu]; lia.
        -- rewrite Hg by lia. rewrite Hm1o by (destruct Hov; lia). f_equal. lia.
      * intros x Hx. apply Forall_cons in Hx as [Hxv Hx]. rewrite Hfr by done.
        by apply Hm1o.
Qed.

(** X11: for a request whose segments do not overlap each other or the
    part of the bounce buffer that holds its data, whose [org_size] is the
    total length of the segments, and with [head] plus that length at most
    INT_MAX, [blockif_complete_bounced_read] copies the bytes of the bounce
    buffer from offset [head] on into the caller's segments, in order, and
    changes nothing else: memory outside the segments, the disk and the
    trace stay as they were.  Without a bounce buffer it does nothing. *)
Theorem complete_bounced_read_scatter br w :
  let info := br_align br in
  let B := iov_base (info_bounce_iov info) in
  let head := info_head info in
  let org := sum_iov_len (br_iov br) in
  let w' := blockif_complete_bounced_read br w in
  (B = 0 → w' = w)
  ∧ (B ≠ 0 →
     Forall iovec_wf (br_iov br) →
     iov_disjoint (br_iov br) →
     info_org_size info = org →
     0 <= head →
     head + org <= INT_MAX →
     Forall (seg_outside (B + head) (B + head + org)) (br_iov br) →
     (∀ k, 0 <= k < org → gather_at (w_mem w') (br_iov br) k = w_mem w (B + head + k))
     ∧ (∀ x, outside_iov (br_iov br) x → w_mem w' x = w_mem w x)
     ∧ w_disk w' = w_disk w
     ∧ w_trace w' = w_trace w).
Proof.
  intros info B head org w'. subst w'. unfold blockif_complete_bounced_read.
  fold info. fold B. split.
  - intros ->. done.
  - intros HB Hwf Hdis Horg Hh Hmax Hout. apply Z.eqb_neq in HB. rewrite HB.
    pose proof (sum_iov_len_nonneg _ Hwf) as Hnn. fold org in Hnn.
    fold head. rewrite Horg.
    rewrite (to_int_small head), (to_int_small org) by (unfold INT_MAX in *; lia).
    destruct (bounced_read_loop_spec B (br_iov br) head (w_mem w) Hwf Hdis Hh Hmax Hout)
      as [Hg Hfr].
    done.
Qed.

(** ** The worker *)

(** *** What the discard path does to the host *)

Lemma discard_one_trace env bc a h :
  ∃ evs, (discard_one env bc a h).2
         = {| h_mem := h_mem h; h_disk := h_disk h; h_trace := h_trace h ++ evs |}
         ∧ forallb is_discard_event evs = true.
Proof.
  unfold discard_one. destruct (negb (bc_isblk bc =? 0)).
  - exists [EvBlkdiscard a.1 a.2]. done.
  - destruct (_ =? 0).
    + exists [EvPunchHole a.1 a.2; EvFdatasync]. split; [|done]. unfold emit; simpl.
      by rewrite <- (assoc_L (++)).
    + exists [EvPunchHole a.1 a.2]. done.
Qed.

Lemma discard_exec_trace env bc arg : ∀ h,
  ∃ evs, (discard_exec env bc arg h).2
         = {| h_mem := h_mem h; h_disk := h_disk h; h_trace := h_trace h ++ evs |}
         ∧ forallb is_discard_event evs = true.
Proof.
  induction arg as [|a arg IH]; intros h.
  - exists []. simpl. rewrite app_nil_r. by destruct h.
  - cbn [discard_exec].
    destruct (discard_one_trace env bc a h) as (evs1 & H1 & Hd1).
    destruct (discard_one env bc a h) as [err h1]. cbn [snd] in H1. subst h1.
    destruct (negb (err =? 0)).
    + exists evs1. done.
    + destruct (IH {| h_mem := h_mem h; h_disk := h_disk h; h_trace := h_trace h ++ evs1 |})
        as (evs2 & H2 & Hd2).
      exists (evs1 ++ evs2). rewrite H2. cbn [h_mem h_disk h_trace].
      rewrite <- (assoc_L (++)). split; [done|].
      rewrite forallb_app. by rewrite Hd1, Hd2.
Qed.

Lemma process_discard_trace env bc range br h r :
  blockif_process_discard env bc range br h = Some r →
  ∃ evs,
    r.2 = {| h_mem := h_mem h; h_disk := h_disk h; h_trace := h_trace h ++ evs |}
    ∧ forallb is_discard_event evs = true
    ∧ br_addr r.1.2 = br_addr br
    ∧ br_offset r.1.2 = br_offset br.
Proof.
  assert (Hid : ∃ evs, h = {| h_mem := h_mem h; h_disk := h_disk h;
                              h_trace := h_trace h ++ evs |}
                       ∧ forallb is_discard_event evs = true).
  { exists []. rewrite app_nil_r. by destruct h. }
  unfold blockif_process_discard.
  destruct (bc_candiscard bc =? 0).
  { intros [= <-]. destruct Hid as (evs & ? & ?). exists evs. done. }
  destruct (negb (bc_rdonly bc =? 0)).
  { intros [= <-]. destruct Hid as (evs & ? & ?). exists evs. done. }
  destruct (if br_iovcnt br =? 1 then _ else _) as [[err|[arg segment]]|]; [| |done].
  { intros [= <-]. destruct Hid as (evs & ? & ?). exists evs. done. }
  destruct (discard_exec_trace env bc (firstn (Z.to_nat segment) arg) h) as (evs & He & Hd).
  destruct (discard_exec env bc _ h) as [err h1]. cbn [snd] in He.
  exists evs. destruct (negb (err =? 0)); injection H as <-; done.
Qed.

(** A discard that stays within its array has a result. *)
Lemma process_discard_defined env bc range br h :
  discard_in_bounds bc br →
  ∃ r, blockif_process_discard env bc range br h = Some r.
Proof.
  intros Hb. unfold blockif_process_discard.
  destruct (bc_candiscard bc =? 0); [by eexists|].
  destruct (negb (bc_rdonly bc =? 0)); [by eexists|].
  destruct (Z.eqb_spec (br_iovcnt br) 1) as [Hcnt|Hcnt].
  - fold (discard_n_range br).
    destruct (discard_collect_defined bc range (discard_n_range br) 0 0 []) as (r & ->).
    { by apply collect_in_bounds_start. }
    destruct r as [err|[arg segment]]; [by eexists|].
    destruct (discard_exec env bc _ h) as [err h1]. destruct (negb _); by eexists.
  - cbv zeta. cbv iota.
    destruct (discard_exec env bc _ h) as [err h1]. destruct (negb _); by eexists.
Qed.

Lemma host_events_app tr1 tr2 : host_events (tr1 ++ tr2) = host_events tr1 ++ host_events tr2.
Proof. apply omap_app. Qed.

Lemma callbacks_app tr1 tr2 : callbacks (tr1 ++ tr2) = callbacks tr1 ++ callbacks tr2.
Proof. apply omap_app. Qed.

Lemma host_events_map evs : host_events (map IoHost evs) = evs.
Proof. unfold host_events. induction evs as [|e evs IH]; [done|]. cbn. by f_equal. Qed.

Lemma callbacks_discard evs :
  forallb is_discard_event evs = true → callbacks (map IoHost evs) = [].
Proof.
  unfold callbacks. induction evs as [|e evs IH]; [done|]. cbn [forallb map].
  intros H. apply andb_true_iff in H as [He H]. cbn.
  destruct e; try done; by apply IH.
Qed.

Lemma host_absorb_ext w evs :
  host_absorb w {| h_mem := w_mem w; h_disk := w_disk w;
                   h_trace := host_events (w_trace w) ++ evs |}
  = {| w_mem := w_mem w; w_disk := w_disk w; w_trace := w_trace w ++ map IoHost evs |}.
Proof.
  unfold host_absorb. cbn [h_mem h_disk h_trace]. f_equal.
  by rewrite drop_app_length.
Qed.

Lemma quiet_refl w : quiet_step w w.
Proof. exists []. by rewrite app_nil_r. Qed.

Lemma quiet_same_trace w w' : w_trace w' = w_trace w → quiet_step w w'.
Proof. intros H. exists []. by rewrite app_nil_r. Qed.

Lemma quiet_trans w1 w2 w3 : quiet_step w1 w2 → quiet_step w2 w3 → quiet_step w1 w3.
Proof.
  intros (e1 & H1 & C1) (e2 & H2 & C2). exists (e1 ++ e2).
  rewrite H2, H1, <- (assoc_L (++)). split; [done|].
  by rewrite callbacks_app, C1, C2.
Qed.

Lemma quiet_emit ev w : callbacks [ev] = [] → quiet_step w (w_emit ev w).
Proof. intros H. by exists [ev]. Qed.

Lemma quiet_preadv io iov off w : quiet_step w (preadv io iov off w).2.
Proof.
  unfold preadv. destruct (io_preadv io (w_trace w) iov off) as [ret errno].
  destruct (ret <? 0); by eexists [_].
Qed.

Lemma quiet_pwritev io iov off w : quiet_step w (pwritev io iov off w).2.
Proof.
  unfold pwritev. destruct (io_pwritev io (w_trace w) iov off) as [ret errno].
  destruct (ret <? 0); by eexists [_].
Qed.

Lemma quiet_fsync io w : quiet_step w (fsync io w).2.
Proof. unfold fsync. destruct (io_fsync io (w_trace w)). by eexists [_]. Qed.

Lemma quiet_flush_cache io bc w : quiet_step w (blockif_flush_cache io bc w).2.
Proof.
  unfold blockif_flush_cache. destruct (bc_wce bc =? 0); [|apply quiet_refl].
  pose proof (quiet_fsync io w) as H. by destruct (fsync io w) as [[ret errno] w1].
Qed.

Lemma quiet_deinit br w : quiet_step w (blockif_deinit_bounce_iov br w).2.
Proof.
  unfold blockif_deinit_bounce_iov. destruct (_ =? 0); [apply quiet_refl|].
  by apply quiet_emit.
Qed.

Lemma quiet_bounced_read br w : quiet_step w (blockif_complete_bounced_read br w).
Proof.
  unfold blockif_complete_bounced_read. destruct (_ =? 0); by apply quiet_same_trace.
Qed.

Lemma deinit_req br w :
  br_addr (blockif_deinit_bounce_iov br w).1 = br_addr br
  ∧ br_offset (blockif_deinit_bounce_iov br w).1 = br_offset br.
Proof. unfold blockif_deinit_bounce_iov. by destruct (_ =? 0). Qed.

Lemma quiet_discard env bc range br w r :
  blockif_process_discard env bc range br (host_view w) = Some r →
  quiet_step w (host_absorb w r.2).
Proof.
  intros Hr.
  destruct (process_discard_trace env bc range br (host_view w) r Hr) as (evs & He & Hd & _).
  rewrite He. cbn [host_view h_mem h_disk h_trace]. rewrite host_absorb_ext.
  exists (map IoHost evs). split; [done|]. by apply callbacks_discard.
Qed.

(** What every run of [blockif_proc] has in common. *)
Lemma blockif_proc_shape env io range bc bq be w br :
  be_req (elem_at bq be) = Some br →
  (be_op (elem_at bq be) = BOP_DISCARD → discard_in_bounds bc br) →
  ∃ err br1 w1,
    blockif_proc env io range bc bq be w =
      Some (set_elem bq be
              {| be_req := Some br1; be_op := be_op (elem_at bq be); be_status := BST_DONE;
                 be_tid := be_tid (elem_at bq be); be_block := be_block (elem_at bq be) |},
            w_emit (IoHost (EvCallback (br_addr br) err)) w1)
    ∧ br_addr br1 = br_addr br
    ∧ br_offset br1 = br_offset br
    ∧ quiet_step w w1.
Proof.
  intros Hreq Hin. unfold blockif_proc. rewrite Hreq.
  destruct (if info_need_conversion (br_align br) then _ else _) as [iovecs offset].
  cbv zeta. destruct (be_op (elem_at bq be)).
  - (* READ *)
    pose proof (quiet_preadv io iovecs offset w) as Hq1.
    destruct (preadv io iovecs offset w) as [[len errno] w1]. cbn [snd] in Hq1.
    set (r := if info_need_conversion (br_align br) then _ else _).
    assert (Hr : br_addr r.1 = br_addr br ∧ br_offset r.1 = br_offset br
                 ∧ quiet_step w r.2).
    { unfold r. destruct (info_need_conversion (br_align br)); [|done].
      destruct (deinit_req br (blockif_complete_bounced_read br w1)) as [? ?].
      split; [done|]. split; [done|].
      eapply quiet_trans; [exact Hq1|]. eapply quiet_trans; [apply quiet_bounced_read|].
      apply quiet_deinit. }
    destruct r as [br1 w2]. cbn [fst snd] in Hr. destruct Hr as (Ha & Ho & Hq).
    destruct (len <? 0).
    + exists errno, br1, w2. by rewrite Ha.
    + eexists 0, _, w2. cbn [br_addr set_resid]. by rewrite Ha.
  - (* WRITE *)
    destruct (negb (bc_rdonly bc =? 0)).
    { exists EROFS, br, w. split; [done|]. split; [done|]. split; [done|]. apply quiet_refl. }
    pose proof (quiet_pwritev io iovecs offset w) as Hq1.
    destruct (pwritev io iovecs offset w) as [[len errno] w1]. cbn [snd] in Hq1.
    set (r := if info_need_conversion (br_align br) then _ else _).
    assert (Hr : br_addr r.1 = br_addr br ∧ br_offset r.1 = br_offset br
                 ∧ quiet_step w r.2).
    { unfold r. destruct (info_need_conversion (br_align br)); [|done].
      destruct (deinit_req br w1) as [? ?]. split; [done|]. split; [done|].
      eapply quiet_trans; [exact Hq1|]. apply quiet_deinit. }
    destruct r as [br1 w2]. cbn [fst snd] in Hr. destruct Hr as (Ha & Ho & Hq).
    destruct (len <? 0).
    + exists errno, br1, w2. by rewrite Ha.
    + pose proof (quiet_flush_cache io bc w2) as Hq3.
      destruct (blockif_flush_cache io bc w2) as [err w3]. cbn [snd] in Hq3.
      eexists err, _, w3. cbn [br_addr set_resid]. rewrite Ha.
      split; [done|]. split; [done|]. split; [done|]. by eapply quiet_trans.
  - (* FLUSH *)
    pose proof (quiet_fsync io w) as Hq1.
    destruct (fsync io w) as [[ret errno] w1]. cbn [snd] in Hq1.
    eexists _, br, w1. done.
  - (* DISCARD *)
    destruct (process_discard_defined env bc range br (host_view w) (Hin eq_refl))
      as (r & Hr).
    pose proof (quiet_discard env bc range br w r Hr) as Hq1.
    destruct (process_discard_trace env bc range br (host_view w) r Hr)
      as (_ & _ & _ & Ha & Ho).
    rewrite Hr. destruct r as [[err br1] h1].
    cbn [fst snd] in *. eexists err, br1, _. by rewrite Ha.
Qed.

Lemma elem_at_set_elem_eq bq be e :
  (be < length (bq_reqs bq))%nat → elem_at (set_elem bq be e) be = e.
Proof. intros H. unfold elem_at, set_elem; simpl. by rewrite list_lookup_insert_eq. Qed.

Lemma elem_at_set_elem_ne bq be e i :
  i ≠ be → elem_at (set_elem bq be e) i = elem_at bq i.
Proof. intros H. unfold elem_at, set_elem; simpl. by rewrite list_lookup_insert_ne. Qed.

(** X15: [blockif_proc] on a slot that holds a request (a discard being
    one that stays within the rows of its array) makes exactly one
    callback, for that request, as the last thing it does; it marks the
    slot DONE and changes neither the three lists nor any other slot. *)
Theorem blockif_proc_calls_back_once env io range bc bq be w br :
  be_req (elem_at bq be) = Some br →
  (be < length (bq_reqs bq))%nat →
  (be_op (elem_at bq be) = BOP_DISCARD → discard_in_bounds bc br) →
  ∃ bq' w' err,
    blockif_proc env io range bc bq be w = Some (bq', w')
    ∧ callbacks (w_trace w') = callbacks (w_trace w) ++ [(br_addr br, err)]
    ∧ last (w_trace w') = Some (IoHost (EvCallback (br_addr br) err))
    ∧ be_status (elem_at bq' be) = BST_DONE
    ∧ bq_freeq bq' = bq_freeq bq
    ∧ bq_pendq bq' = bq_pendq bq
    ∧ bq_busyq bq' = bq_busyq bq
    ∧ ∀ i, i ≠ be → elem_at bq' i = elem_at bq i.
Proof.
  intros Hreq Hlt Hin.
  destruct (blockif_proc_shape env io range bc bq be w br Hreq Hin)
    as (err & br1 & w1 & Hp & _ & _ & (evs & Htr & Hcb)).
  eexists _, _, err. split; [exact Hp|]. cbn [w_emit w_trace].
  rewrite Htr. split; [|split; [|split; [|split; [|split; [|split]]]]]; try done.
  - by rewrite !callbacks_app, Hcb, app_nil_r.
  - by rewrite last_snoc.
  - by rewrite elem_at_set_elem_eq.
  - intros i Hi. by apply elem_at_set_elem_ne.
Qed.

Lemma scatter_single src v n m :
  scatter src [v] n m = mem_write (iov_base v) (Z.max 0 (Z.min n (iov_len v))) src m.
Proof. reflexivity. Qed.

Lemma mem_write_inside dst n src m a :
  dst <= a < dst + n → mem_write dst n src m a = src (a - dst).
Proof.
  intros H. unfold mem_write.
  destruct (Z.leb_spec dst a); destruct (Z.ltb_spec a (dst + n)); simpl; (done || lia).
Qed.

Lemma mem_write_outside dst n src m a :
  ¬ (dst <= a < dst + n) → mem_write dst n src m a = m a.
Proof.
  intros H. unfold mem_write.
  destruct (Z.leb_spec dst a); destruct (Z.ltb_spec a (dst + n)); simpl; (done || lia).
Qed.

(** X12: a converted READ whose [preadv] returns at least [head] plus
    the request's size: [blockif_proc] leaves in the caller's segments the
    disk bytes from the request's own start on, makes one read of the window
    into the bounce buffer, frees the buffer, calls back with 0 last, clears
    the bounce pointer, marks the slot DONE and subtracts from [resid] the
    byte count of the window read, not the request's size. *)
Theorem blockif_proc_bounced_read env io range bc bq be w br n errno :
  let info := br_align br in
  let B := iov_base (info_bounce_iov info) in
  let L := iov_len (info_bounce_iov info) in
  let head := info_head info in
  let org := sum_iov_len (br_iov br) in
  be_req (elem_at bq be) = Some br →
  be_op (elem_at bq be) = BOP_READ →
  (be < length (bq_reqs bq))%nat →
  info_need_conversion info = true →
  B ≠ 0 →
  info_org_size info = org →
  Forall iovec_wf (br_iov br) →
  iov_disjoint (br_iov br) →
  Forall (seg_outside B (B + L)) (br_iov br) →
  0 <= head →
  head + org <= INT_MAX →
  io_preadv io (w_trace w) [info_bounce_iov info] (info_aligned_dn_start info) = (n, errno) →
  head + org <= n →
  head + org <= L →
  ∃ bq' w' br',
    blockif_proc env io range bc bq be w = Some (bq', w')
    ∧ (∀ k, 0 <= k < org →
          gather_at (w_mem w') (br_iov br) k
          = w_disk w (info_aligned_dn_start info + head + k))
    ∧ (∀ x, outside_iov (br_iov br) x → ¬ (B <= x < B + L) → w_mem w' x = w_mem w x)
    ∧ w_disk w' = w_disk w
    ∧ w_trace w' = w_trace w ++ [IoPreadv [info_bounce_iov info] (info_aligned_dn_start info) n;
                                 IoHost (EvFree B);
                                 IoHost (EvCallback (br_addr br) 0)]
    ∧ elem_at bq' be =
        {| be_req := Some br'; be_op := BOP_READ; be_status := BST_DONE;
           be_tid := be_tid (elem_at bq be); be_block := be_block (elem_at bq be) |}
    ∧ br_resid br' = to_ssize_t (br_resid br - n)
    ∧ iov_base (info_bounce_iov (br_align br')) = 0.
Proof.
  intros info B L head org Hreq Hop Hlt Hconv HB Horg Hwf Hdis Hout Hh Hmax Hio Hn HL.
  pose proof (sum_iov_len_nonneg _ Hwf) as Hnn. fold org in Hnn.
  unfold blockif_proc. rewrite Hreq, Hop. fold info. rewrite Hconv.
  assert (Hn0 : (n <? 0) = false) by (apply Z.ltb_ge; lia).
  unfold preadv. rewrite Hio, Hn0.
  cbn [w_emit w_set_mem w_mem w_disk w_trace].
  rewrite scatter_single. fold B L.
  set (m1 := mem_write B (Z.max 0 (Z.min n L)) _ (w_mem w)).
  assert (Hm1 : ∀ k, 0 <= k < head + org → m1 (B + k) = w_disk w (info_aligned_dn_start info + k)).
  { intros k Hk. unfold m1. rewrite mem_write_inside by lia. f_equal. lia. }
  assert (Hm1o : ∀ x, ¬ (B <= x < B + L) → m1 x = w_mem w x).
  { intros x Hx. unfold m1. apply mem_write_outside. lia. }
  clearbody m1.
  unfold blockif_complete_bounced_read. fold info. fold B.
  apply Z.eqb_neq in HB as HB'. rewrite HB'.
  cbn [w_set_mem w_mem w_disk w_trace].
  fold head. rewrite Horg.
  rewrite (to_int_small head), (to_int_small org) by (unfold INT_MAX in *; lia).
  destruct (bounced_read_loop_spec B (br_iov br) head m1 Hwf Hdis Hh Hmax) as [Hg Hfr].
  { eapply Forall_impl; [exact Hout|]. intros u [Hu|Hu]; [left|right]; fold org; lia. }
  fold org in Hg, Hfr.
  set (m2 := bounced_read_loop B (br_iov br) head org m1) in *. clearbody m2.
  unfold blockif_deinit_bounce_iov. fold info. fold B. rewrite HB'.
  cbv beta iota zeta. rewrite Hn0.
  eexists _, _, _. split; [reflexivity|].
  cbn [w_emit w_set_mem w_trace w_mem w_disk set_resid set_align br_resid br_addr br_align
       set_bounce_iov info_bounce_iov iov_base].
  split; [|split; [|split; [|split; [|split; [|split]]]]].
  - intros k Hk. rewrite Hg by lia. rewrite <- (Z.add_assoc B). rewrite Hm1 by lia.
    f_equal. lia.
  - intros x Hx HxB. rewrite Hfr by done. by apply Hm1o.
  - done.
  - by rewrite <- !(assoc_L (++)).
  - by rewrite elem_at_set_elem_eq.
  - done.
  - done.
Qed.

(** X13: a WRITE on a read-only descriptor is called back with EROFS
    and nothing else happens: no write, no change of disk or memory, and a
    bounce buffer of the request is not freed (the slot keeps the request
    as it was). *)
Theorem blockif_proc_write_read_only env io range bc bq be w br :
  be_req (elem_at bq be) = Some br →
  be_op (elem_at bq be) = BOP_WRITE →
  bc_rdonly bc ≠ 0 →
  ∃ bq' w',
    blockif_proc env io range bc bq be w = Some (bq', w')
    ∧ w_disk w' = w_disk w
    ∧ w_mem w' = w_mem w
    ∧ w_trace w' = w_trace w ++ [IoHost (EvCallback (br_addr br) EROFS)]
    ∧ ((be < length (bq_reqs bq))%nat →
       be_req (elem_at bq' be) = Some br ∧ be_status (elem_at bq' be) = BST_DONE).
Proof.
  intros Hreq Hop Hro. unfold blockif_proc. rewrite Hreq, Hop.
  apply Z.eqb_neq in Hro. rewrite Hro. cbn [negb].
  destruct (if info_need_conversion (br_align br) then _ else _) as [iovecs offset].
  eexists _, _. split; [reflexivity|]. cbn [w_emit w_disk w_mem w_trace].
  split; [done|]. split; [done|]. split; [done|].
  intros Hlt. by rewrite elem_at_set_elem_eq.
Qed.

Lemma gather_at_single m v k : k < iov_len v → gather_at m [v] k = m (iov_base v + k).
Proof. intros H. simpl. destruct (Z.ltb_spec k (iov_len v)); [done|lia]. Qed.

(** X14: a converted WRITE on a writable descriptor whose [pwritev]
    writes the whole bounce buffer: the disk holds the buffer's bytes over
    the window and is unchanged outside, the trace continues with that one
    write and the free of the buffer, the bounce pointer is cleared and what
    [pwritev] returned is subtracted from [resid]. *)
Theorem blockif_proc_bounced_write env io range bc bq be w br n errno :
  let info := br_align br in
  let B := iov_base (info_bounce_iov info) in
  let L := iov_len (info_bounce_iov info) in
  let off := info_aligned_dn_start info in
  be_req (elem_at bq be) = Some br →
  be_op (elem_at bq be) = BOP_WRITE →
  bc_rdonly bc = 0 →
  info_need_conversion info = true →
  B ≠ 0 →
  0 <= L →
  io_pwritev io (w_trace w) [info_bounce_iov info] off = (n, errno) →
  L <= n →
  ∃ bq' w' evs,
    blockif_proc env io range bc bq be w = Some (bq', w')
    ∧ (∀ k, 0 <= k < L → w_disk w' (off + k) = w_mem w (B + k))
    ∧ (∀ x, ¬ (off <= x < off + L) → w_disk w' x = w_disk w x)
    ∧ w_mem w' = w_mem w
    ∧ w_trace w' = w_trace w ++ [IoPwritev [info_bounce_iov info] off n; IoHost (EvFree B)]
                             ++ evs
    ∧ ((be < length (bq_reqs bq))%nat →
       ∃ br', be_req (elem_at bq' be) = Some br'
              ∧ iov_base (info_bounce_iov (br_align br')) = 0
              ∧ br_resid br' = to_ssize_t (br_resid br - n)).
Proof.
  intros info B L off Hreq Hop Hro Hconv HB HL Hio Hn.
  unfold blockif_proc. rewrite Hreq, Hop, Hro. fold info. rewrite Hconv.
  cbn [Z.eqb negb]. fold off.
  assert (Hn0 : (n <? 0) = false) by (apply Z.ltb_ge; lia).
  unfold pwritev. rewrite Hio, Hn0.
  unfold blockif_deinit_bounce_iov. fold info. fold B.
  apply Z.eqb_neq in HB as HB'. rewrite HB'. cbv beta iota zeta. rewrite Hn0.
  set (w2 := w_emit (IoHost (EvFree B)) _).
  pose proof (quiet_flush_cache io bc w2) as (evs & Hevs & _).
  assert (Hfl : w_mem (blockif_flush_cache io bc w2).2 = w_mem w2
                ∧ w_disk (blockif_flush_cache io bc w2).2 = w_disk w2).
  { unfold blockif_flush_cache. destruct (bc_wce bc =? 0); [|done].
    unfold fsync. by destruct (io_fsync io (w_trace w2)). }
  destruct (blockif_flush_cache io bc w2) as [err w3]. cbn [snd] in *.
  destruct Hfl as [Hm3 Hd3].
  eexists _, _, (evs ++ [_]). split; [reflexivity|].
  cbn [w_emit w_mem w_disk w_trace]. rewrite Hm3, Hd3, Hevs.
  unfold w2. cbn [w_emit w_set_disk w_mem w_disk w_trace].
  assert (Hsum : sum_iov_len [info_bounce_iov info] = L) by (unfold L; simpl; lia).
  rewrite Hsum. rewrite (Z.min_r n L) by lia.
  split; [|split; [|split; [|split]]].
  - intros k Hk. rewrite mem_write_inside by lia.
    replace (off + k - off) with k by lia. apply gather_at_single. fold L. lia.
  - intros x Hx. by apply mem_write_outside.
  - done.
  - by rewrite <- !(assoc_L (++)).
  - intros Hlt. eexists. rewrite elem_at_set_elem_eq by done. done.
Qed.

(** Hosts on which a failing [pwritev] or [fsync] sets a nonzero [errno]. *)
(** X16: write-through: with the write cache off a WRITE is called
    back with 0 only after a write that succeeded and, right before the
    callback, an [fsync] that returned 0; with the write cache on
    [blockif_proc] makes no [fsync] for a WRITE. *)
Theorem blockif_proc_write_through env io range bc bq be w br :
  be_req (elem_at bq be) = Some br →
  be_op (elem_at bq be) = BOP_WRITE →
  bc_rdonly bc = 0 →
  io_sets_errno io →
  ∃ bq' w' err,
    blockif_proc env io range bc bq be w = Some (bq', w')
    ∧ last (w_trace w') = Some (IoHost (EvCallback (br_addr br) err))
    ∧ (bc_wce bc = 0 → err = 0 →
       ∃ iov off n mid,
         0 <= n
         ∧ w_trace w' = w_trace w ++ [IoPwritev iov off n] ++ mid
                                  ++ [IoFsync 0; IoHost (EvCallback (br_addr br) 0)])
    ∧ (bc_wce bc ≠ 0 → ∀ r, IoFsync r ∈ w_trace w' → IoFsync r ∈ w_trace w).
Proof.
  intros Hreq Hop Hro [Hpw Hfs].
  unfold blockif_proc. rewrite Hreq, Hop, Hro. cbn [Z.eqb negb].
  destruct (if info_need_conversion (br_align br) then _ else _) as [iovecs offset].
  unfold pwritev. specialize (Hpw (w_trace w) iovecs offset).
  destruct (io_pwritev io (w_trace w) iovecs offset) as [n errno]. cbn [fst snd] in Hpw.
  set (w1 := w_emit (IoPwritev iovecs offset n) w).
  destruct (Z.ltb_spec n 0) as [Hneg|Hpos].
  - (* the write failed *)
    assert (Hn0 : (n <? 0) = true) by (apply Z.ltb_lt; lia).
    set (r := if info_need_conversion (br_align br) then _ else _).
    assert (Hr : br_addr r.1 = br_addr br
                 ∧ ∃ mid, w_trace r.2 = w_trace w ++ [IoPwritev iovecs offset n] ++ mid
                          ∧ ∀ x, IoFsync x ∉ mid).
    { unfold r. destruct (info_need_conversion (br_align br)).
      - unfold blockif_deinit_bounce_iov. destruct (_ =? 0).
        + split; [done|]. exists []. split; [done|]. intros x Hx. by apply elem_of_nil in Hx.
        + split; [done|]. eexists [_]. cbn [snd w_emit w_trace w1].
          split; [by rewrite <- (assoc_L (++))|].
          intros x Hx. apply list_elem_of_singleton in Hx. done.
      - split; [done|]. exists []. split; [done|]. intros x Hx. by apply elem_of_nil in Hx. }
    destruct r as [br1 w2]. cbn [fst snd] in Hr. destruct Hr as (Ha & mid & Htr & Hnf).
    cbv beta iota zeta. rewrite Hn0.
    eexists _, _, errno. split; [reflexivity|]. cbn [w_emit w_trace]. rewrite Ha.
    split; [by rewrite last_snoc|]. split.
    + intros _ He. specialize (Hpw Hneg). done.
    + intros _ x Hx. rewrite Htr, !elem_of_app in Hx.
      destruct Hx as [[Hx|[Hx|Hx]]|Hx]; [done| | |].
      * apply list_elem_of_singleton in Hx. done.
      * by apply Hnf in Hx.
      * apply list_elem_of_singleton in Hx. done.
  - assert (Hn0 : (n <? 0) = false) by (apply Z.ltb_ge; lia).
    set (w1' := w_set_disk _ w1).
    set (r := if info_need_conversion (br_align br) then _ else _).
    assert (Hr : br_addr r.1 = br_addr br
                 ∧ ∃ mid, w_trace r.2 = w_trace w ++ [IoPwritev iovecs offset n] ++ mid
                          ∧ ∀ x, IoFsync x ∉ mid).
    { unfold r. destruct (info_need_conversion (br_align br)).
      - unfold blockif_deinit_bounce_iov. destruct (_ =? 0).
        + split; [done|]. exists []. split; [done|]. intros x Hx. by apply elem_of_nil in Hx.
        + split; [done|]. eexists [_]. cbn [snd w_emit w_trace w1' w1 w_set_disk].
          split; [by rewrite <- (assoc_L (++))|].
          intros x Hx. apply list_elem_of_singleton in Hx. done.
      - split; [done|]. exists []. split; [done|]. intros x Hx. by apply elem_of_nil in Hx. }
    destruct r as [br1 w2]. cbn [fst snd] in Hr. destruct Hr as (Ha & mid & Htr & Hnf).
    cbv beta iota zeta. rewrite Hn0.
    unfold blockif_flush_cache.
    destruct (Z.eqb_spec (bc_wce bc) 0) as [Hw|Hw].
    + unfold fsync. specialize (Hfs (w_trace w2)).
      destruct (io_fsync io (w_trace w2)) as [ret e2]. cbn [fst snd] in Hfs.
      eexists _, _, _. split; [reflexivity|]. cbn [w_emit w_trace set_resid br_addr].
      rewrite Ha. split; [by rewrite last_snoc|]. split; [|done].
      intros _ He. destruct (Z.eqb_spec ret 0) as [->|Hne]; cbn [negb] in He.
      * exists iovecs, offset, n, mid. split; [lia|]. rewrite Htr.
        by rewrite <- !(assoc_L (++)).
      * by specialize (Hfs Hne).
    + eexists _, _, 0. split; [reflexivity|]. cbn [w_emit w_trace set_resid br_addr].
      rewrite Ha. split; [by rewrite last_snoc|]. split; [done|].
      intros _ x Hx. rewrite Htr, !elem_of_app in Hx.
      destruct Hx as [[Hx|[Hx|Hx]]|Hx]; [done| | |].
      * apply list_elem_of_singleton in Hx. done.
      * by apply Hnf in Hx.
      * apply list_elem_of_singleton in Hx. done.
Qed.

(** ** One worker draining a queue *)

Lemma set_busy_inv bq be e :
  queue_inv bq → be ∈ bq_busyq bq →
  be_status e = BST_BUSY ∨ be_status e = BST_DONE →
  queue_inv (set_elem bq be e).
Proof.
  intros Hinv Hin Hst.
  pose proof (queue_inv_nodup _ Hinv) as Hnd.
  pose proof (queue_inv_lt bq be Hinv) as Hlt.
  destruct Hinv as [Hlen Hperm Hfree Hpend Hbusy].
  assert (Hbe : (be < length (bq_reqs bq))%nat).
  { rewrite Hlen. apply Hlt. rewrite !elem_of_app. auto. }
  apply NoDup_app in Hnd as (_ & Hfn & Hnd).
  apply NoDup_app in Hnd as (_ & Hpn & _).
  split; simpl; try done.
  - by rewrite length_insert.
  - intros i Hi. rewrite elem_at_set_elem_ne; [by apply Hfree|].
    intros ->. apply (Hfn be Hi). rewrite elem_of_app. auto.
  - intros i Hi. rewrite elem_at_set_elem_ne; [by apply Hpend|].
    intros ->. by apply (Hpn be Hi).
  - intros i Hi. destruct (decide (i = be)) as [->|Hne].
    + by rewrite elem_at_set_elem_eq.
    + rewrite elem_at_set_elem_ne by done. by apply Hbusy.
Qed.

Lemma filter_ne_notin (be : nat) (l : list nat) : be ∉ l → filter (λ i, i ≠ be) l = l.
Proof.
  induction l as [|x l IH]; [done|]. intros Hn.
  apply not_elem_of_cons in Hn as [Hx Hn].
  rewrite filter_cons_True by done. by rewrite IH.
Qed.

Lemma drain_step env io range bc t bq w i rest :
  drain_ready bc bq → bq_pendq bq = i :: rest →
  ∃ bq1 ret bq2 w2 err,
    blockif_dequeue bq t = (bq1, ret, Some i)
    ∧ blockif_proc env io range bc bq1 i w = Some (bq2, w2)
    ∧ drain_ready bc (blockif_complete bc bq2 i)
    ∧ bq_pendq (blockif_complete bc bq2 i) = rest
    ∧ bq_freeq (blockif_complete bc bq2 i) = bq_freeq bq ++ [i]
    ∧ (∀ j, j ∈ rest →
         slot_req_addr (blockif_complete bc bq2 i) j = slot_req_addr bq j)
    ∧ callbacks (w_trace w2) = callbacks (w_trace w) ++ [(slot_req_addr bq i, err)].
Proof.
  intros (Hinv & Hbusy & Hbl & Hnb & Hdis) Hq.
  pose proof (queue_inv_nodup _ Hinv) as Hnd.
  apply NoDup_app in Hnd as (_ & _ & Hnd). apply NoDup_app in Hnd as (Hndp & _ & _).
  rewrite Hq in Hndp. apply NoDup_cons in Hndp as [Hirest Hndr].
  assert (Hi : i ∈ bq_pendq bq) by (rewrite Hq; left).
  destruct (inv_pend _ Hinv i Hi) as [Hsti Hreqi].
  assert (Hpend : be_status (elem_at bq i) = BST_PEND).
  { destruct Hsti as [|Hb]; [done|]. exfalso.
    destruct (Hbl i Hi Hb) as (j & Hj & _).
    rewrite Hq, Hbusy in Hj. simpl in Hj. rewrite Nat.eqb_refl in Hj.
    by apply elem_of_nil in Hj. }
  pose proof (blockif_dequeue_shape bq t Hinv) as Hd.
  pose proof (dequeue_inv bq t Hinv) as Hinv1.
  pose proof (blockers_dequeue bq t Hinv Hbl) as Hbl1.
  destruct (blockif_dequeue bq t) as [[bq1 ret] [be|]]; cbn [fst] in *.
  2:{ destruct Hd as (_ & _ & Hall). rewrite (Hall i Hi) in Hpend. done. }
  destruct Hd as (_ & (pre & post & Hpp & Hpre & Hq1) & _ & Hb1 & Hf1 & He1 & Ho1).
  assert (pre = [] ∧ be = i ∧ post = rest) as (-> & -> & ->).
  { destruct pre as [|x pre].
    - simpl in Hpp. rewrite Hq in Hpp. by inversion Hpp.
    - exfalso. rewrite Hq in Hpp. inversion Hpp; subst x.
      assert (Hx : i ∈ i :: pre) by left. specialize (Hpre i Hx). congruence. }
  simpl in Hq1. rewrite Hbusy in Hb1. simpl in Hb1.
  destruct (be_req (elem_at bq i)) as [br|] eqn:Hbr; [|done].
  assert (Hbr1 : be_req (elem_at bq1 i) = Some br) by (by rewrite He1).
  assert (Hdis1 : be_op (elem_at bq1 i) = BOP_DISCARD → discard_in_bounds bc br).
  { rewrite He1. cbn [be_op]. by apply Hdis. }
  destruct (blockif_proc_shape env io range bc bq1 i w br Hbr1 Hdis1)
    as (err & br1 & w1 & Hp & Haddr & Hoff & (evs & Htr & Hcb)).
  set (e2 := {| be_req := Some br1; be_op := be_op (elem_at bq1 i);
                be_status := BST_DONE; be_tid := be_tid (elem_at bq1 i);
                be_block := be_block (elem_at bq1 i) |}) in *.
  set (bq2 := set_elem bq1 i e2) in *.
  assert (Hin1 : i ∈ bq_busyq bq1) by (rewrite Hb1; left).
  assert (Hinv2 : queue_inv bq2) by (apply set_busy_inv; [done|done|by right]).
  assert (Hbl2 : blockers_ahead bq2) by (by apply blockers_set_busy).
  assert (Hin2 : i ∈ bq_pendq bq2 ∨ i ∈ bq_busyq bq2) by (right; exact Hin1).
  destruct (blockif_complete_shape bc bq2 i Hinv2 Hin2) as (Hf3 & Hp3 & Hb3 & He3 & Ho3).
  assert (Hp3' : bq_pendq (blockif_complete bc bq2 i) = rest).
  { rewrite Hp3. change (bq_pendq bq2) with (bq_pendq bq1). rewrite Hq1.
    by apply filter_ne_notin. }
  assert (Helem : ∀ j, j ≠ i → elem_at bq2 j = elem_at bq j).
  { intros j Hj. unfold bq2. rewrite elem_at_set_elem_ne by done. by apply Ho1. }
  exists bq1, ret, bq2, (w_emit (IoHost (EvCallback (br_addr br) err)) w1), err.
  split; [done|]. split; [exact Hp|]. split; [|split; [done|split; [|split]]].
  - split; [by apply complete_inv|]. split.
    { rewrite Hb3. change (bq_busyq bq2) with (bq_busyq bq1). rewrite Hb1.
      rewrite filter_cons_False; [done|]. intros Hc. by apply Hc. }
    split.
    + destruct (decide (bc_bst_block bc = 1)) as [Hb|Hb].
      * by apply blockers_complete.
      * intros j Hj Hst. exfalso. rewrite Hp3' in Hj.
        assert (Hji : j ≠ i) by (intros ->; done).
        rewrite (Ho3 j Hji) in Hst.
        assert (Hbf : (bc_bst_block bc =? 1) = false) by (by apply Z.eqb_neq).
        rewrite Hbf in Hst. simpl in Hst. rewrite (Helem j Hji) in Hst.
        apply (Hnb Hb j); [|done]. rewrite Hq. by right.
    + split.
      * intros Hb j Hj Hst. rewrite Hp3' in Hj.
        assert (Hji : j ≠ i) by (intros ->; done).
        rewrite (Ho3 j Hji) in Hst.
        assert (Hbf : (bc_bst_block bc =? 1) = false) by (by apply Z.eqb_neq).
        rewrite Hbf in Hst. simpl in Hst. rewrite (Helem j Hji) in Hst.
        apply (Hnb Hb j); [|done]. rewrite Hq. by right.
      * intros j brj Hj. rewrite Hp3' in Hj.
        assert (Hji : j ≠ i) by (intros ->; done).
        rewrite (Ho3 j Hji), (Helem j Hji).
        assert (Hj' : j ∈ bq_pendq bq) by (rewrite Hq; by right).
        destruct (_ && _); cbn [set_status be_req be_op]; by apply Hdis.
  - rewrite Hf3. change (bq_freeq bq2) with (bq_freeq bq1). by rewrite Hf1.
  - intros j Hj. assert (Hji : j ≠ i) by (intros ->; done).
    unfold slot_req_addr. rewrite (Ho3 j Hji), <- (Helem j Hji).
    destruct (_ && _); [|done]. by rewrite set_status_req.
  - cbn [w_emit w_trace]. rewrite Htr, !callbacks_app, Hcb, app_nil_r.
    unfold slot_req_addr. rewrite Hbr. done.
Qed.

Lemma drain_ready_drains env io range bc t fuel : ∀ bq w,
  drain_ready bc bq → (length (bq_pendq bq) ≤ fuel)%nat →
  ∃ bq' w',
    blockif_thr_drain env io range bc fuel t bq w = Some (Some (bq', w'))
    ∧ queue_inv bq'
    ∧ bq_pendq bq' = [] ∧ bq_busyq bq' = []
    ∧ bq_freeq bq' = bq_freeq bq ++ bq_pendq bq
    ∧ map fst (callbacks (w_trace w'))
      = map fst (callbacks (w_trace w)) ++ map (slot_req_addr bq) (bq_pendq bq).
Proof.
  induction fuel as [|fuel IH]; intros bq w Hr Hlen.
  - destruct (bq_pendq bq) as [|i rest] eqn:Hq; [|simpl in Hlen; lia].
    destruct Hr as (Hinv & Hbusy & _).
    pose proof (blockif_dequeue_shape bq t Hinv) as Hd.
    exists bq, w. simpl.
    destruct (blockif_dequeue bq t) as [[bq1 ret] [be|]].
    + destruct Hd as (_ & (pre & post & Hpp & _) & _). rewrite Hq in Hpp.
      by destruct pre.
    + destruct Hd as (_ & -> & _). rewrite Hq, !app_nil_r. done.
  - destruct (bq_pendq bq) as [|i rest] eqn:Hq.
    + destruct Hr as (Hinv & Hbusy & _).
      pose proof (blockif_dequeue_shape bq t Hinv) as Hd.
      exists bq, w. simpl.
      destruct (blockif_dequeue bq t) as [[bq1 ret] [be|]].
      * destruct Hd as (_ & (pre & post & Hpp & _) & _). rewrite Hq in Hpp.
        by destruct pre.
      * destruct Hd as (_ & -> & _). rewrite Hq, !app_nil_r. done.
    + destruct (drain_step env io range bc t bq w i rest Hr Hq)
        as (bq1 & ret & bq2 & w2 & err & Hd & Hp & Hr3 & Hq3 & Hf3 & Haddr & Hcb).
      destruct (IH (blockif_complete bc bq2 i) w2 Hr3) as (bq' & w' & Hdr & Hi' & Hp' & Hb' & Hf' & Hcb').
      { rewrite Hq3. simpl in Hlen. lia. }
      exists bq', w'. cbn [blockif_thr_drain]. rewrite Hd, Hp. fold blockif_thr_drain.
      split; [exact Hdr|]. split; [done|]. split; [done|]. split; [done|]. split.
      * rewrite Hf', Hf3, Hq3, <- app_assoc. done.
      * rewrite Hcb', Hcb, Hq3, map_app, <- app_assoc. simpl. f_equal. f_equal.
        apply map_ext_in. intros j Hj. apply Haddr. by apply list_elem_of_In.
Qed.

Lemma reachable_drain_ready bc bq :
  reachable bc bq → bq_busyq bq = [] → discards_in_bounds bc bq → drain_ready bc bq.
Proof.
  intros Hr Hb Hd. split; [by eapply reachable_inv|]. split; [done|].
  split; [by eapply reachable_blockers_ahead|]. split; [|done].
  intros Hn i _. by apply (reachable_no_block bc bq Hr Hn).
Qed.

(** X17: one worker alone on a reachable queue with nothing in flight,
    whose pending discards stay within the rows of their arrays, empties
    pendq: it processes the pending requests in the order they were queued,
    calls back once for each in that order, and returns every slot to
    freeq, whatever the interlock parked. *)
Theorem blockif_thr_drains_pendq env io range bc t fuel bq w :
  reachable bc bq → bq_busyq bq = [] → discards_in_bounds bc bq →
  (length (bq_pendq bq) ≤ fuel)%nat →
  ∃ bq' w',
    blockif_thr_drain env io range bc fuel t bq w = Some (Some (bq', w'))
    ∧ queue_inv bq'
    ∧ bq_pendq bq' = [] ∧ bq_busyq bq' = []
    ∧ bq_freeq bq' = bq_freeq bq ++ bq_pendq bq
    ∧ map fst (callbacks (w_trace w'))
      = map fst (callbacks (w_trace w)) ++ map (slot_req_addr bq) (bq_pendq bq).
Proof.
  intros Hr Hb Hd. apply drain_ready_drains. by apply reachable_drain_ready.
Qed.

(** ** Submission and cancellation *)

Lemma same_request_refl br : same_request br br.
Proof. done. Qed.

Lemma same_request_trans a b c : same_request a b → same_request b c → same_request a c.
Proof. intros (?&?&?&?) (?&?&?&?). unfold same_request. split_and!; congruence. Qed.

Lemma same_request_set_align info br : same_request br (set_align info br).
Proof. done. Qed.

Lemma init_iov_align_info_same br : same_request br (blockif_init_iov_align_info br).
Proof.
  unfold blockif_init_iov_align_info.
  by destruct (fold_left _ _ _) as [[? ?] ?].
Qed.

Lemma init_alignment_info_same bc br : same_request br (blockif_init_alignment_info bc br).
Proof.
  unfold blockif_init_alignment_info.
  destruct (bc_bypass_host_cache bc =? 0); [done|].
  cbv zeta. match goal with |- context [blockif_init_iov_align_info ?b] =>
    pose proof (init_iov_align_info_same b) as H; set (r := blockif_init_iov_align_info b) in * end.
  clearbody r. destruct (_ && _ && _); eapply same_request_trans; try exact H; done.
Qed.

Lemma init_bounce_iov_same env br h :
  same_request br (blockif_init_bounce_iov env br h).1.2.
Proof.
  unfold blockif_init_bounce_iov, posix_memalign.
  destruct (env_memalign _ _ _ _) as [rc ptr]. by destruct (negb _).
Qed.

Lemma queue_at_set_queue bc q bq0 bq :
  queue_at bc q = Some bq0 → queue_at (set_queue bc q bq) q = Some bq.
Proof.
  unfold queue_at, set_queue; simpl. destruct (q <? 0); [done|]. intros H.
  apply list_lookup_insert_eq. by eapply lookup_lt_Some.
Qed.

(** The two ways [blockif_request] ends once the queue index is in range:
    an early return with a negative error from the setup of the bounce
    buffer, or the part under the queue mutex. *)
Lemma blockif_request_cases env bc breq op h bq :
  br_qidx breq < bc_bq_num bc →
  queue_at bc (br_qidx breq) = Some bq →
  ∃ err breq1 h1,
    same_request breq breq1
    ∧ ((err < 0 ∧ blockif_request env bc breq op h = Returns (err, bc, breq1, h1))
       ∨ (0 ≤ err
          ∧ blockif_request env bc breq op h =
              Returns (let '(e, bc', h') := blockif_request_locked bc bq breq1 op err h1 in
                       (e, bc', breq1, h')))).
Proof.
  intros Hq Hbq. unfold blockif_request.
  assert (Hle : (bc_bq_num bc <=? br_qidx breq) = false) by (apply Z.leb_gt; lia).
  rewrite Hle, Hbq.
  pose proof (init_alignment_info_same bc breq) as Hs1.
  set (breq1 := blockif_init_alignment_info bc breq) in *. clearbody breq1.
  destruct (is_rw op && info_need_conversion (br_align breq1)).
  - pose proof (init_bounce_iov_same env breq1 h) as Hs2.
    destruct (blockif_init_bounce_iov env breq1 h) as [[err breq2] h1]. cbn [fst snd] in Hs2.
    pose proof (same_request_trans _ _ _ Hs1 Hs2) as Hs.
    destruct (err <? 0) eqn:He.
    + exists err, breq2, h1. split; [done|]. left. split; [lia|done].
    + destruct (bool_decide (op = BOP_WRITE)).
      * destruct (blockif_init_bounced_write env bc breq2 h1) as [err' h2].
        destruct (err' <? 0) eqn:He'.
        -- exists err', breq2, h2. split; [done|]. left. split; [lia|done].
        -- exists err', breq2, h2. split; [done|]. right. split; [lia|].
           by destruct (blockif_request_locked bc bq breq2 op err' h2) as [[? ?] ?].
      * exists err, breq2, h1. split; [done|]. right. split; [lia|].
        by destruct (blockif_request_locked bc bq breq2 op err h1) as [[? ?] ?].
  - exists 0, breq1, h. split; [done|]. right. split; [lia|].
    by destruct (blockif_request_locked bc bq breq1 op 0 h) as [[? ?] ?].
Qed.

(** X7: with no free slot [blockif_request] returns E2BIG, or the
    negative code of a failed bounce-buffer setup, and leaves the descriptor
    and its queues as they were. *)
Theorem blockif_request_queue_full env bc breq op h bq :
  br_qidx breq < bc_bq_num bc →
  queue_at bc (br_qidx breq) = Some bq →
  bq_freeq bq = [] →
  ∃ err breq1 h1,
    blockif_request env bc breq op h = Returns (err, bc, breq1, h1)
    ∧ (err = E2BIG ∨ err < 0)
    ∧ br_addr breq1 = br_addr breq.
Proof.
  intros Hq Hbq Hf.
  destruct (blockif_request_cases env bc breq op h bq Hq Hbq)
    as (err & breq1 & h1 & Hs & [[He Hr]|[He Hr]]).
  - exists err, breq1, h1. split; [done|]. split; [by right|]. apply Hs.
  - exists E2BIG, breq1, h1. rewrite Hr. unfold blockif_request_locked. rewrite Hf.
    split; [done|]. split; [by left|]. apply Hs.
Qed.

(** X8: a misaligned READ that meets a full queue returns E2BIG
    after its bounce buffer was allocated: the allocation is the only host
    call made, nothing frees the buffer, and the request still points to
    it. *)
Theorem blockif_request_full_leaks_bounce env bc breq h bq ptr :
  br_qidx breq < bc_bq_num bc →
  queue_at bc (br_qidx breq) = Some bq →
  bq_freeq bq = [] →
  let breq1 := blockif_init_alignment_info bc breq in
  info_need_conversion (br_align breq1) = true →
  env_memalign env (h_trace h) (info_alignment (br_align breq1))
    (info_bounced_size (br_align breq1)) = (0, ptr) →
  ∃ breq2 h1,
    blockif_request env bc breq BOP_READ h = Returns (E2BIG, bc, breq2, h1)
    ∧ info_bounce_iov (br_align breq2)
      = mk_iovec ptr (info_bounced_size (br_align breq1))
    ∧ h_trace h1 = h_trace h ++ [EvMemalign (info_alignment (br_align breq1))
                                   (info_bounced_size (br_align breq1)) 0 ptr].
Proof.
  intros Hq Hbq Hf breq1 Hconv Hmem. unfold blockif_request.
  assert (Hle : (bc_bq_num bc <=? br_qidx breq) = false) by (apply Z.leb_gt; lia).
  rewrite Hle, Hbq. fold breq1. rewrite Hconv. cbn [is_rw andb orb bool_decide].
  unfold blockif_init_bounce_iov, posix_memalign. rewrite Hmem.
  cbn -[blockif_request_locked]. unfold blockif_request_locked. rewrite Hf.
  eexists _, _. split; [reflexivity|]. done.
Qed.

Lemma find_app_last {A} (f : A → bool) l x :
  (∀ y, y ∈ l → f y = false) → f x = true → find f (l ++ [x]) = Some x.
Proof.
  intros Hl Hx. induction l as [|y l IH]; simpl.
  - by rewrite Hx.
  - rewrite (Hl y) by left. apply IH. intros z Hz. apply Hl. by right.
Qed.

(** X6: on the thread pool, a request that [blockif_request] queues (it
    returns a non-negative code) and that was not queued before is found by
    [blockif_cancel] on pendq: the cancel returns 0 and asks nothing of the
    host, pendq and busyq are as before the request, and the slot is back on
    freeq, at its tail, FREE and without a request.  Otherwise the request
    returned a negative code and the descriptor is unchanged. *)
Theorem blockif_request_then_cancel env fuel bc breq op h bq be rest :
  br_qidx breq < bc_bq_num bc →
  queue_at bc (br_qidx breq) = Some bq →
  bc_ops bc = blockif_ops_thread_pool →
  queue_inv bq →
  bq_freeq bq = be :: rest →
  (∀ i, i ∈ bq_pendq bq → holds_req bq breq i = false) →
  ∃ err bc1 breq1 h1,
    blockif_request env bc breq op h = Returns (err, bc1, breq1, h1)
    ∧ ((err < 0 ∧ bc1 = bc)
       ∨ (0 ≤ err
          ∧ ∃ bc2 bq2,
              blockif_cancel env fuel bc1 breq1 h1 = Returns (0, bc2, h1)
              ∧ queue_at bc2 (br_qidx breq) = Some bq2
              ∧ bq_freeq bq2 = rest ++ [be]
              ∧ bq_pendq bq2 = bq_pendq bq
              ∧ bq_busyq bq2 = bq_busyq bq
              ∧ be_status (elem_at bq2 be) = BST_FREE
              ∧ be_req (elem_at bq2 be) = None)).
Proof.
  intros Hq Hbq Hops Hinv Hf Hnew.
  destruct (blockif_request_cases env bc breq op h bq Hq Hbq)
    as (err & breq1 & h1 & (Haddr & Hqidx & _) & [[He Hr]|[He Hr]]).
  { exists err, bc, breq1, h1. split; [done|]. by left. }
  pose proof (queue_inv_nodup _ Hinv) as Hnd.
  rewrite Hf in Hnd. simpl in Hnd. apply NoDup_cons in Hnd as [Hnin _].
  assert (Hbe_fresh : (be ∉ bq_pendq bq) ∧ (be ∉ bq_busyq bq)).
  { split; intros Hc; apply Hnin; rewrite !elem_of_app; auto. }
  destruct Hbe_fresh as [Hnp Hnb].
  assert (Hfree : be_status (elem_at bq be) = BST_FREE).
  { apply (inv_free _ Hinv). rewrite Hf. left. }
  assert (Hlt : (be < length (bq_reqs bq))%nat).
  { rewrite (inv_len _ Hinv). apply (queue_inv_lt bq be Hinv). rewrite Hf. left. }
  destruct (enqueue_shape bc bq breq1 op be rest Hf Hfree) as (e2 & Henq & Hreq & _ & Hst).
  pose proof (enqueue_inv bc bq breq1 op Hinv) as Hinv1.
  set (bq1 := (blockif_enqueue bc bq breq1 op).1) in *.
  assert (Hbq1 : blockif_enqueue bc bq breq1 op
                 = (bq1, c_bool (bool_decide (be_status e2 = BST_PEND)))).
  { unfold bq1. by rewrite Henq. }
  assert (Hp1 : bq_pendq bq1 = bq_pendq bq ++ [be]) by (unfold bq1; by rewrite Henq).
  assert (Hb1 : bq_busyq bq1 = bq_busyq bq) by (unfold bq1; by rewrite Henq).
  assert (Hf1 : bq_freeq bq1 = rest) by (unfold bq1; by rewrite Henq).
  assert (He1 : elem_at bq1 be = e2).
  { unfold bq1. rewrite Henq. unfold elem_at; simpl. by apply elem_at_insert_eq. }
  assert (Ho1 : ∀ i, i ≠ be → elem_at bq1 i = elem_at bq i).
  { intros i Hi. unfold bq1. rewrite Henq. unfold elem_at; simpl.
    by apply elem_at_insert_ne. }
  clearbody bq1.
  set (bc1 := set_queue bc (br_qidx breq1) bq1).
  assert (Hlocked : ∃ h2, blockif_request_locked bc bq breq1 op err h1 = (err, bc1, h2)).
  { unfold blockif_request_locked. rewrite Hf, Hbq1, Hops. simpl.
    destruct (negb _); eexists; reflexivity. }
  destruct Hlocked as (h2 & Hlocked). rewrite Hlocked in Hr.
  exists err, bc1, breq1, h2. split; [exact Hr|]. right. split; [done|].
  assert (Hin1 : be ∈ bq_pendq bq1 ∨ be ∈ bq_busyq bq1).
  { left. rewrite Hp1, elem_of_app. right. left. }
  destruct (blockif_complete_shape bc1 bq1 be Hinv1 Hin1) as (Hf3 & Hp3 & Hb3 & He3 & _).
  exists (set_queue bc1 (br_qidx breq1) (blockif_complete bc1 bq1 be)),
         (blockif_complete bc1 bq1 be).
  split.
  - unfold blockif_cancel.
    assert (Hle : (bc_bq_num bc1 <=? br_qidx breq1) = false).
    { apply Z.leb_gt. simpl. lia. }
    rewrite Hle. unfold bc1 at 1. rewrite Hqidx.
    rewrite (queue_at_set_queue bc (br_qidx breq) bq bq1 Hbq).
    rewrite Hp1, (find_app_last (holds_req bq1 breq1) (bq_pendq bq) be).
    + done.
    + intros i Hi. assert (Hib : i ≠ be) by (intros ->; done).
      unfold holds_req. rewrite (Ho1 i Hib), Haddr. by apply Hnew.
    + unfold holds_req. rewrite He1, Hreq. apply Z.eqb_refl.
  - split.
    { rewrite Hqidx. apply (queue_at_set_queue _ _ bq1).
      unfold bc1. rewrite Hqidx. by apply (queue_at_set_queue _ _ bq). }
    rewrite Hf3, Hp3, Hb3, He3, Hf1, Hp1, Hb1. split; [done|]. split.
    { rewrite filter_app, (filter_ne_notin be _ Hnp), filter_cons_False, filter_nil.
      - by rewrite app_nil_r.
      - intros Hc. by apply Hc. }
    split; [by apply filter_ne_notin|]. done.
Qed.

(** ** Discards that pass validation *)

Lemma discard_collect_valid bc range n : ∀ i arg,
  Z.of_nat (i + n) <= bc_max_discard_seg bc →
  Z.of_nat (i + n) <= MAX_DISCARD_SEGMENT →
  (∀ k, (k < n)%nat →
        discard_range_validate bc (discard_arg bc (range (i + k)%nat)).1
          (discard_arg bc (range (i + k)%nat)).2 = 0) →
  discard_collect bc range n i (Z.of_nat i) arg
  = Some (inr (arg ++ map (λ k, discard_arg bc (range k)) (seq i n), Z.of_nat (i + n))).
Proof.
  induction n as [|n IH]; intros i arg Hmax Hcap Hok.
  - simpl. by rewrite app_nil_r, Nat.add_0_r.
  - rewrite discard_collect_S. cbv zeta. unfold MAX_DISCARD_SEGMENT in *.
    assert (Hin : (256 <=? Z.of_nat i) = false) by (apply Z.leb_gt; lia).
    rewrite Hin.
    assert (Hi : to_int (Z.of_nat i + 1) = Z.of_nat (S i)).
    { rewrite to_int_small by (unfold INT_MAX; lia). lia. }
    rewrite Hi.
    assert (Hlt : (bc_max_discard_seg bc <? Z.of_nat (S i)) = false)
      by (apply Z.ltb_ge; lia).
    rewrite Hlt. specialize (Hok 0%nat ltac:(lia)) as Hok0. rewrite Nat.add_0_r in Hok0.
    rewrite Hok0. cbn [Z.eqb negb].
    rewrite IH.
    + cbn [seq map]. rewrite <- app_assoc. simpl. do 3 f_equal. lia.
    + replace (S i + n)%nat with (i + S n)%nat by lia. done.
    + replace (S i + n)%nat with (i + S n)%nat by lia. done.
    + intros k Hk. replace (S i + k)%nat with (i + S k)%nat by lia. apply Hok. lia.
Qed.

Lemma discard_exec_blk env bc : bc_isblk bc ≠ 0 → ∀ arg h,
  ∃ m, (m ≤ length arg)%nat
       ∧ (discard_exec env bc arg h).2
         = {| h_mem := h_mem h; h_disk := h_disk h;
              h_trace := h_trace h ++ map (λ a, EvBlkdiscard a.1 a.2) (firstn m arg) |}
       ∧ ((discard_exec env bc arg h).1 = 0 → m = length arg).
Proof.
  intros Hblk. induction arg as [|a arg IH]; intros h.
  - exists 0%nat. simpl. rewrite app_nil_r. by destruct h.
  - cbn [discard_exec]. unfold discard_one.
    assert (Hb : negb (bc_isblk bc =? 0) = true).
    { apply negb_true_iff. by apply Z.eqb_neq. }
    rewrite Hb.
    destruct (Z.eqb_spec (env_blkdiscard env (h_trace h) a.1 a.2) 0) as [He|He]; cbn [negb].
    + destruct (IH (emit (EvBlkdiscard a.1 a.2) h)) as (m & Hm & Htr & Hz).
      exists (S m). split; [simpl; lia|]. rewrite Htr. split.
      * unfold emit; simpl. by rewrite <- app_assoc.
      * intros H0. simpl. f_equal. by apply Hz.
    + exists 1%nat. split; [simpl; lia|]. split; [done|]. simpl. done.
Qed.

(** Within the code's types the rows the first loop computes are the
    ranges the request asks for. *)
Lemma discard_args_fits bc range br :
  br_iovcnt br = 1 → discard_fits bc range br →
  discard_args bc range br = discard_requested bc range br.
Proof.
  intros Hcnt (_ & Hn & Hfit). unfold discard_args.
  rewrite (discard_n_range_fits br Hn).
  unfold discard_requested in *. rewrite Hcnt in *. change (1 =? 1) with true in *.
  cbv iota in *. apply map_ext_in. intros k Hk.
  destruct (Hfit (dr_sector (range k) * 512 + bc_sub_file_start_lba bc,
                  dr_num_sectors (range k) * 512)) as (H1 & H2 & H3).
  { apply list_elem_of_fmap. exists k. split; [done|]. by apply list_elem_of_In. }
  cbn [fst snd] in *. apply discard_arg_fits; lia.
Qed.

(** X18: a multi-range discard whose requested values fit the code's
    types, and whose ranges are all valid and number at most
    [max_discard_seg] and [MAX_DISCARD_SEGMENT], runs the requested ranges
    in order and stops at the first failure: it returns 0 and sets [resid]
    to 0 when all succeed, else the code of the failed deallocation with
    [resid] untouched.  On a block device the host sees one BLKDISCARD per
    range run, in order, all of them when the call returns 0. *)
Theorem discard_valid_ranges_in_order env bc range br h :
  bc_candiscard bc ≠ 0 → bc_rdonly bc = 0 → br_iovcnt br = 1 →
  discard_fits bc range br →
  Z.of_nat (length (discard_requested bc range br)) <= bc_max_discard_seg bc →
  Z.of_nat (length (discard_requested bc range br)) <= MAX_DISCARD_SEGMENT →
  (∀ a, a ∈ discard_requested bc range br → discard_range_valid bc a) →
  let run := discard_exec env bc (discard_requested bc range br) h in
  blockif_process_discard env bc range br h
  = Some (run.1, if run.1 =? 0 then set_resid 0 br else br, run.2)
  ∧ (bc_isblk bc ≠ 0 →
     ∃ m, (m ≤ length (discard_requested bc range br))%nat
          ∧ h_trace run.2
            = h_trace h ++ map (λ a, EvBlkdiscard a.1 a.2)
                             (firstn m (discard_requested bc range br))
          ∧ (run.1 = 0 → m = length (discard_requested bc range br))).
Proof.
  intros Hcan Hro Hcnt Hfits Hseg Hcap Hvalid run.
  pose proof (discard_args_fits bc range br Hcnt Hfits) as Hargs.
  assert (Hlen : length (discard_requested bc range br) = discard_n_range br).
  { rewrite <- Hargs. unfold discard_args. by rewrite length_map, length_seq. }
  rewrite Hlen in *.
  split.
  - unfold blockif_process_discard.
    assert (Hc : (bc_candiscard bc =? 0) = false) by (by apply Z.eqb_neq).
    rewrite Hc, Hro, Hcnt. change (0 =? 0) with true. change (1 =? 1) with true.
    cbv iota. cbn [negb]. fold (discard_n_range br).
    pose proof (discard_collect_valid bc range (discard_n_range br) 0 []) as Hcv.
    change (Z.of_nat 0) with 0 in Hcv. rewrite Hcv; [|done|done|].
    + cbn [app]. rewrite Nat.add_0_l, Nat2Z.id.
      fold (discard_args bc range br). rewrite Hargs.
      rewrite firstn_all2 by lia.
      subst run.
      destruct (discard_exec env bc (discard_requested bc range br) h) as [err h1].
      cbn [fst snd]. destruct (Z.eqb_spec err 0) as [->|He]; done.
    + intros k Hk. rewrite Nat.add_0_l.
      destruct Hfits as (Hdev & Hn & Hfit).
      assert (Hin : discard_arg bc (range k) ∈ discard_requested bc range br).
      { rewrite <- Hargs. unfold discard_args. apply list_elem_of_fmap.
        exists k. split; [done|]. apply list_elem_of_In, in_seq. lia. }
      destruct (Hfit _ Hin) as (H1 & H2 & H3).
      destruct (discard_arg bc (range k)) as [st sz] eqn:Ha. cbn [fst snd] in *.
      apply discard_range_validate_valid; [lia|lia|lia|done|]. by apply Hvalid.
  - intros Hblk. destruct (discard_exec_blk env bc Hblk (discard_requested bc range br) h)
      as (m & Hm & Htr & Hz).
    exists m. subst run. rewrite Htr. rewrite Hlen in *. done.
Qed.

(** ** Geometry *)

Lemma blockif_chs_unbounded bc :
  0 <= bc_size bc <= OFF_MAX →
  0 < bc_sectsz bc <= INT_MAX →
  blockif_chs bc = vhd_chs (bc_size bc / bc_sectsz bc).
Proof.
  intros Hsz Hss. unfold blockif_chs, vhd_chs.
  rewrite Z.quot_div_nonneg by lia.
  set (s0 := bc_size bc / bc_sectsz bc).
  assert (Hs0 : 0 <= s0 <= OFF_MAX).
  { unfold s0. split; [apply Z.div_pos; lia|].
    etrans; [|apply Hsz]. apply Z.div_le_upper_bound; [lia|]. nia. }
  unfold OFF_MAX in Hs0. clearbody s0.
  unfold to_uint64.
  rewrite (wrap_unsigned_small 64 s0) by (change (2 ^ 64) with 18446744073709551616; lia).
  change (65535 * 16 * 255) with 267382800. change (65536 * 16 * 63) with 66060288.
  set (s := Z.min s0 267382800).
  assert (Hclamp : (if 267382800 <? s0 then 267382800 else s0) = s).
  { unfold s. destruct (Z.ltb_spec 267382800 s0); lia. }
  rewrite Hclamp.
  assert (Hs : 0 <= s <= 267382800) by (unfold s; lia).
  clearbody s. clear Hclamp.
  rewrite (wrap_unsigned_small 64 s) by (change (2 ^ 64) with 18446744073709551616; lia).
  destruct (Z.leb_spec 66060288 s) as [Hbig|Hsmall]; cbv beta iota zeta.
  { rewrite (Z.quot_div_nonneg s 255) by lia.
    rewrite quot_small_uint16 by dlia. done. }
  rewrite !(Z.quot_div_nonneg s) by lia.
  set (h17 := s / 17). assert (Hh17 : 0 <= h17 < 3885900) by (unfold h17; dlia).
  rewrite (Z.quot_div_nonneg (h17 + 1023)) by lia.
  set (H := (h17 + 1023) / 1024).
  assert (HH : 0 <= H ∧ 1024 * H - 1023 <= h17 <= 1024 * H) by (unfold H; dlia).
  clearbody H.
  set (h31 := s / 31). assert (Hh31 : 0 <= h31 < 2130978) by (unfold h31; dlia).
  set (h63 := s / 63). assert (Hh63 : 0 <= h63 < 1048576) by (unfold h63; dlia).
  assert (Hc31 : h31 < 1024 * 16 → to_uint16 (Z.quot h31 16) = h31 / 16).
  { intros Hlt. apply quot_small_uint16; lia. }
  assert (Hc63 : to_uint16 (Z.quot h63 16) = h63 / 16) by (apply quot_small_uint16; lia).
  assert (Hmul : ∀ x, x * 1024 = 1024 * x) by (intros; lia).
  assert (Htail : (let '(secpt, heads, hcyl) := (31, 16, h31) in
                   let '(secpt0, heads0, hcyl0) :=
                     if heads * 1024 <=? hcyl then (63, 16, h63) else (secpt, heads, hcyl) in
                   (to_uint16 (Z.quot hcyl0 heads0), heads0, secpt0))
                  = (if h31 <? 1024 * 16 then (h31 / 16, 16, 31) else (h63 / 16, 16, 63))).
  { cbv beta iota zeta.
    destruct (Z.leb_spec (16 * 1024) h31); destruct (Z.ltb_spec h31 (1024 * 16));
      try lia; [by rewrite Hc63|by rewrite Hc31]. }
  destruct (Z_lt_le_dec H 256) as [Hlt|Hge].
  - (* the quotient fits the uint8_t *)
    unfold to_uint8. rewrite (wrap_unsigned_small 8 H) by (change (2 ^ 8) with 256; lia).
    assert (Hmax : (if H <? 4 then 4 else H) = Z.max 4 H).
    { destruct (Z.ltb_spec H 4); lia. }
    rewrite Hmax. set (hd := Z.max 4 H). assert (Hhd : 4 <= hd < 256) by (unfold hd; lia).
    clearbody hd.
    rewrite Hmul.
    destruct (Z.leb_spec (1024 * hd) h17) as [H1|H1];
      destruct (Z.ltb_spec h17 (1024 * hd)) as [H1'|H1']; try lia; simpl orb; simpl andb.
    + exact Htail.
    + destruct (Z.ltb_spec 16 hd) as [H2|H2]; destruct (Z.leb_spec hd 16) as [H2'|H2'];
        try lia.
      * exact Htail.
      * cbv beta iota zeta. rewrite Hmul.
        destruct (Z.leb_spec (1024 * hd) h17); [lia|].
        rewrite quot_small_uint16 by nia. done.
  - (* the quotient is truncated, and both computations promote *)
    set (hd8 := if to_uint8 H <? 4 then 4 else to_uint8 H).
    assert (Hhd8 : 4 <= hd8 < 256).
    { unfold hd8, to_uint8, wrap_unsigned. change (2 ^ 8) with 256.
      pose proof (Z.mod_pos_bound H 256 ltac:(lia)).
      destruct (Z.ltb_spec (H mod 256) 4); lia. }
    clearbody hd8.
    replace (Z.max 4 H) with H by lia.
    destruct (Z.leb_spec (hd8 * 1024) h17); [simpl orb|lia].
    destruct (Z.ltb_spec h17 (1024 * H)); destruct (Z.leb_spec H 16); try lia;
      simpl andb; exact Htail.
Qed.

Lemma vhd_chs_capacity n :
  0 <= n →
  let '(c, h, s) := vhd_chs n in
  0 <= c <= 65535 ∧ 4 <= h <= 16 ∧ (s = 17 ∨ s = 31 ∨ s = 63 ∨ s = 255)
  ∧ c * h * s <= n
  ∧ (n <= 65535 * 16 * 255 → n - c * h * s < h * s).
Proof.
  intros Hn. unfold vhd_chs.
  change (65535 * 16 * 255) with 267382800. change (65536 * 16 * 63) with 66060288.
  set (s := Z.min n 267382800).
  assert (Hs : 0 <= s <= 267382800 ∧ s <= n ∧ (n <= 267382800 → s = n)) by (unfold s; lia).
  clearbody s.
  destruct (Z.leb_spec 66060288 s) as [Hbig|Hsmall].
  { split_and!; try lia; try dlia. }
  set (hd := Z.max 4 ((s / 17 + 1023) / 1024)).
  assert (Hhd : 4 <= hd) by (unfold hd; lia). clearbody hd.
  destruct (Z.ltb_spec (s / 17) (1024 * hd)) as [H1|H1];
    destruct (Z.leb_spec hd 16) as [H2|H2]; cbn [andb].
  - assert (Hq : 0 <= s / 17 ∧ 17 * (s / 17) <= s < 17 * (s / 17) + 17) by dlia.
    set (q := s / 17) in *. clearbody q.
    assert (Hc : 0 <= q / hd ∧ hd * (q / hd) <= q < hd * (q / hd) + hd).
    { pose proof (Z.div_mod q hd ltac:(lia)). pose proof (Z.mod_pos_bound q hd ltac:(lia)).
      split; [apply Z.div_pos; lia|]. lia. }
    set (c := q / hd) in *. clearbody c.
    split_and!; try lia; try nia.
  - destruct (Z.ltb_spec (s / 31) (1024 * 16)); split_and!; try lia; try dlia.
  - destruct (Z.ltb_spec (s / 31) (1024 * 16)); split_and!; try lia; try dlia.
  - destruct (Z.ltb_spec (s / 31) (1024 * 16)); split_and!; try lia; try dlia.
Qed.

(** X19: the geometry [blockif_chs] returns never addresses a sector
    beyond the device: cylinders times heads times sectors per track is at
    most the number of sectors, and short of it by less than one cylinder as
    long as the device is within the CHS limit; the cylinder count fits 16
    bits, there are 4 to 16 heads and 17, 31, 63 or 255 sectors per track. *)
Theorem blockif_chs_within_capacity bc :
  0 <= bc_size bc <= OFF_MAX →
  0 < bc_sectsz bc <= INT_MAX →
  let '(c, h, s) := blockif_chs bc in
  let sectors := bc_size bc / bc_sectsz bc in
  0 <= c <= 65535 ∧ 4 <= h <= 16 ∧ (s = 17 ∨ s = 31 ∨ s = 63 ∨ s = 255)
  ∧ c * h * s <= sectors
  ∧ (sectors <= 65535 * 16 * 255 → sectors - c * h * s < h * s).
Proof.
  intros Hsz Hss. rewrite blockif_chs_unbounded by done.
  apply vhd_chs_capacity. apply Z.div_pos; lia.
Qed.

(** ** The io_uring back end *)








(** X22: when the ring has no free submission entry [iou_submit] stops
    with the slot it had just taken left on busyq, BUSY: nothing was
    submitted for it, [in_flight] is unchanged and no callback is made. *)
Theorem iou_submit_no_sqe env ring range bc fuel bq sq w be rest :
  queue_inv bq →
  bq_pendq bq = be :: rest →
  be_status (elem_at bq be) = BST_PEND →
  is_io_uring_supported_op (be_op (elem_at bq be)) = true →
  iou_get_sqe ring sq = false →
  ∃ bq',
    iou_submit env ring range bc (S fuel) bq sq w = Some (Some (bq', sq, w))
    ∧ bq_pendq bq' = rest
    ∧ bq_busyq bq' = bq_busyq bq ++ [be]
    ∧ be_status (elem_at bq' be) = BST_BUSY
    ∧ bq_in_flight bq' = bq_in_flight bq.
Proof.
  intros Hinv Hq Hst Hop Hsqe.
  pose proof (blockif_dequeue_shape bq 0 Hinv) as Hd.
  cbn [iou_submit].
  destruct (blockif_dequeue bq 0) as [[bq1 ret] [be'|]] eqn:Hdq.
  2:{ destruct Hd as (_ & _ & Hall). rewrite (Hall be) in Hst; [done|]. rewrite Hq. left. }
  destruct Hd as (_ & (pre & post & Hpp & Hpre & Hq1) & _ & Hb1 & _ & He1 & _).
  assert (pre = [] ∧ be' = be ∧ post = rest) as (-> & -> & ->).
  { destruct pre as [|x pre].
    - simpl in Hpp. rewrite Hq in Hpp. by inversion Hpp.
    - exfalso. rewrite Hq in Hpp. inversion Hpp; subst x.
      assert (Hx : be ∈ be :: pre) by left. specialize (Hpre be Hx). congruence. }
  assert (Hop1 : be_op (elem_at bq1 be) = be_op (elem_at bq be)) by (by rewrite He1).
  rewrite Hop1, Hop. unfold iou_submit_sqe. rewrite Hsqe. cbn [negb].
  change (-1 =? -1) with true. cbv iota.
  exists bq1. split; [done|]. split; [done|]. split; [done|]. split; [by rewrite He1|].
  unfold blockif_dequeue in Hdq. destruct (find _ _); by inversion Hdq.
Qed.

(** ** Instances *)

Lemma bq_pending_inv : queue_inv bq_pending.
Proof. apply enqueue_inv, queue_open_inv. Qed.

Lemma bq_busy_inv : queue_inv bq_busy.
Proof. apply dequeue_inv, bq_pending_inv. Qed.

Lemma blockif_dequeue_first_pend_witness :
  queue_inv bq_two_pending
  ∧ ∃ bq', blockif_dequeue bq_two_pending 77 = (bq', 1, Some 71%nat)
           ∧ bq_pendq bq' = [70%nat] ∧ bq_busyq bq' = [71%nat].
Proof.
  assert (Hinv : queue_inv bq_two_pending) by apply enqueue_inv, bq_pending_inv.
  split; [exact Hinv|].
  pose proof (blockif_dequeue_first_pend bq_two_pending 77 Hinv) as H.
  destruct (blockif_dequeue bq_two_pending 77) as [[bq' ret] [be|]] eqn:Hd.
  - destruct H as (-> & _). exists bq'.
    assert (Hbe : be = 71%nat).
    { apply (f_equal snd) in Hd. vm_compute in Hd. congruence. }
    subst be. split; [reflexivity|].
    apply (f_equal (λ r, (bq_pendq r.1.1, bq_busyq r.1.1))) in Hd.
    vm_compute in Hd. by inversion Hd.
  - apply (f_equal snd) in Hd. vm_compute in Hd. discriminate.
Defined.

Lemma blockif_complete_unblocks_witness :
  queue_inv bq_busy ∧ (71%nat ∈ bq_pendq bq_busy ∨ 71%nat ∈ bq_busyq bq_busy)
  ∧ bq_freeq (blockif_complete bc_demo bq_busy 71) = bq_freeq bq_busy ++ [71%nat]
  ∧ bq_busyq (blockif_complete bc_demo bq_busy 71)
    = filter (λ i, i ≠ 71%nat) (bq_busyq bq_busy).
Proof.
  assert (Hin : 71%nat ∈ bq_pendq bq_busy ∨ 71%nat ∈ bq_busyq bq_busy).
  { right. replace (bq_busyq bq_busy) with [71%nat] by (by vm_compute). left. }
  split; [exact bq_busy_inv|]. split; [exact Hin|].
  destruct (blockif_complete_unblocks bc_demo bq_busy 71 bq_busy_inv Hin)
    as (Hf & _ & Hb & _).
  split; [exact Hf|exact Hb].
Defined.

Lemma no_block_without_interlock_witness :
  let bq := (blockif_enqueue bc_no_interlock
               (blockif_enqueue bc_no_interlock queue_open req_misaligned BOP_WRITE).1
               req_misaligned BOP_READ).1 in
  reachable bc_no_interlock bq ∧ bc_bst_block bc_no_interlock ≠ 1
  ∧ ∀ i, be_status (elem_at bq i) ≠ BST_BLOCK.
Proof.
  assert (Hr : reachable bc_no_interlock
                 (blockif_enqueue bc_no_interlock
                    (blockif_enqueue bc_no_interlock queue_open req_misaligned BOP_WRITE).1
                    req_misaligned BOP_READ).1).
  { apply reach_enqueue, reach_enqueue, reach_open. }
  assert (Hb : bc_bst_block bc_no_interlock ≠ 1) by (simpl; lia).
  split; [exact Hr|]. split; [exact Hb|].
  exact (no_block_without_interlock bc_no_interlock _ Hr Hb).
Defined.

Lemma queue_capacity_witness :
  let l := [(req_flush, BOP_FLUSH); (req_misaligned, BOP_READ)] in
  let bq' := (enqueue_all bc_demo queue_open l).1 in
  Z.of_nat (length l) <= blockif_queuesz bc_demo
  ∧ length (bq_pendq bq') = length l ∧ bq_freeq bq' ≠ [].
Proof.
  assert (Hl : Z.of_nat (length [(req_flush, BOP_FLUSH); (req_misaligned, BOP_READ)])
               <= blockif_queuesz bc_demo) by (vm_compute; discriminate).
  split; [exact Hl|].
  exact (proj2 (proj2 (proj2 (queue_capacity bc_demo
           [(req_flush, BOP_FLUSH); (req_misaligned, BOP_READ)]))) Hl).
Defined.

Lemma blockers_ahead_reachable_witness :
  reachable bc_demo bq_blocked
  ∧ bq_pendq bq_blocked = [71%nat; 70%nat]
  ∧ be_status (elem_at bq_blocked 70) = BST_BLOCK
  ∧ ∃ j, j ∈ before 70 (bq_pendq bq_blocked) ++ bq_busyq bq_blocked
         ∧ unblocked_by (be_block (elem_at bq_blocked j)) (elem_at bq_blocked 70) = true.
Proof.
  assert (Hr : reachable bc_demo bq_blocked).
  { unfold bq_blocked. apply reach_enqueue, reach_enqueue, reach_open. }
  assert (Hp : bq_pendq bq_blocked = [71%nat; 70%nat]) by (by vm_compute).
  assert (Hs : be_status (elem_at bq_blocked 70) = BST_BLOCK) by (by vm_compute).
  split; [exact Hr|]. split; [exact Hp|]. split; [exact Hs|].
  apply (blockers_ahead_reachable bc_demo bq_blocked Hr 70%nat); [|exact Hs].
  rewrite Hp. right. left.
Defined.

Lemma blockif_request_then_cancel_witness :
  ∃ err bc1 breq1 h1,
    blockif_request env_ok bc_demo req_flush BOP_FLUSH host_zero
    = Returns (err, bc1, breq1, h1)
    ∧ ((err < 0 ∧ bc1 = bc_demo)
       ∨ (0 <= err
          ∧ ∃ bc2 bq2,
              blockif_cancel env_ok 0 bc1 breq1 h1 = Returns (0, bc2, h1)
              ∧ queue_at bc2 (br_qidx req_flush) = Some bq2
              ∧ bq_freeq bq2 = tl (bq_freeq queue_open) ++ [71%nat]
              ∧ bq_pendq bq2 = bq_pendq queue_open
              ∧ bq_busyq bq2 = bq_busyq queue_open
              ∧ be_status (elem_at bq2 71) = BST_FREE
              ∧ be_req (elem_at bq2 71) = None)).
Proof.
  apply (blockif_request_then_cancel env_ok 0 bc_demo req_flush BOP_FLUSH host_zero
           queue_open 71 (tl (bq_freeq queue_open))).
  - simpl. lia.
  - reflexivity.
  - reflexivity.
  - apply queue_open_inv.
  - by vm_compute.
  - intros i Hi. replace (bq_pendq queue_open) with (@nil nat) in Hi by (by vm_compute).
    apply elem_of_nil in Hi. destruct Hi.
Defined.

Lemma blockif_request_queue_full_witness :
  ∃ err breq1 h1,
    blockif_request env_ok (set_queue bc_demo 0 bq_full) req_flush BOP_FLUSH host_zero
    = Returns (err, set_queue bc_demo 0 bq_full, breq1, h1)
    ∧ (err = E2BIG ∨ err < 0)
    ∧ br_addr breq1 = br_addr req_flush.
Proof.
  apply (blockif_request_queue_full env_ok (set_queue bc_demo 0 bq_full) req_flush
           BOP_FLUSH host_zero bq_full).
  - simpl. lia.
  - reflexivity.
  - by vm_compute.
Defined.

Lemma blockif_request_full_leaks_bounce_witness :
  ∃ breq2 h1,
    blockif_request env_ok (set_queue bc_demo 0 bq_full) req_misaligned BOP_READ host_zero
    = Returns (E2BIG, set_queue bc_demo 0 bq_full, breq2, h1)
    ∧ info_bounce_iov (br_align breq2) = mk_iovec 65536 512
    ∧ h_trace h1 = [EvMemalign 512 512 0 65536].
Proof.
  destruct (blockif_request_full_leaks_bounce env_ok (set_queue bc_demo 0 bq_full)
              req_misaligned host_zero bq_full 65536)
    as (breq2 & h1 & Hr & Hb & Ht).
  - simpl. lia.
  - reflexivity.
  - by vm_compute.
  - by vm_compute.
  - by vm_compute.
  - exists breq2, h1. split; [exact Hr|]. split; [exact Hb|exact Ht].
Defined.

Lemma bounce_window_covers_witness :
  let info := br_align (blockif_init_alignment_info bc_demo req_misaligned) in
  info_need_conversion info = true
  ∧ (512 | info_aligned_dn_start info)
  ∧ (512 | info_bounced_size info)
  ∧ info_aligned_dn_start info + info_head info = 100
  ∧ info_aligned_dn_start info + info_bounced_size info = 300 + info_tail info.
Proof.
  assert (Hn : info_need_conversion
                 (br_align (blockif_init_alignment_info bc_demo req_misaligned)) = true)
    by (by vm_compute).
  destruct (bounce_window_covers bc_demo req_misaligned) as (H1 & H2 & _ & H4 & H5 & _).
  - simpl. lia.
  - unfold INT_MAX. simpl. lia.
  - repeat constructor; simpl; lia.
  - simpl. lia.
  - unfold OFF_MAX. simpl. lia.
  - unfold UINT32_MAX. simpl. lia.
  - exact Hn.
  - split; [exact Hn|]. split; [exact H1|]. split; [exact H2|]. split; [exact H4|exact H5].
Defined.

Lemma req_bounced_wf : Forall iovec_wf (br_iov req_bounced).
Proof. repeat constructor; vm_compute; congruence. Qed.

Lemma bounced_write_layout_witness :
  let h := (req_misaligned_bounced env_ok).2 in
  ∃ m' tr,
    blockif_init_bounced_write env_ok bc_demo req_bounced h
    = (0, {| h_mem := m'; h_disk := h_disk h;
             h_trace := tr ++ [EvFree 131072] ++ [EvFree 262144] |})
    ∧ (∀ k, 0 <= k < 100 → m' (65536 + k) = h_disk h (0 + k))
    ∧ (∀ k, 0 <= k < 200 →
          m' (65536 + 100 + k) = gather_at (h_mem h) (br_iov req_bounced) k)
    ∧ (∀ k, 0 <= k < 212 →
          m' (65536 + 100 + 200 + k) = h_disk h (0 + (512 - 212 + k))).
Proof.
  set (h := (req_misaligned_bounced env_ok).2).
  destruct (bounced_write_layout env_ok bc_demo req_bounced h 131072 262144 512 0 512 0)
    as (m' & Hr & Hh & Hb & Ht & _).
  - by vm_compute.
  - exact req_bounced_wf.
  - by vm_compute.
  - vm_compute. split; congruence.
  - by vm_compute.
  - by vm_compute.
  - intros _. split; [by vm_compute|]. split; [by vm_compute|]. split; [by vm_compute|].
    vm_compute. split; congruence.
  - intros _. split; [by vm_compute|]. split; [by vm_compute|]. split; [by vm_compute|].
    by vm_compute.
  - change (br_iov req_bounced) with [mk_iovec 8192 200].
    constructor; [left; vm_compute; congruence|constructor].
  - intros _. change (br_iov req_bounced) with [mk_iovec 8192 200].
    constructor; [left; vm_compute; congruence|constructor].
  - intros _. split; [right; vm_compute; congruence|]. split.
    + change (br_iov req_bounced) with [mk_iovec 8192 200].
      constructor; [left; vm_compute; congruence|constructor].
    + intros _. right. vm_compute. congruence.
  - eexists m', _. split; [exact Hr|]. split; [exact Hh|]. split; [exact Hb|exact Ht].
Defined.

Lemma req_bounced_disjoint : iov_disjoint (br_iov req_bounced).
Proof. change (br_iov req_bounced) with [mk_iovec 8192 200]. repeat constructor. Qed.

Lemma complete_bounced_read_scatter_witness :
  let w' := blockif_complete_bounced_read req_bounced wstate_pattern in
  (∀ k, 0 <= k < 200 →
        gather_at (w_mem w') (br_iov req_bounced) k = w_mem wstate_pattern (65536 + 100 + k))
  ∧ w_disk w' = w_disk wstate_pattern.
Proof.
  destruct (proj2 (complete_bounced_read_scatter req_bounced wstate_pattern))
    as (Hg & _ & Hd & _).
  - by vm_compute.
  - exact req_bounced_wf.
  - exact req_bounced_disjoint.
  - by vm_compute.
  - by vm_compute.
  - by vm_compute.
  - change (br_iov req_bounced) with [mk_iovec 8192 200].
    constructor; [left; vm_compute; congruence|constructor].
  - split; [exact Hg|exact Hd].
Defined.

Lemma blockif_proc_bounced_read_witness :
  ∃ bq' w' br',
    blockif_proc env_ok io_ok range_zero bc_demo bq_read_busy 71 wstate_pattern
    = Some (bq', w')
    ∧ (∀ k, 0 <= k < 200 →
          gather_at (w_mem w') (br_iov req_bounced) k = w_disk wstate_pattern (0 + 100 + k))
    ∧ w_trace w' = [IoPreadv [mk_iovec 65536 512] 0 512; IoHost (EvFree 65536);
                    IoHost (EvCallback 4099000 0)]
    ∧ br_resid br' = to_ssize_t (200 - 512).
Proof.
  destruct (blockif_proc_bounced_read env_ok io_ok range_zero bc_demo bq_read_busy 71
              wstate_pattern req_bounced 512 0)
    as (bq' & w' & br' & Hp & Hg & _ & _ & Ht & _ & Hr & _).
  - by vm_compute.
  - by vm_compute.
  - vm_compute. lia.
  - by vm_compute.
  - by vm_compute.
  - by vm_compute.
  - exact req_bounced_wf.
  - exact req_bounced_disjoint.
  - change (br_iov req_bounced) with [mk_iovec 8192 200].
    constructor; [left; vm_compute; congruence|constructor].
  - by vm_compute.
  - by vm_compute.
  - by vm_compute.
  - by vm_compute.
  - by vm_compute.
  - exists bq', w', br'. split; [exact Hp|]. split; [exact Hg|]. split; [exact Ht|exact Hr].
Defined.

Lemma blockif_proc_bounced_write_witness :
  ∃ bq' w' evs,
    blockif_proc env_ok io_ok range_zero bc_demo bq_write_busy 71 wstate_pattern
    = Some (bq', w')
    ∧ (∀ k, 0 <= k < 512 → w_disk w' (0 + k) = w_mem wstate_pattern (65536 + k))
    ∧ w_trace w' = [IoPwritev [mk_iovec 65536 512] 0 512; IoHost (EvFree 65536)] ++ evs.
Proof.
  destruct (blockif_proc_bounced_write env_ok io_ok range_zero bc_demo bq_write_busy 71
              wstate_pattern req_bounced 512 0)
    as (bq' & w' & evs & Hp & Hd & _ & _ & Ht & _).
  - by vm_compute.
  - by vm_compute.
  - by vm_compute.
  - by vm_compute.
  - by vm_compute.
  - by vm_compute.
  - by vm_compute.
  - by vm_compute.
  - exists bq', w', evs. split; [exact Hp|]. split; [exact Hd|exact Ht].
Defined.

Lemma blockif_proc_write_read_only_witness :
  ∃ bq' w',
    blockif_proc env_ok io_ok range_zero bc_rdonly_demo bq_write_busy 71 wstate_pattern
    = Some (bq', w')
    ∧ w_disk w' = w_disk wstate_pattern
    ∧ w_trace w' = [IoHost (EvCallback 4099000 EROFS)].
Proof.
  destruct (blockif_proc_write_read_only env_ok io_ok range_zero bc_rdonly_demo
              bq_write_busy 71 wstate_pattern req_bounced)
    as (bq' & w' & Hp & Hd & _ & Ht & _).
  - by vm_compute.
  - by vm_compute.
  - by vm_compute.
  - exists bq', w'. split; [exact Hp|]. split; [exact Hd|exact Ht].
Defined.

Lemma blockif_proc_calls_back_once_witness :
  ∃ bq' w' err,
    blockif_proc env_ok io_ok range_zero bc_demo bq_busy 71 wstate_zero = Some (bq', w')
    ∧ callbacks (w_trace w') = [(4098000, err)]
    ∧ be_status (elem_at bq' 71) = BST_DONE.
Proof.
  destruct (blockif_proc_calls_back_once env_ok io_ok range_zero bc_demo bq_busy 71
              wstate_zero req_flush)
    as (bq' & w' & err & Hp & Hc & _ & Hs & _).
  - by vm_compute.
  - vm_compute. lia.
  - intros Hop. vm_compute in Hop. discriminate.
  - exists bq', w', err. split; [exact Hp|]. split; [exact Hc|exact Hs].
Defined.

Lemma io_ok_sets_errno : io_sets_errno io_ok.
Proof. split; simpl; intros; lia. Qed.

Lemma blockif_proc_write_through_witness :
  ∃ bq' w' err,
    blockif_proc env_ok io_ok range_zero bc_demo bq_write_busy 71 wstate_zero
    = Some (bq', w')
    ∧ last (w_trace w') = Some (IoHost (EvCallback 4099000 err))
    ∧ (err = 0 → ∃ iov off n mid,
         0 <= n
         ∧ w_trace w' = [IoPwritev iov off n] ++ mid
                        ++ [IoFsync 0; IoHost (EvCallback 4099000 0)]).
Proof.
  destruct (blockif_proc_write_through env_ok io_ok range_zero bc_demo bq_write_busy 71
              wstate_zero req_bounced)
    as (bq' & w' & err & Hp & Hl & Hw & _).
  - by vm_compute.
  - by vm_compute.
  - by vm_compute.
  - exact io_ok_sets_errno.
  - exists bq', w', err. split; [exact Hp|]. split; [exact Hl|].
    intros He. exact (Hw eq_refl He).
Defined.

Lemma blockif_thr_drains_pendq_witness :
  ∃ bq' w',
    blockif_thr_drain env_ok io_ok range_zero bc_demo 2 77 bq_two_pending wstate_zero
    = Some (Some (bq', w'))
    ∧ bq_pendq bq' = [] ∧ bq_busyq bq' = []
    ∧ bq_freeq bq' = bq_freeq bq_two_pending ++ bq_pendq bq_two_pending
    ∧ map fst (callbacks (w_trace w')) = [4098000; 4096000].
Proof.
  destruct (blockif_thr_drains_pendq env_ok io_ok range_zero bc_demo 77 2 bq_two_pending
              wstate_zero)
    as (bq' & w' & Hd & _ & Hp & Hb & Hf & Hc).
  - unfold bq_two_pending, bq_pending. apply reach_enqueue, reach_enqueue, reach_open.
  - by vm_compute.
  - intros i br Hi _ Hop.
    replace (bq_pendq bq_two_pending) with [71%nat; 70%nat] in Hi by (by vm_compute).
    apply elem_of_cons in Hi as [->|Hi]; [vm_compute in Hop; discriminate|].
    apply list_elem_of_singleton in Hi as ->. vm_compute in Hop. discriminate.
  - vm_compute. lia.
  - exists bq', w'. split; [exact Hd|]. split; [exact Hp|]. split; [exact Hb|].
    split; [exact Hf|]. rewrite Hc. by vm_compute.
Defined.

Lemma discard_valid_ranges_in_order_witness :
  let run := discard_exec env_ok bc_blk (discard_requested bc_blk range_aligned
                                           req_discard_multi) host_zero in
  discard_requested bc_blk range_aligned req_discard_multi = [(4096, 4096)]
  ∧ blockif_process_discard env_ok bc_blk range_aligned req_discard_multi host_zero
    = Some (run.1, if run.1 =? 0 then set_resid 0 req_discard_multi else req_discard_multi,
            run.2)
  ∧ ∃ m, (m ≤ 1)%nat
         ∧ h_trace run.2
           = h_trace host_zero
             ++ map (λ a, EvBlkdiscard a.1 a.2)
                  (firstn m (discard_requested bc_blk range_aligned req_discard_multi)).
Proof.
  assert (Hreq : discard_requested bc_blk range_aligned req_discard_multi = [(4096, 4096)])
    by (by vm_compute).
  destruct (discard_valid_ranges_in_order env_ok bc_blk range_aligned req_discard_multi
              host_zero) as [Hr Hb].
  - by vm_compute.
  - by vm_compute.
  - by vm_compute.
  - split; [vm_compute; split; congruence|]. split; [vm_compute; split; congruence|].
    intros a Ha. rewrite Hreq in Ha. apply list_elem_of_singleton in Ha as ->.
    vm_compute. repeat split; congruence.
  - rewrite Hreq. vm_compute. congruence.
  - rewrite Hreq. vm_compute. congruence.
  - intros a Ha. rewrite Hreq in Ha. apply list_elem_of_singleton in Ha as ->.
    split; [vm_compute; congruence|]. split; [vm_compute; congruence|].
    split; [vm_compute; congruence|]. right. by vm_compute.
  - split; [exact Hreq|]. split; [exact Hr|].
    destruct (Hb ltac:(by vm_compute)) as (m & Hm & Ht & _).
    exists m. rewrite Hreq in Hm. split; [exact Hm|exact Ht].
Defined.

Lemma blockif_chs_within_capacity_witness :
  let '(c, h, s) := blockif_chs bc_demo in
  c * h * s <= 2048 ∧ 2048 - c * h * s < h * s.
Proof.
  pose proof (blockif_chs_within_capacity bc_demo) as H.
  destruct (blockif_chs bc_demo) as [[c h] s].
  destruct H as (_ & _ & _ & Hle & Hlt).
  - unfold OFF_MAX. simpl. lia.
  - unfold INT_MAX. simpl. lia.
  - split; [exact Hle|]. apply Hlt. vm_compute. congruence.
Defined.




Lemma iou_submit_no_sqe_witness :
  ∃ bq',
    iou_submit env_ok ring_full range_zero bc_demo 1 bq_pending [] wstate_zero
    = Some (Some (bq', [], wstate_zero))
    ∧ bq_pendq bq' = []
    ∧ bq_busyq bq' = bq_busyq bq_pending ++ [71%nat]
    ∧ be_status (elem_at bq' 71) = BST_BUSY.
Proof.
  destruct (iou_submit_no_sqe env_ok ring_full range_zero bc_demo 0 bq_pending []
              wstate_zero 71 [])
    as (bq' & Hs & Hp & Hb & Hst & _).
  - exact bq_pending_inv.
  - by vm_compute.
  - by vm_compute.
  - by vm_compute.
  - reflexivity.
  - exists bq'. split; [exact Hs|]. split; [exact Hp|]. split; [exact Hb|exact Hst].
Defined.
